(** * The multi-provider inference client of [src/llms/__init__.py]

    A shallow embedding of the response parsers, the conversation
    translation, the per-provider retry loops and the fan-out
    orchestrator, followed by the properties that the specification
    states about them. *)

From Stdlib Require Import ZArith Ascii String List Bool Lia.
From stdpp Require Import gmap strings list fin_maps.

Local Open Scope string_scope.
Local Open Scope Z_scope.
Local Open Scope list_scope.

(** ** Exceptions and outcomes

    A Python call either returns a value or raises.  An exception is
    known by its class and its text ([str(e)]).  The text is kept for the
    exceptions that some handler of the program reads (the errors of a
    provider exchange and those that reach the retry wrapper of the
    OpenRouter branch); the built-in errors that no handler reads
    ([KeyError], [IndexError], ...) carry the empty text.
    [DanglingReference] and [FuelExhausted] have no Python counterpart:
    they mark a store that names a dictionary it does not hold, and a
    loop cut short by the bound of its model. *)

Inductive exn_class : Type :=
  | AssertionError
  | ValueError
  | KeyError
  | IndexError
  | TypeError
  | RateLimitError
  | OtherError
  | DanglingReference
  | FuelExhausted.

Inductive exn : Type := Exn (cls : exn_class) (text : string).

Definition bare (c : exn_class) : exn := Exn c "".
Definition exn_str (e : exn) : string := let 'Exn _ t := e in t.
Definition exn_cls (e : exn) : exn_class := let 'Exn c _ := e in c.

Inductive outcome (A : Type) : Type :=
  | Ret (a : A)
  | Raise (e : exn).
Arguments Ret {A} a.
Arguments Raise {A} e.

Definition obind {A B} (m : outcome A) (k : A -> outcome B) : outcome B :=
  match m with
  | Ret a => k a
  | Raise e => Raise e
  end.

(** ** Python strings

    A [str] is modelled by [string]: a sequence of code points below 256.
    The operations follow CPython's semantics for a non-empty needle. *)

Module PyStr.

Definition nl : string := String "010"%char "".
Definition tab : string := String "009"%char "".

(** [s.startswith(p)] *)
Fixpoint startswith (p s : string) : bool :=
  match p, s with
  | EmptyString, _ => true
  | String a p', String b s' => if Ascii.eqb a b then startswith p' s' else false
  | String _ _, EmptyString => false
  end.

(** [sub in s] *)
Fixpoint contains (sub s : string) : bool :=
  match s with
  | EmptyString => startswith sub s
  | String _ s' => startswith sub s || contains sub s'
  end.

Fixpoint drop (n : nat) (s : string) : string :=
  match n, s with
  | O, _ => s
  | S k, String _ s' => drop k s'
  | S _, EmptyString => EmptyString
  end.

Fixpoint take (n : nat) (s : string) : string :=
  match n, s with
  | O, _ => EmptyString
  | S k, String c s' => String c (take k s')
  | S _, EmptyString => EmptyString
  end.

(** [s.count(sub)]: occurrences found left to right, never overlapping.
    [skip] is the number of characters still covered by the occurrence
    just counted. *)
Fixpoint count_from (sub : string) (skip : nat) (s : string) : nat :=
  match s with
  | EmptyString => O
  | String _ s' =>
      match skip with
      | S k => count_from sub k s'
      | O =>
          if startswith sub s
          then S (count_from sub (String.length sub - 1) s')
          else count_from sub 0 s'
      end
  end.

Definition count (sub s : string) : nat := count_from sub 0 s.

(** [s.split(sep)] *)
Fixpoint split_from (sep : string) (skip : nat) (s : string) : list string :=
  match s with
  | EmptyString => [EmptyString]
  | String c s' =>
      match skip with
      | S k => split_from sep k s'
      | O =>
          if startswith sep s
          then EmptyString :: split_from sep (String.length sep - 1) s'
          else match split_from sep 0 s' with
               | chunk :: rest => String c chunk :: rest
               | [] => [String c EmptyString]
               end
      end
  end.

Definition split (sep s : string) : list string := split_from sep 0 s.

(** [s.partition(sep)]: around the first occurrence of [sep]. *)
Fixpoint partition (sep s : string) : string * string * string :=
  match s with
  | EmptyString => (EmptyString, EmptyString, EmptyString)
  | String c s' =>
      if startswith sep s
      then (EmptyString, sep, drop (String.length sep) s)
      else let '(b, m, a) := partition sep s' in (String c b, m, a)
  end.

(** [s.replace(old, new)] *)
Fixpoint replace_from (old new : string) (skip : nat) (s : string) : string :=
  match s with
  | EmptyString => EmptyString
  | String c s' =>
      match skip with
      | S k => replace_from old new k s'
      | O =>
          if startswith old s
          then new +:+ replace_from old new (String.length old - 1) s'
          else String c (replace_from old new 0 s')
      end
  end.

Definition replace (old new s : string) : string := replace_from old new 0 s.

(** [sep.join(parts)] *)
Fixpoint join (sep : string) (parts : list string) : string :=
  match parts with
  | [] => EmptyString
  | [p] => p
  | p :: rest => p +:+ sep +:+ join sep rest
  end.

(** [c.isspace()] for a code point below 256; also the class [\s] of
    [re] on [str] patterns. *)
Definition isspace (c : ascii) : bool :=
  let n := nat_of_ascii c in
  ((9 <=? n) && (n <=? 13) || (28 <=? n) && (n <=? 32)
   || (n =? 133) || (n =? 160))%nat.

Fixpoint lstrip (s : string) : string :=
  match s with
  | EmptyString => EmptyString
  | String c s' => if isspace c then lstrip s' else s
  end.

Fixpoint rstrip (s : string) : string :=
  match s with
  | EmptyString => EmptyString
  | String c s' =>
      match rstrip s' with
      | EmptyString => if isspace c then EmptyString else String c EmptyString
      | r => String c r
      end
  end.

(** [s.strip()] *)
Definition strip (s : string) : string := rstrip (lstrip s).

(** The truth value of a [str]. *)
Definition truthy (s : string) : bool :=
  match s with
  | EmptyString => false
  | String _ _ => true
  end.

Definition digit_val (c : ascii) : option Z :=
  let n := nat_of_ascii c in
  if ((48 <=? n) && (n <=? 57))%nat then Some (Z.of_nat (n - 48)) else None.

(** Decimal digits with single underscores between them. *)
Fixpoint int_digits (acc : Z) (after_digit : bool) (s : string) : option Z :=
  match s with
  | EmptyString => if after_digit then Some acc else None
  | String c s' =>
      match digit_val c with
      | Some d => int_digits (10 * acc + d) true s'
      | None =>
          if Ascii.eqb c "_"%char && after_digit
          then int_digits acc false s'
          else None
      end
  end.

(** The white space that [int] skips around a literal: what
    [str.isspace] accepts, but for the separators 0x1C to 0x1F, which
    [int] rejects. *)
Definition int_space (c : ascii) : bool :=
  let n := nat_of_ascii c in
  ((9 <=? n) && (n <=? 13) || (n =? 32) || (n =? 133) || (n =? 160))%nat.

Fixpoint int_lstrip (s : string) : string :=
  match s with
  | EmptyString => EmptyString
  | String c s' => if int_space c then int_lstrip s' else s
  end.

Fixpoint int_rstrip (s : string) : string :=
  match s with
  | EmptyString => EmptyString
  | String c s' =>
      match int_rstrip s' with
      | EmptyString => if int_space c then EmptyString else String c EmptyString
      | r => String c r
      end
  end.

(** The number of digits of a literal, leading zeros included, signs
    and underscores left out, and the interpreter's default limit on
    it ([sys.int_info.default_max_str_digits]). *)
Fixpoint count_digits (s : string) : Z :=
  match s with
  | EmptyString => 0
  | String c s' =>
      (match digit_val c with Some _ => 1 | None => 0 end) + count_digits s'
  end.

Definition int_max_str_digits : Z := 4300.

(** [int(s)] in base ten, [None] standing for [ValueError]: surrounding
    white space, an optional sign, then digits, no more of them than the
    limit allows.  The limit is the default one: the program does not
    set it. *)
Definition int (s : string) : option Z :=
  let literal := int_rstrip (int_lstrip s) in
  let digits :=
    match literal with
    | String "-"%char ds => ds
    | String "+"%char ds => ds
    | ds => ds
    end in
  if int_max_str_digits <? count_digits digits then None
  else
    match literal with
    | String "-"%char _ => option_map Z.opp (int_digits 0 false digits)
    | _ => int_digits 0 false digits
    end.

(** [s.lower()] on code points below 256. *)
Definition lower_char (c : ascii) : ascii :=
  let n := nat_of_ascii c in
  if ((65 <=? n) && (n <=? 90)
      || (192 <=? n) && (n <=? 222) && negb (n =? 215))%nat
  then ascii_of_nat (n + 32) else c.

Fixpoint lower (s : string) : string :=
  match s with
  | EmptyString => EmptyString
  | String c s' => String (lower_char c) (lower s')
  end.

End PyStr.

(** ** Regular expressions

    The fragment of [re] used by the parsers, with the backtracking
    semantics of the library: a star is greedy and gives characters back
    one iteration at a time; [Group] is the capture group 1. *)

Module Re.

Inductive regex : Type :=
  | Chr (c : ascii)
  | Lit (s : string)
  | Cls (p : ascii -> bool)
  | Cat (r1 r2 : regex)
  | Star (r : regex)
  | Group (r : regex).

Section Matcher.
Context {R : Type}.

Fixpoint rmatch (r : regex) (s : string) (cap : option string)
    (k : string -> option string -> option R) {struct r} : option R :=
  match r with
  | Chr c =>
      match s with
      | String x s' => if Ascii.eqb x c then k s' cap else None
      | EmptyString => None
      end
  | Lit l =>
      if PyStr.startswith l s then k (PyStr.drop (String.length l) s) cap else None
  | Cls p =>
      match s with
      | String x s' => if p x then k s' cap else None
      | EmptyString => None
      end
  | Cat r1 r2 => rmatch r1 s cap (fun s' cap' => rmatch r2 s' cap' k)
  | Star r1 =>
      (fix star (fuel : nat) (s : string) (cap : option string) : option R :=
         match fuel with
         | O => k s cap
         | S fuel' =>
             match rmatch r1 s cap
                     (fun s' cap' =>
                        if (String.length s' <? String.length s)%nat
                        then star fuel' s' cap' else None) with
             | Some x => Some x
             | None => k s cap
             end
         end) (String.length s) s cap
  | Group r1 =>
      rmatch r1 s cap
        (fun s' _ =>
           k s' (Some (PyStr.take (String.length s - String.length s') s)))
  end.
End Matcher.

(** A match anchored at the start of [s]: the rest of the input and
    group 1. *)
Definition match_here (r : regex) (s : string) : option (string * string) :=
  rmatch r s None (fun s' cap => Some (s', default EmptyString cap)).

(** [re.search(r, s).group(1)], or [None]. *)
Fixpoint search (r : regex) (s : string) : option string :=
  match match_here r s with
  | Some (_, g) => Some g
  | None =>
      match s with
      | EmptyString => None
      | String _ s' => search r s'
      end
  end.

(** [re.findall(r, s)] for a pattern with one group that never matches
    the empty string: the scan resumes where the last match ended. *)
Fixpoint findall_from (r : regex) (skip : nat) (s : string) : list string :=
  match s with
  | EmptyString => []
  | String _ s' =>
      match skip with
      | S k => findall_from r k s'
      | O =>
          match match_here r s with
          | Some (rest, g) =>
              g :: findall_from r (String.length s' - String.length rest) s'
          | None => findall_from r 0 s'
          end
      end
  end.

Definition findall (r : regex) (s : string) : list string := findall_from r 0 s.

Definition any_char (_ : ascii) : bool := true.
Definition not_in (cs : string) (c : ascii) : bool :=
  negb (PyStr.contains (String c EmptyString) cs).

End Re.

(** ** Response parser *)

Module Parser.
Import PyStr Re.

Definition fence : string := "```python".
Definition marker : string := "def transform(".

(** [noop_code]: the placeholder returned when no code can be found. *)
Definition noop_code : string :=
  "def transform(grid_lst: list[list[int]]) -> list[list[int]]:" +:+ nl
  +:+ "    raise NotImplementedError()".

(** [clean_code]: every tab becomes four spaces. *)
Definition clean_code (s : string) : string := replace tab "    " s.

(** First pattern of [parse_python_backticks]: the fence, a newline,
    group 1 made of any characters (greedy, newlines included under
    DOTALL), a newline and three backticks. *)
Definition re_closed_block : regex :=
  Cat (Lit (fence +:+ nl))
    (Cat (Group (Star (Cls any_char))) (Lit (nl +:+ "```"))).

(** Second pattern: as the first, closed by a newline and one backtick. *)
Definition re_open_block : regex :=
  Cat (Lit (fence +:+ nl))
    (Cat (Group (Star (Cls any_char))) (Lit (nl +:+ "`"))).

(** The loop over the chunks of [s] split at the fence, last chunk
    first: the first chunk holding the marker replaces [s], with the
    fence put back in front; without one, [s] is left as it is. *)
Fixpoint select_chunk (chunks : list string) (s : string) : string :=
  match chunks with
  | [] => s
  | chunk :: rest =>
      if contains marker chunk then fence +:+ chunk else select_chunk rest s
  end.

Definition parse_python_backticks (s : string) : outcome string :=
  if (count fence s =? 0)%nat then
    let out := (partition "</reasoning>" s).2 in
    if negb (truthy out) then Ret noop_code else Ret (clean_code out)
  else
    let s := if (1 <? count fence s)%nat
             then select_chunk (rev (split fence s)) s else s in
    if negb (count fence s =? 1)%nat then Raise (bare AssertionError) else
    match search re_closed_block s with
    | Some g => Ret (clean_code g)
    | None =>
        match search re_open_block s with
        | Some g => Ret (clean_code g)
        | None => Ret (clean_code (partition fence s).2)
        end
    end.

(** One row of the grid pattern: an opening bracket, characters other
    than brackets, a closing bracket. *)
Definition re_row : regex :=
  Cat (Chr "["%char) (Cat (Star (Cls (not_in "[]"))) (Chr "]"%char)).

(** The grid pattern: an opening bracket, white space, group 1 made of a
    row, further rows each introduced by a comma and white space, and
    white space; then a closing bracket. *)
Definition re_grid : regex :=
  Cat (Chr "["%char)
    (Cat (Star (Cls isspace))
       (Cat (Group
               (Cat re_row
                  (Cat (Star (Cat (Chr ","%char) (Cat (Star (Cls isspace)) re_row)))
                     (Star (Cls isspace)))))
          (Chr "]"%char))).

(** The row pattern applied inside a match: group 1 is what stands
    between an opening bracket and the next closing bracket. *)
Definition re_inner : regex :=
  Cat (Chr "["%char) (Cat (Group (Star (Cls (not_in "]")))) (Chr "]"%char)).

(** The comprehension over the comma-separated tokens of a row: a token
    whose stripped text is empty is skipped, any other is converted by
    [int]. *)
Fixpoint row_nums (tokens : list string) : outcome (list Z) :=
  match tokens with
  | [] => Ret []
  | n :: rest =>
      if truthy (strip n) then
        match int (strip n) with
        | None => Raise (bare ValueError)
        | Some v => obind (row_nums rest) (fun vs => Ret (v :: vs))
        end
      else row_nums rest
  end.

(** The inner loop: one list of integers per row of a matched grid. *)
Fixpoint rows_loop (rows : list string) (array_2d : list (list Z))
    : outcome (list (list Z)) :=
  match rows with
  | [] => Ret array_2d
  | row :: rest =>
      obind (row_nums (split "," row))
        (fun nums => rows_loop rest (array_2d ++ [nums]))
  end.

(** The outer loop over the matches of the grid pattern. *)
Fixpoint matches_loop (matches : list string) (arrays_list : list (list (list Z)))
    : outcome (list (list (list Z))) :=
  match matches with
  | [] => Ret arrays_list
  | m :: rest =>
      obind (rows_loop (findall re_inner m) [])
        (fun array_2d => matches_loop rest (arrays_list ++ [array_2d]))
  end.

Definition parse_2d_arrays_from_string (s : string)
    : outcome (list (list (list Z))) :=
  matches_loop (findall re_grid s) [].

End Parser.

(** ** [remove_thinking]

    [re.sub] with the pattern made of the opening tag, a lazy run of
    any characters (newlines included under DOTALL) and the closing tag:
    scanning from the left, an opening tag followed somewhere by a
    closing tag is removed together with everything up to the first such
    closing tag, and the scan resumes behind it; every other character
    is copied. *)

(** [s.find(sub)], with [None] for -1. *)
Fixpoint str_find (sub s : string) : option nat :=
  match s with
  | EmptyString => if PyStr.startswith sub s then Some O else None
  | String _ s' =>
      if PyStr.startswith sub s then Some O
      else match str_find sub s' with
           | Some i => Some (S i)
           | None => None
           end
  end.

Definition think_open : string := "<think>".
Definition think_close : string := "</think>".

(** [skip] is the number of characters still covered by the block just
    removed. *)
Fixpoint remove_thinking_from (skip : nat) (text : string) : string :=
  match text with
  | EmptyString => EmptyString
  | String c rest =>
      match skip with
      | S k => remove_thinking_from k rest
      | O =>
          if PyStr.startswith think_open text then
            match str_find think_close
                    (PyStr.drop (String.length think_open) text) with
            | Some i =>
                remove_thinking_from
                  (String.length think_open + i + String.length think_close - 1)
                  rest
            | None => String c (remove_thinking_from 0 rest)
            end
          else String c (remove_thinking_from 0 rest)
      end
  end.

Definition remove_thinking (text : string) : string :=
  remove_thinking_from 0 text.

(** ** Conversations in the store

    The caller's conversation is a list of references to message
    dictionaries, whose contents refer to content-part dictionaries.
    The translation steps write to these dictionaries in place, so they
    live in a store and are named by locations; two positions of a
    conversation may name the same dictionary.  Lists are only ever read
    or rebuilt by the code, never updated in place, and are values. *)

Definition loc : Type := nat.

(** A value under a key of a content part: a string, or a nested
    dictionary of strings that the code builds or reads as a whole. *)
Inductive pyval : Type :=
  | VStr (s : string)
  | VDict (kv : list (string * string)).

Abbreviation part := (gmap string pyval).

Inductive content : Type :=
  | CStr (s : string)
  | CList (parts : list loc).

(** A message dictionary: its two keys. *)
Record msg : Type := Msg { role : string; msg_content : content }.

Record ModelUsage : Type := Usage {
  cache_creation_input_tokens : Z;
  cache_read_input_tokens : Z;
  input_tokens : Z;
  output_tokens : Z
}.

(** What a run is seen to do outside the process: a request to the
    provider (by which task, which attempt of that task, with which
    output budget, streamed or not), the creation of a Gemini cache, a
    wait. *)
Inductive event : Type :=
  | EvCall (task attempt : nat) (max_tokens : option Z) (stream : bool)
  | EvCacheCreate
  | EvSleep (secs : Z).

Record world : Type := World {
  msgs : gmap loc msg;
  parts : gmap loc part;
  trace : list event
}.

(** ** State and exceptions *)

Definition M (A : Type) : Type := world -> outcome A * world.

Definition ret {A} (a : A) : M A := fun w => (Ret a, w).
Definition raise {A} (e : exn) : M A := fun w => (Raise e, w).
Definition bind {A B} (m : M A) (k : A -> M B) : M B :=
  fun w =>
    match m w with
    | (Ret a, w') => k a w'
    | (Raise e, w') => (Raise e, w')
    end.
Definition catch {A} (m : M A) (h : exn -> M A) : M A :=
  fun w =>
    match m w with
    | (Ret a, w') => (Ret a, w')
    | (Raise e, w') => h e w'
    end.
Definition lift {A} (o : outcome A) : M A := fun w => (o, w).

Notation "'let*' x ':=' m 'in' k" := (bind m (fun x => k))
  (at level 10, x pattern, m at level 100, k at level 200).
Notation "m ';;' k" := (bind m (fun _ => k))
  (at level 100, k at level 200, right associativity).

Definition emit (e : event) : M unit :=
  fun w => (Ret tt, World (msgs w) (parts w) (trace w ++ [e])).

Definition get_msg (l : loc) : M msg :=
  fun w => match msgs w !! l with
           | Some m => (Ret m, w)
           | None => (Raise (bare DanglingReference), w)
           end.

Definition get_part (l : loc) : M part :=
  fun w => match parts w !! l with
           | Some p => (Ret p, w)
           | None => (Raise (bare DanglingReference), w)
           end.

Definition set_msg (l : loc) (m : msg) : M unit :=
  fun w => (Ret tt, World (<[l := m]> (msgs w)) (parts w) (trace w)).

Definition set_part (l : loc) (p : part) : M unit :=
  fun w => (Ret tt, World (msgs w) (<[l := p]> (parts w)) (trace w)).

(** A new dictionary gets a location that names nothing yet. *)
Definition alloc_msg (m : msg) : M loc :=
  fun w => let l := fresh (dom (msgs w)) in
           (Ret l, World (<[l := m]> (msgs w)) (parts w) (trace w)).

Definition alloc_part (p : part) : M loc :=
  fun w => let l := fresh (dom (parts w)) in
           (Ret l, World (msgs w) (<[l := p]> (parts w)) (trace w)).

(** [d[k]] on a content part. *)
Definition part_get (k : string) (p : part) : outcome pyval :=
  match p !! k with
  | Some v => Ret v
  | None => Raise (bare KeyError)
  end.

(** [v == s] for a string [s]. *)
Definition val_is (s : string) (v : pyval) : bool :=
  match v with
  | VStr t => String.eqb t s
  | VDict _ => false
  end.

Fixpoint dict_get (k : string) (kv : list (string * string)) : option string :=
  match kv with
  | [] => None
  | (k', v) :: rest => if String.eqb k' k then Some v else dict_get k rest
  end.

(** ** [text_only_messages] *)

(** The inner loop: the [text] of every part of type [text], in order. *)
Fixpoint text_parts (ps : list loc) (content_strs : list pyval) : M (list pyval) :=
  match ps with
  | [] => ret content_strs
  | l :: rest =>
      let* p := get_part l in
      let* ty := lift (part_get "type" p) in
      if val_is "text" ty then
        let* t := lift (part_get "text" p) in
        text_parts rest (content_strs ++ [t])
      else text_parts rest content_strs
  end.

(** The strings of a list handed to [join]; a value that is not a string
    makes [join] raise [TypeError]. *)
Fixpoint strs_of (vs : list pyval) : outcome (list string) :=
  match vs with
  | [] => Ret []
  | VStr s :: rest => obind (strs_of rest) (fun ss => Ret (s :: ss))
  | VDict _ :: _ => Raise (bare TypeError)
  end.

Fixpoint text_only_loop (messages : list loc) (new_messages : list loc)
    : M (list loc) :=
  match messages with
  | [] => ret new_messages
  | l :: rest =>
      let* message := get_msg l in
      let* content_strs :=
        match msg_content message with
        | CStr s => ret [VStr s]
        | CList ps => text_parts ps []
        end in
      match content_strs with
      | [] => text_only_loop rest new_messages
      | _ :: _ =>
          let* ss := lift (strs_of content_strs) in
          let* l' := alloc_msg (Msg (role message) (CStr (PyStr.join PyStr.nl ss))) in
          text_only_loop rest (new_messages ++ [l'])
      end
  end.

Definition text_only_messages (messages : list loc) : M (list loc) :=
  text_only_loop messages [].

(** ** The translation of the Anthropic branch *)

(** [content["image_url"]["url"]] *)
Definition image_url_of (p : part) : outcome string :=
  obind (part_get "image_url" p)
    (fun iu =>
       match iu with
       | VStr _ => Raise (bare TypeError)
       | VDict kv =>
           match dict_get "url" kv with
           | Some u => Ret u
           | None => Raise (bare KeyError)
           end
       end).

Definition strip_data_prefix (url : string) : string :=
  PyStr.replace "data:image/png;base64," "" url.

(** The reshaping of a part of type [image_url], one assignment of the
    source after the other. *)
Definition reshape_image (l : loc) : M unit :=
  let* p := get_part l in
  let* ty := lift (part_get "type" p) in
  if val_is "image_url" ty then
    set_part l (<["type" := VStr "image"]> p) ;;
    let* p := get_part l in
    let* url := lift (image_url_of p) in
    set_part l
      (<["source" := VDict [("data", strip_data_prefix url);
                            ("media_type", "image/png");
                            ("type", "base64")]]> p) ;;
    let* p := get_part l in
    set_part l (delete "image_url" p)
  else ret tt.

(** The counting of cache hints: from the third one on, the hint is
    deleted. *)
Definition cap_cache_control (l : loc) (cache_control_count : Z) : M Z :=
  let* p := get_part l in
  match p !! "cache_control" with
  | Some _ =>
      let cache_control_count := cache_control_count + 1 in
      (if 3 <=? cache_control_count
       then set_part l (delete "cache_control" p) else ret tt) ;;
      ret cache_control_count
  | None => ret cache_control_count
  end.

Fixpoint translate_parts (ps : list loc) (cache_control_count : Z) : M Z :=
  match ps with
  | [] => ret cache_control_count
  | l :: rest =>
      reshape_image l ;;
      let* c := cap_cache_control l cache_control_count in
      translate_parts rest c
  end.

Fixpoint translate_messages (messages : list loc) (cache_control_count : Z)
    : M Z :=
  match messages with
  | [] => ret cache_control_count
  | l :: rest =>
      let* message := get_msg l in
      let* c :=
        match msg_content message with
        | CList ps => translate_parts ps cache_control_count
        | CStr _ => ret cache_control_count
        end in
      translate_messages rest c
  end.

Definition ephemeral : pyval := VDict [("type", "ephemeral")].

(** The last message: a string content becomes a one-part list, then the
    last part receives a cache hint. *)
Definition mark_last (messages : list loc) : M unit :=
  match last messages with
  | None => raise (bare IndexError)
  | Some l =>
      let* m := get_msg l in
      let* ps :=
        match msg_content m with
        | CStr s =>
            let* pl := alloc_part (<["type" := VStr "text"]> (<["text" := VStr s]> ∅)) in
            set_msg l (Msg (role m) (CList [pl])) ;;
            ret [pl]
        | CList ps => ret ps
        end in
      match last ps with
      | None => raise (bare IndexError)
      | Some pl =>
          let* p := get_part pl in
          set_part pl (<["cache_control" := ephemeral]> p)
      end
  end.

(** [messages[0]["role"] == "system"] and the split that follows: the
    system content and the remaining messages. *)
Definition split_system (messages : list loc) : M (content * list loc) :=
  match messages with
  | [] => raise (bare IndexError)
  | l :: rest =>
      let* m := get_msg l in
      if String.eqb (role m) "system"
      then ret (msg_content m, rest)
      else ret (CList [], messages)
  end.

(** ** Models and the outside world *)

(** The members of the enumeration [Model] that the client names.  The
    enumeration is declared in [src/models.py]. *)
Inductive Model : Type :=
  | claude_3_5_sonnet | claude_3_5_haiku
  | gpt_4o | gpt_4o_mini | gpt_5 | o1_mini | o1_preview | o3_mini
  | deep_seek_r1 | baseten_deepseek_r1
  | grok_3 | grok_4
  | gemini_1_5_pro
  | openrouter_claude_3_5_sonnet | openrouter_model | openrouter_o1
  | openrouter_o1_mini
  | nvidia_llama_3_1_nemotron_70b_instruct | groq_llama_3_2_90b_vision
  | azure_gpt_4o | azure_gpt_4o_mini.

#[global] Instance Model_eq_dec : EqDecision Model.
Proof. solve_decision. Defined.

(** [model in [m1, m2, ...]] *)
Definition model_in (m : Model) (ms : list Model) : bool := bool_decide (m ∈ ms).

(** [(final_content, usage)]; a streamed exchange may end without a
    usage record. *)
Definition reply : Type := string * option ModelUsage.

(** What the body of a [try] around a provider exchange does: it runs to
    its end with a reply, or raises. *)
Inductive attempt_result : Type :=
  | Success (r : reply)
  | Failure (e : exn).

(** Everything the client reads from outside: the environment
    variables, what each attempt of each task meets at the provider,
    whether the Gemini cache can be created and an image decoded, and
    two texts produced by the interpreter and by [src/models.py]: the
    text of the [ValueError] of [int] and the rendering of a model in an
    f-string.  Two more things are decided outside.  [response_text]
    is what the reading of the text of a Gemini response raises, if
    anything: the response of an answered attempt may hold no text.
    [race] is the timing of concurrent tasks: of the exceptions of the
    awaited tasks that fail, listed in the order of the tasks, the index
    of the one that is raised first. *)
Record external : Type := External {
  environ : gmap string string;
  attempt : nat -> nat -> attempt_result;
  cache_create : option exn;
  decode_png : string -> option exn;
  int_error : string -> string;
  model_text : Model -> string;
  response_text : nat -> nat -> option exn;
  race : list exn -> nat
}.

(** [os.environ[k]] *)
Definition env_key (ext : external) (k : string) : M string :=
  match environ ext !! k with
  | Some v => ret v
  | None => raise (bare KeyError)
  end.

(** ** The adapters: one retry loop per provider

    Each loop is the [while True] of the source.  The recursion is
    bounded by [fuel]; the adapters start their loop with more fuel than
    it can use. *)

Section Adapters.
Variable ext : external.
Variable task : nat.

(** [asyncio.sleep(secs)] *)
Definition sleep (secs : Z) : M unit := emit (EvSleep secs).

(** The end of every [except] clause: count the failure, give up at
    [max_retries], wait otherwise. *)
Definition exhausted (max_retries retry_count : Z) : bool :=
  max_retries <=? retry_count.

Fixpoint anthropic_loop (retry_secs max_retries : Z) (stream : bool)
    (fuel : nat) (retry_count : Z) (k : nat) : M (option reply) :=
  match fuel with
  | O => raise (bare FuelExhausted)
  | S fuel' =>
      emit (EvCall task k (Some 8192) stream) ;;
      match attempt ext task k with
      | Success r => ret (Some r)
      | Failure (Exn RateLimitError _) =>
          let retry_count := retry_count + 1 in
          if exhausted max_retries retry_count then ret None
          else sleep retry_secs ;;
               anthropic_loop retry_secs max_retries stream fuel' retry_count (S k)
      | Failure e =>
          if PyStr.contains "invalid x-api-key" (exn_str e) then ret None
          else
            let retry_count := retry_count + 1 in
            if exhausted max_retries retry_count then ret None
            else sleep retry_secs ;;
                 anthropic_loop retry_secs max_retries stream fuel' retry_count (S k)
      end
  end.

Definition get_next_message_anthropic_with (retry_secs max_retries : Z)
    (stream : bool) : M (option reply) :=
  anthropic_loop retry_secs max_retries stream (S (Z.to_nat max_retries)) 0 0.

Definition get_next_message_anthropic (stream : bool) : M (option reply) :=
  get_next_message_anthropic_with 15 200 stream.

(** The handling of a context-length error: the prompt size read from
    the text of the error, the budget left for the completion.  [None]
    is the early [return None]; a text that cannot be read leaves the
    budget as it was. *)
Definition deepseek_budget (error_msg : string) (max_tokens : Z) : option Z :=
  if PyStr.contains "tokens (" error_msg then
    match PyStr.split "(" error_msg !! 1%nat with
    | None => Some max_tokens
    | Some after =>
        match PyStr.split " in the messages" after !! 0%nat with
        | None => Some max_tokens
        | Some digits =>
            match PyStr.int digits with
            | None => Some max_tokens
            | Some prompt_tokens =>
                let max_completion_tokens := 65536 - prompt_tokens in
                if max_completion_tokens <=? 0 then None
                else Some (Z.min 8192 max_completion_tokens)
            end
        end
    end
  else Some max_tokens.

Fixpoint deepseek_loop (retry_secs max_retries : Z) (stream : bool)
    (fuel : nat) (retry_count max_tokens : Z) (k : nat) : M (option reply) :=
  match fuel with
  | O => raise (bare FuelExhausted)
  | S fuel' =>
      emit (EvCall task k (Some max_tokens) stream) ;;
      match attempt ext task k with
      | Success r => ret (Some r)
      | Failure e =>
          match deepseek_budget (exn_str e) max_tokens with
          | None => ret None
          | Some max_tokens =>
              let retry_count := retry_count + 1 in
              if exhausted max_retries retry_count then ret None
              else sleep retry_secs ;;
                   deepseek_loop retry_secs max_retries stream fuel'
                     retry_count max_tokens (S k)
          end
      end
  end.

Definition get_next_message_deepseek_with (retry_secs max_retries : Z)
    (use_baseten : bool) : M (option reply) :=
  (if use_baseten then env_key ext "BASETEN_R1_MODEL_ID" else ret "") ;;
  deepseek_loop retry_secs max_retries use_baseten
    (S (Z.to_nat max_retries)) 0 (if use_baseten then 30000 else 8192) 0.

Definition get_next_message_deepseek (use_baseten : bool) : M (option reply) :=
  get_next_message_deepseek_with 15 50 use_baseten.

(** The loop shared, word for word, by the OpenAI and xAI adapters:
    every exception is counted and retried.  [body] is what precedes
    the exchange inside the [try]. *)
Fixpoint plain_loop (body : M unit) (budget : Z) (retry_secs max_retries : Z)
    (stream : bool) (fuel : nat) (retry_count : Z) (k : nat) : M (option reply) :=
  match fuel with
  | O => raise (bare FuelExhausted)
  | S fuel' =>
      let* r :=
        catch (body ;; emit (EvCall task k (Some budget) stream) ;; ret (attempt ext task k))
              (fun e => ret (Failure e)) in
      match r with
      | Success r => ret (Some r)
      | Failure _ =>
          let retry_count := retry_count + 1 in
          if exhausted max_retries retry_count then ret None
          else sleep retry_secs ;;
               plain_loop body budget retry_secs max_retries stream fuel'
                 retry_count (S k)
      end
  end.

Definition get_next_message_openai_with (retry_secs max_retries : Z)
    (stream : bool) : M (option reply) :=
  plain_loop (ret tt) 16384 retry_secs max_retries stream
    (S (Z.to_nat max_retries)) 0 0.

Definition get_next_message_openai (stream : bool) : M (option reply) :=
  get_next_message_openai_with 15 3 stream.

(** The conversion of the conversation to the xAI chat, which happens
    inside the [try]: it reads the store and raises on a role or a
    part type that it does not know. *)
Fixpoint xai_parts (ps : list loc) : M unit :=
  match ps with
  | [] => ret tt
  | l :: rest =>
      let* p := get_part l in
      let* ty := lift (part_get "type" p) in
      (if val_is "text" ty then
         let* _ := lift (part_get "text" p) in ret tt
       else if val_is "image_url" ty then
         let* _ := lift (image_url_of p) in ret tt
       else raise (bare ValueError)) ;;
      xai_parts rest
  end.

Fixpoint xai_convert (messages : list loc) : M unit :=
  match messages with
  | [] => ret tt
  | l :: rest =>
      let* m := get_msg l in
      (if String.eqb (role m) "system" || String.eqb (role m) "user"
          || String.eqb (role m) "assistant"
       then ret tt else raise (bare ValueError)) ;;
      (match msg_content m with
       | CList ps => xai_parts ps
       | CStr EmptyString => ret tt
       | CStr (String _ _) => raise (bare TypeError)
       end) ;;
      xai_convert rest
  end.

Definition get_next_message_xai_with (messages : list loc)
    (retry_secs max_retries : Z) (stream : bool) : M (option reply) :=
  plain_loop (xai_convert messages) 120000 retry_secs max_retries stream
    (S (Z.to_nat max_retries)) 0 0.

Definition get_next_message_xai (messages : list loc) (stream : bool)
    : M (option reply) :=
  get_next_message_xai_with messages 15 0 stream.

(** [response.text]: the reading of the text of the response of
    attempt [k], which raises when the response holds none. *)
Definition read_text {A} (k : nat) (a : A) : M A :=
  match response_text ext task k with
  | Some e => raise e
  | None => ret a
  end.

(** The Gemini loop.  The text of the reply is read from the response
    after the loop and outside the [try]: what that reading raises is
    not caught. *)
Fixpoint gemini_loop (retry_secs max_retries : Z)
    (fuel : nat) (retry_count : Z) (k : nat) : M (option reply) :=
  match fuel with
  | O => raise (bare FuelExhausted)
  | S fuel' =>
      emit (EvCall task k None false) ;;
      match attempt ext task k with
      | Success r => read_text k (Some r)
      | Failure e =>
          if PyStr.contains "invalid x-api-key" (exn_str e) then ret None
          else
            let retry_count := retry_count + 1 in
            if exhausted max_retries retry_count then ret None
            else sleep retry_secs ;;
                 gemini_loop retry_secs max_retries fuel' retry_count (S k)
      end
  end.

Definition get_next_message_gemini_with (retry_secs max_retries : Z)
    : M (option reply) :=
  gemini_loop retry_secs max_retries (S (Z.to_nat max_retries)) 0 0.

Definition get_next_message_gemini : M (option reply) :=
  get_next_message_gemini_with 15 200.

End Adapters.

(** ** The legacy single call [get_next_message] *)

(** The response of the test flag. *)
Definition canned : reply := ("[[1, 2, 3], [4, 5, 6]]", Some (Usage 0 0 0 0)).

(** [int(os.environ.get("NO_WIFI", 0)) == 1] *)
Definition no_wifi (ext : external) : M bool :=
  match environ ext !! "NO_WIFI" with
  | None => ret false
  | Some v =>
      match PyStr.int v with
      | Some z => ret (z =? 1)
      | None => raise (Exn ValueError (int_error ext v))
      end
  end.

(** [os.environ.get("STREAM_LLM", "0") == "1"] *)
Definition stream_llm (ext : external) : bool :=
  match environ ext !! "STREAM_LLM" with
  | Some v => String.eqb v "1"
  | None => false
  end.

(** [system_messages[0]["text"]] *)
Definition system_instruction (c : content) : M pyval :=
  match c with
  | CList [] => raise (bare IndexError)
  | CList (l :: _) => let* p := get_part l in lift (part_get "text" p)
  | CStr EmptyString => raise (bare IndexError)
  | CStr (String _ _) => raise (bare TypeError)
  end.

(** The building of the Gemini contents: texts are read, images are
    decoded; a part of another type is left out. *)
Fixpoint gemini_parts (ext : external) (ps : list loc) : M unit :=
  match ps with
  | [] => ret tt
  | l :: rest =>
      let* p := get_part l in
      let* ty := lift (part_get "type" p) in
      (if val_is "text" ty then
         let* _ := lift (part_get "text" p) in ret tt
       else if val_is "image_url" ty then
         let* url := lift (image_url_of p) in
         match decode_png ext (strip_data_prefix url) with
         | Some e => raise e
         | None => ret tt
         end
       else ret tt) ;;
      gemini_parts ext rest
  end.

Fixpoint gemini_contents (ext : external) (messages : list loc) : M unit :=
  match messages with
  | [] => ret tt
  | l :: rest =>
      let* m := get_msg l in
      (match msg_content m with
       | CStr _ => ret tt
       | CList ps => gemini_parts ext ps
       end) ;;
      gemini_contents ext rest
  end.

(** The image reshaping of the legacy Anthropic branch. *)
Fixpoint legacy_parts (ps : list loc) : M unit :=
  match ps with
  | [] => ret tt
  | l :: rest => reshape_image l ;; legacy_parts rest
  end.

Fixpoint legacy_translate (messages : list loc) : M unit :=
  match messages with
  | [] => ret tt
  | l :: rest =>
      let* m := get_msg l in
      (match msg_content m with
       | CList ps => legacy_parts ps
       | CStr _ => ret tt
       end) ;;
      legacy_translate rest
  end.

Section Legacy.
Variable ext : external.
Variable task : nat.

(** One exchange outside any [try]: its exception goes to the caller. *)
Definition exchange (k : nat) (max_tokens : Z) (stream : bool) : M reply :=
  emit (EvCall task k (Some max_tokens) stream) ;;
  match attempt ext task k with
  | Success r => ret r
  | Failure e => raise e
  end.

(** The loop of the legacy Anthropic branch: only a rate-limit error is
    caught; the twelfth one is raised again. *)
Fixpoint legacy_anthropic_loop (fuel : nat) (retry_count : Z) (k : nat)
    : M reply :=
  match fuel with
  | O => raise (bare FuelExhausted)
  | S fuel' =>
      emit (EvCall task k (Some 8192) false) ;;
      match attempt ext task k with
      | Success r => ret r
      | Failure (Exn RateLimitError t) =>
          let retry_count := retry_count + 1 in
          if exhausted 12 retry_count then raise (Exn RateLimitError t)
          else sleep 15 ;; legacy_anthropic_loop fuel' retry_count (S k)
      | Failure e => raise e
      end
  end.

Definition get_next_message (k : nat) (messages : list loc) (model : Model)
    : M reply :=
  let* nw := no_wifi ext in
  if nw then ret canned
  else if model_in model [claude_3_5_sonnet; claude_3_5_haiku] then
    env_key ext "ANTHROPIC_API_KEY" ;;
    let* sm := split_system messages in
    let messages := sm.2 in
    legacy_translate messages ;;
    legacy_anthropic_loop 13 0 k
  else if model_in model [gpt_4o; gpt_4o_mini] then
    env_key ext "OPENAI_API_KEY" ;;
    exchange k 10000 false
  else if bool_decide (model = nvidia_llama_3_1_nemotron_70b_instruct) then
    env_key ext "NVIDIA_API_KEY" ;;
    text_only_messages messages ;;
    exchange k 10000 false
  else if bool_decide (model = groq_llama_3_2_90b_vision) then
    env_key ext "GROQ_API_KEY" ;;
    text_only_messages messages ;;
    exchange k 8192 false
  else if bool_decide (model = openrouter_claude_3_5_sonnet) then
    env_key ext "OPENROUTER_API_KEY" ;;
    exchange k 10000 false
  else if bool_decide (model = openrouter_model) then
    exchange k 20000 (stream_llm ext)
  else if bool_decide (model = openrouter_o1_mini) then
    env_key ext "OPENROUTER_API_KEY" ;;
    exchange k 20000 false
  else if bool_decide (model = gemini_1_5_pro) then
    let* sm := split_system messages in
    let system_messages := sm.1 in
    let messages := sm.2 in
    system_instruction system_messages ;;
    gemini_contents ext messages ;;
    let* r := exchange k 10000 false in
    read_text ext task k r
  else raise (Exn ValueError ("Invalid model: " +:+ model_text ext model)).

(** [get_message_with_retry], the wrapper of the OpenRouter branch:
    [retries_left] counts down the [range(max_retries)], [retry] is the
    loop variable.  The attempt counter that the wrapper increments under
    a lock only numbers the printed lines and the transcript files; it
    is not part of the model. *)
Definition should_retry (e : exn) : bool :=
  let error_str := PyStr.lower (exn_str e) in
  PyStr.contains "429" (exn_str e) || PyStr.contains "rate" error_str
  || PyStr.contains "502" (exn_str e) || PyStr.contains "upstream" error_str
  || PyStr.contains "no choices" error_str.

Fixpoint retry_range (messages : list loc) (model : Model) (max_retries : Z)
    (retries_left : nat) (retry : Z) : M (option reply) :=
  match retries_left with
  | O => ret None
  | S remaining =>
      catch
        (let* r := get_next_message (Z.to_nat retry) messages model in
         ret (Some r))
        (fun e =>
           if should_retry e then
             if retry <? max_retries - 1 then
               sleep (2 ^ retry * 10) ;;
               retry_range messages model max_retries remaining (retry + 1)
             else raise e
           else raise e)
  end.

Definition get_message_with_retry (messages : list loc) (model : Model)
    : M (option reply) :=
  retry_range messages model 5 5 0.

End Legacy.

(** ** The fan-out orchestrator [get_next_messages] *)

(** [asyncio.gather]: the tasks share nothing but the trace, so that
    what each one returns or raises does not depend on how their waits
    interleave; the model runs them one after the other, in the order in
    which [gather] lists their results.  All of them run: a task that
    raises does not cancel the others. *)
Fixpoint run_all {A} (tasks : list (M A)) (w : world)
    : list (outcome A) * world :=
  match tasks with
  | [] => ([], w)
  | t :: rest =>
      let ow := t w in
      let osw := run_all rest ow.2 in
      (ow.1 :: osw.1, osw.2)
  end.

Fixpoint returned {A} (os : list (outcome A)) : list A :=
  match os with
  | [] => []
  | Ret a :: rest => a :: returned rest
  | Raise _ :: rest => returned rest
  end.

Fixpoint raised {A} (os : list (outcome A)) : list exn :=
  match os with
  | [] => []
  | Ret _ :: rest => raised rest
  | Raise e :: rest => e :: raised rest
  end.

(** The exception that reaches the caller of [gather] when some tasks
    raise: the one that is raised first in time.  Which one that is, the
    timing of the tasks decides; [race] names it by its index among the
    exceptions of the failing tasks [e :: es]. *)
Definition first_raised (race : list exn -> nat) (e : exn) (es : list exn) : exn :=
  nth (race (e :: es)) (e :: es) e.

Definition gather {A} (race : list exn -> nat) (tasks : list (M A))
    : M (list A) :=
  fun w =>
    let osw := run_all tasks w in
    match raised osw.1 with
    | [] => (Ret (returned osw.1), osw.2)
    | e :: es => (Raise (first_raised race e es), osw.2)
    end.

(** [[m for m in n_messages if m]]: a reply is a pair, hence true. *)
Definition drop_nones (n_messages : list (option reply)) : list reply :=
  omap id n_messages.

(** The tasks [first, first + 1, ..., first + count - 1]. *)
Definition tasks_from {A} (first count : nat) (f : nat -> M A) : list (M A) :=
  map f (seq first count).

Section Orchestrator.
Variable ext : external.

(** [if messages[0]["role"] == "system": messages[0]["role"] = "developer"] *)
Definition rename_system (messages : list loc) : M unit :=
  match messages with
  | [] => raise (bare IndexError)
  | l :: _ =>
      let* m := get_msg l in
      if String.eqb (role m) "system"
      then set_msg l (Msg "developer" (msg_content m))
      else ret tt
  end.

(** The translation steps of the Anthropic branch, from the split of
    the system message to the cache hint on the last part. *)
Definition anthropic_translate (messages : list loc) : M (content * list loc) :=
  let* sm := split_system messages in
  let messages := sm.2 in
  translate_messages messages 0 ;;
  mark_last messages ;;
  ret sm.

Definition anthropic_branch (messages : list loc) (model : Model)
    (stream_enabled : bool) (n : nat) : M (option (list reply)) :=
  let* messages :=
    if bool_decide (model = claude_3_5_haiku)
    then text_only_messages messages else ret messages in
  env_key ext "ANTHROPIC_API_KEY" ;;
  anthropic_translate messages ;;
  let* first := get_next_message_anthropic ext 0 stream_enabled in
  let* others :=
    gather (race ext) (tasks_from 1 (n - 1)
              (fun i => get_next_message_anthropic ext i false)) in
  ret (Some (drop_nones (first :: others))).

Definition openai_branch (messages : list loc) (model : Model)
    (stream_enabled : bool) (n : nat) : M (option (list reply)) :=
  env_key ext "OPENAI_API_KEY" ;;
  rename_system messages ;;
  let* messages :=
    if model_in model [o1_mini; o1_preview; o3_mini]
    then text_only_messages messages else ret messages in
  let* first := get_next_message_openai ext 0 stream_enabled in
  let* others :=
    gather (race ext) (tasks_from 1 (n - 1)
              (fun i => get_next_message_openai ext i false)) in
  ret (Some (drop_nones (first :: others))).

(** The DeepSeek branch gathers its replies and ends without a [return]:
    the call yields [None]. *)
Definition deepseek_branch (messages : list loc) (model : Model)
    (n : nat) : M (option (list reply)) :=
  let use_baseten := bool_decide (model = baseten_deepseek_r1) in
  env_key ext (if use_baseten then "BASETEN_API_KEY" else "DEEPSEEK_API_KEY") ;;
  let* messages := text_only_messages messages in
  (if bool_decide (model = deep_seek_r1) then
     let* first := get_next_message_deepseek ext 0 use_baseten in
     let* others :=
       gather (race ext) (tasks_from 1 (n - 1)
                 (fun i => get_next_message_deepseek ext i use_baseten)) in
     ret (first :: others)
   else
     gather (race ext) (tasks_from 0 n
               (fun i => get_next_message_deepseek ext i use_baseten))) ;;
  ret None.

Definition xai_branch (messages : list loc) (stream_enabled : bool) (n : nat)
    : M (option (list reply)) :=
  env_key ext "XAI_API_KEY" ;;
  let* n_messages :=
    if stream_enabled then
      let* m := get_next_message_xai ext 0 messages true in ret [m]
    else
      gather (race ext) (tasks_from 0 n
                (fun i => get_next_message_xai ext i messages false)) in
  ret (Some (drop_nones n_messages)).

Definition gemini_branch (messages : list loc) (n : nat)
    : M (option (list reply)) :=
  let* sm := split_system messages in
  let system_messages := sm.1 in
  let messages := sm.2 in
  system_instruction system_messages ;;
  gemini_contents ext messages ;;
  emit EvCacheCreate ;;
  (match cache_create ext with
   | Some e => raise e
   | None => ret tt
   end) ;;
  let* n_messages :=
    gather (race ext) (tasks_from 0 n (fun i => get_next_message_gemini ext i)) in
  ret (Some (drop_nones n_messages)).

Definition openrouter_branch (messages : list loc) (model : Model) (n : nat)
    : M (option (list reply)) :=
  env_key ext "OPENROUTER_API_KEY" ;;
  let* messages :=
    if model_in model [openrouter_model; openrouter_o1; openrouter_o1_mini]
    then text_only_messages messages else ret messages in
  let* n_messages :=
    gather (race ext) (tasks_from 0 n
              (fun i => get_message_with_retry ext i messages model)) in
  ret (Some (drop_nones n_messages)).

(** The dispatch on the model.  [n_times <= 0] returns before anything
    is read. *)
Definition get_next_messages (messages : list loc) (model : Model)
    (n_times : Z) : M (option (list reply)) :=
  if n_times <=? 0 then ret (Some [])
  else
    let stream_enabled := stream_llm ext && (n_times =? 1) in
    let n := Z.to_nat n_times in
    if model_in model [claude_3_5_sonnet; claude_3_5_haiku] then
      anthropic_branch messages model stream_enabled n
    else if model_in model [gpt_4o; gpt_4o_mini; gpt_5; o1_mini; o1_preview; o3_mini] then
      openai_branch messages model stream_enabled n
    else if model_in model [deep_seek_r1; baseten_deepseek_r1] then
      deepseek_branch messages model n
    else if model_in model [grok_3; grok_4] then
      xai_branch messages stream_enabled n
    else if model_in model [gemini_1_5_pro] then
      gemini_branch messages n
    else if model_in model [openrouter_claude_3_5_sonnet; openrouter_model;
                            openrouter_o1; openrouter_o1_mini] then
      openrouter_branch messages model n
    else raise (Exn ValueError ("Invalid model: " +:+ model_text ext model)).

End Orchestrator.

(** ** What the properties speak about *)

(** A comma-separated token that the row comprehension skips. *)
Definition blank (n : string) : bool := negb (PyStr.truthy (PyStr.strip n)).

(** A token that the row comprehension accepts: blank, or an integer
    literal. *)
Definition token_ok (n : string) : bool :=
  blank n || bool_decide (is_Some (PyStr.int (PyStr.strip n))).

Definition row_ok (row : string) : bool :=
  forallb token_ok (PyStr.split "," row).

Definition match_ok (m : string) : bool :=
  forallb row_ok (Re.findall Parser.re_inner m).

(** The integers of a row: those of its tokens that are not blank. *)
Definition row_values (row : string) : list Z :=
  omap (fun n => if blank n then None else PyStr.int (PyStr.strip n))
       (PyStr.split "," row).

(** The grid of a match of the grid pattern: one row per bracketed
    group, in the order of the text. *)
Definition grid_of (m : string) : list (list Z) :=
  map row_values (Re.findall Parser.re_inner m).

(** The world after further events. *)
Definition extend (w : world) (evs : list event) : world :=
  World (msgs w) (parts w) (trace w ++ evs).

(** What a task is seen to do when [n] attempts in a row fail, from
    attempt [k] on: [n] requests with a wait between two of them. *)
Fixpoint retry_trace (task : nat) (max_tokens : option Z) (stream : bool)
    (secs : Z) (k n : nat) : list event :=
  match n with
  | O => []
  | S n' =>
      match n' with
      | O => [EvCall task k max_tokens stream]
      | S _ =>
          EvCall task k max_tokens stream :: EvSleep secs
            :: retry_trace task max_tokens stream secs (S k) n'
      end
  end.

(** The number of attempts of a retry loop that meets nothing but
    failures. *)
Definition attempts_made (max_retries : Z) : nat := Z.to_nat (Z.max 1 max_retries).

Definition is_call (e : event) : bool :=
  match e with EvCall _ _ _ _ => true | _ => false end.
Definition is_sleep (e : event) : bool :=
  match e with EvSleep _ => true | _ => false end.
Definition count_calls (tr : list event) : nat := length (List.filter is_call tr).
Definition count_sleeps (tr : list event) : nat := length (List.filter is_sleep tr).

(** A provider that fails every attempt of a task with a rate-limit
    error. *)
Definition always_rate_limited (ext : external) (task : nat) : Prop :=
  forall k, exists t, attempt ext task k = Failure (Exn RateLimitError t).

(** How many more attempts a loop makes when all of them fail, from a
    given count of failures. *)
Definition attempts_left (max_retries retry_count : Z) : nat :=
  Z.to_nat (Z.max 1 (max_retries - retry_count)).

(** A step inside the [try] that reads the store and succeeds, whatever
    the trace. *)
Definition body_ok (body : M unit) (w : world) : Prop :=
  forall evs, body (extend w evs) = (Ret tt, extend w evs).

(** A computation that does not look at the trace nor add to it. *)
Definition oblivious {A} (m : M A) : Prop :=
  forall w evs, m (extend w evs) = ((m w).1, extend (m w).2 evs).

(** *** The store *)

(** Every dictionary of [w] is still there in [w'], with the same keys
    and values; [w'] may hold new dictionaries. *)
Definition store_kept (w w' : world) : Prop :=
  (forall l m, msgs w !! l = Some m -> msgs w' !! l = Some m) /\
  (forall l p, parts w !! l = Some p -> parts w' !! l = Some p).

(** A computation that writes to no dictionary that was there before. *)
Definition keeps {A} (m : M A) : Prop := forall w, store_kept w (m w).2.

(** A content part that carries a cache hint. *)
Definition hinted (w : world) (l : loc) : Prop :=
  exists p, parts w !! l = Some p /\ is_Some (p !! "cache_control").

Definition hinted_b (w : world) (l : loc) : bool :=
  match parts w !! l with
  | Some p => bool_decide (is_Some (p !! "cache_control"))
  | None => false
  end.

(** The content parts of a message, and of a conversation, position by
    position. *)
Definition content_parts (w : world) (l : loc) : list loc :=
  match msgs w !! l with
  | Some (Msg _ (CList ps)) => ps
  | _ => []
  end.

Definition conv_parts (w : world) (messages : list loc) : list loc :=
  concat (map (content_parts w) messages).

(** The distinct content parts of a conversation that carry a hint. *)
Definition hinted_parts (w : world) (messages : list loc) : gset loc :=
  list_to_set (List.filter (hinted_b w) (conv_parts w messages)).

(** The last part of the last message. *)
Definition final_part (w : world) (messages : list loc) : option loc :=
  match last messages with
  | Some l => last (content_parts w l)
  | None => None
  end.

(** *** The text of a conversation *)

Definition part_is_text (w : world) (l : loc) : bool :=
  match parts w !! l with
  | Some p =>
      match p !! "type" with
      | Some ty => val_is "text" ty
      | None => false
      end
  | None => false
  end.

Definition part_text (w : world) (l : loc) : string :=
  match parts w !! l with
  | Some p =>
      match p !! "text" with
      | Some (VStr t) => t
      | _ => EmptyString
      end
  | None => EmptyString
  end.

(** The texts of a content: the string itself, or the texts of the parts
    of type [text]. *)
Definition texts_of (w : world) (c : content) : list string :=
  match c with
  | CStr s => [s]
  | CList ps => map (part_text w) (List.filter (part_is_text w) ps)
  end.

(** A message that [text_only_messages] keeps: its content is a string,
    empty or not, or a list with a part of type [text]. *)
Definition has_text_part (w : world) (m : msg) : bool :=
  match msg_content m with
  | CStr _ => true
  | CList ps => existsb (part_is_text w) ps
  end.

(** The same, following the words of the specification: the string has to be
    non-empty. *)
Definition claimed_has_text_part (w : world) (m : msg) : bool :=
  match msg_content m with
  | CStr s => PyStr.truthy s
  | CList ps => existsb (part_is_text w) ps
  end.

(** The messages selected by [keep], in order, each with its role and
    with its texts joined by newlines. *)
Definition text_view (keep : world -> msg -> bool) (w : world)
    (messages : list loc) : list msg :=
  omap (fun l =>
          match msgs w !! l with
          | Some m =>
              if keep w m
              then Some (Msg (role m)
                           (CStr (PyStr.join PyStr.nl (texts_of w (msg_content m)))))
              else None
          | None => None
          end) messages.

(** A conversation that [text_only_messages] can read: its parts have a
    [type], and those of type [text] a string under [text]. *)
Definition part_ok (w : world) (l : loc) : bool :=
  match parts w !! l with
  | Some p =>
      match p !! "type" with
      | Some ty =>
          if val_is "text" ty
          then match p !! "text" with Some (VStr _) => true | _ => false end
          else true
      | None => false
      end
  | None => false
  end.

Definition message_ok (w : world) (l : loc) : bool :=
  match msgs w !! l with
  | Some m =>
      match msg_content m with
      | CStr _ => true
      | CList ps => forallb (part_ok w) ps
      end
  | None => false
  end.

Definition conversation_ok (w : world) (messages : list loc) : bool :=
  forallb (message_ok w) messages.

(** The dictionaries at a list of locations. *)
Definition read_msgs (w : world) (ls : list loc) : list (option msg) :=
  map (fun l => msgs w !! l) ls.

(** The worlds met while the loop of [text_only_messages] runs from
    [w0]: the parts of [w0], its messages and new ones, its trace. *)
Definition grown (w0 w : world) : Prop :=
  parts w = parts w0 /\ trace w = trace w0 /\
  (forall l m, msgs w0 !! l = Some m -> msgs w !! l = Some m).

(** A computation that leaves the world as it found it. *)
Definition reads {A} (m : M A) : Prop := forall w, (m w).2 = w.

(** The models for which [get_next_messages] writes to the caller's
    dictionaries. *)
Definition edits_in_place (model : Model) : bool :=
  model_in model [claude_3_5_sonnet; gpt_4o; gpt_4o_mini; gpt_5;
                  o1_mini; o1_preview; o3_mini].

(** A message made by [text_only_messages]: new to [w0], with a string
    as content. *)
Definition new_string_msg (w0 w : world) (l : loc) : Prop :=
  msgs w0 !! l = None /\ exists r s, msgs w !! l = Some (Msg r (CStr s)).


(** Every hinted part among [V] is listed in [K]. *)
Definition covered (w : world) (V K : list loc) : Prop :=
  forall x, x ∈ V -> hinted w x -> x ∈ K.

(** A computation that adds nothing to the trace. *)
Definition quiet {A} (m : M A) : Prop := forall w, trace (m w).2 = trace w.

(** The models of the OpenRouter branch. *)
Definition openrouter_models : list Model :=
  [openrouter_claude_3_5_sonnet; openrouter_model; openrouter_o1; openrouter_o1_mini].

(** A computation that always returns, whatever the world. *)
Definition returns {A} (m : M A) : Prop :=
  forall w, exists a w', m w = (Ret a, w').

(** The code taken from a text with one fence: group 1 of the first
    pattern, else of the second pattern, else what follows the fence. *)
Definition extract_block (s : string) : string :=
  match Re.search Parser.re_closed_block s with
  | Some g => g
  | None =>
      match Re.search Parser.re_open_block s with
      | Some g => g
      | None => (PyStr.partition Parser.fence s).2
      end
  end.

(** *** Further shapes of traces *)

(** What the retry wrapper of the OpenRouter branch is seen to do over
    [n] attempts from attempt [k] on: a request per attempt, and between
    two attempts a wait of ten seconds doubled at each retry. *)
Fixpoint backoff_trace (task : nat) (max_tokens : option Z) (stream : bool)
    (k n : nat) : list event :=
  match n with
  | O => []
  | S n' =>
      match n' with
      | O => [EvCall task k max_tokens stream]
      | S _ =>
          EvCall task k max_tokens stream :: EvSleep (2 ^ Z.of_nat k * 10)
            :: backoff_trace task max_tokens stream (S k) n'
      end
  end.

(** A request whose output budget is the initial one or lies between 1
    and 8192. *)
Definition budget_ok (initial : Z) (e : event) : Prop :=
  match e with
  | EvCall _ _ (Some mt) _ => mt = initial \/ 1 <= mt <= 8192
  | _ => True
  end.

(** The first [j] attempts of a task fail with a rate-limit error. *)
Definition rate_limited_before (ext : external) (task j : nat) : Prop :=
  forall i, (i < j)%nat -> exists t, attempt ext task i = Failure (Exn RateLimitError t).

(** The first [j] attempts of a task fail with an error that the retry
    wrapper retries. *)
Definition retryable_before (ext : external) (task j : nat) : Prop :=
  forall i, (i < j)%nat ->
    exists e, attempt ext task i = Failure e /\ should_retry e = true.

(** The models that only the legacy single call serves, and those that
    it does not serve. *)
Definition fan_out_unsupported : list Model :=
  [nvidia_llama_3_1_nemotron_70b_instruct; groq_llama_3_2_90b_vision;
   azure_gpt_4o; azure_gpt_4o_mini].

Definition legacy_unsupported : list Model :=
  [gpt_5; o1_mini; o1_preview; o3_mini; deep_seek_r1; baseten_deepseek_r1;
   grok_3; grok_4; openrouter_o1; azure_gpt_4o; azure_gpt_4o_mini].

(** A computation that raises [e] whatever the world, after waits
    only. *)
Definition raises_quietly {A} (e : exn) (m : M A) : Prop :=
  forall w, exists evs,
    m w = (Raise e, extend w evs) /\ count_calls evs = O.

(** The request of task [i] of the OpenAI branch: the first task is the
    one that may be streamed. *)
Definition openai_call (stream_enabled : bool) (i : nat) : event :=
  EvCall i 0 (Some 16384) (if (i =? 0)%nat then stream_enabled else false).

(** The message dictionary that the OpenAI branch leaves at a location:
    the head of the conversation loses the role [system] for
    [developer], nothing else changes. *)
Definition renamed (messages : list loc) (l : loc) (m : msg) : msg :=
  match messages with
  | head :: _ =>
      if bool_decide (l = head) && String.eqb (role m) "system"
      then Msg "developer" (msg_content m) else m
  | [] => m
  end.

Definition openai_models : list Model :=
  [gpt_4o; gpt_4o_mini; gpt_5; o1_mini; o1_preview; o3_mini].

(** A conversation all of whose dictionaries are in the store: its
    messages, and the parts that their contents list. *)
Definition message_allocated (w : world) (l : loc) : bool :=
  match msgs w !! l with
  | Some m =>
      match msg_content m with
      | CStr _ => true
      | CList ps => forallb (fun p => bool_decide (is_Some (parts w !! p))) ps
      end
  | None => false
  end.

Definition allocated (w : world) (messages : list loc) : bool :=
  forallb (message_allocated w) messages.

Definition is_dict (v : pyval) : bool :=
  match v with VDict _ => true | VStr _ => false end.


(** *** Grids as Python prints them *)

(** A colour of a grid: an integer from 0 to 9. *)
Definition colour (z : Z) : bool := (0 <=? z) && (z <=? 9).

(** [str(z)] for a colour: its digit. *)
Definition digit_text (z : Z) : string :=
  String (ascii_of_nat (48 + Z.to_nat z)) EmptyString.

(** What stands between the brackets of a printed row. *)
Definition row_inner (row : list Z) : string :=
  PyStr.join ", " (map digit_text row).

(** [str(row)] and [str(grid)] for lists of colours. *)
Definition row_text (row : list Z) : string := "[" +:+ row_inner row +:+ "]".

Definition grid_inner (grid : list (list Z)) : string :=
  PyStr.join ", " (map row_text grid).

Definition grid_text (grid : list (list Z)) : string :=
  "[" +:+ grid_inner grid +:+ "]".

(** The rows of a printed grid behind the first one, each with the comma
    and the space that precede it; likewise the digits of a row. *)
Fixpoint more_rows (rows : list (list Z)) : string :=
  match rows with
  | [] => EmptyString
  | row :: rest => ", " +:+ row_text row +:+ more_rows rest
  end.

Fixpoint more_digits (zs : list Z) : string :=
  match zs with
  | [] => EmptyString
  | z :: rest => ", " +:+ digit_text z +:+ more_digits rest
  end.

(** The parts of the grid pattern: a further row with the comma before
    it, and what the group of the pattern holds. *)
Definition re_more : Re.regex :=
  Re.Cat (Re.Chr ","%char) (Re.Cat (Re.Star (Re.Cls PyStr.isspace)) Parser.re_row).

Definition re_rows : Re.regex :=
  Re.Cat Parser.re_row (Re.Cat (Re.Star re_more) (Re.Star (Re.Cls PyStr.isspace))).

(** Every character of [s] is in the class [p]; [s] does not start with
    a character of the class. *)
Fixpoint all_chars (p : ascii -> bool) (s : string) : bool :=
  match s with
  | EmptyString => true
  | String c s' => p c && all_chars p s'
  end.

Definition stops (p : ascii -> bool) (s : string) : bool :=
  match s with
  | EmptyString => true
  | String c _ => negb (p c)
  end.

(** The loop of a star as [Re.rmatch] runs it, with its bound on the
    number of iterations made explicit. *)
Section StarRun.
Context {R : Type}.
Variable r : Re.regex.
Variable k : string -> option string -> option R.

Fixpoint star_run (fuel : nat) (s : string) (cap : option string) : option R :=
  match fuel with
  | O => k s cap
  | S fuel' =>
      match Re.rmatch r s cap
              (fun s' cap' =>
                 if (String.length s' <? String.length s)%nat
                 then star_run fuel' s' cap' else None) with
      | Some x => Some x
      | None => k s cap
      end
  end.

End StarRun.


(** The credential that the branch of a model reads before it looks at
    the conversation.  The branch of [claude_3_5_haiku] converts the
    conversation first, and the Gemini branch reads no credential. *)
Definition key_read_first (model : Model) : option string :=
  if model_in model [claude_3_5_sonnet] then Some "ANTHROPIC_API_KEY"
  else if model_in model [gpt_4o; gpt_4o_mini; gpt_5; o1_mini; o1_preview; o3_mini]
  then Some "OPENAI_API_KEY"
  else if model_in model [deep_seek_r1] then Some "DEEPSEEK_API_KEY"
  else if model_in model [baseten_deepseek_r1] then Some "BASETEN_API_KEY"
  else if model_in model [grok_3; grok_4] then Some "XAI_API_KEY"
  else if model_in model [openrouter_claude_3_5_sonnet; openrouter_model;
                          openrouter_o1; openrouter_o1_mini]
  then Some "OPENROUTER_API_KEY"
  else None.


(** A content part that is not, or no longer, of type [image_url]. *)
Definition not_image_url (w : world) (l : loc) : Prop :=
  forall p, parts w !! l = Some p -> p !! "type" <> Some (VStr "image_url").


(** ** Sample inputs *)

(** Two fenced regions, neither of which defines [transform]. *)
Definition two_blocks_no_marker : string :=
  "```python" +:+ PyStr.nl +:+ "x = 1" +:+ PyStr.nl +:+ "```" +:+ PyStr.nl
  +:+ "```python" +:+ PyStr.nl +:+ "y = 2" +:+ PyStr.nl +:+ "```".

Definition empty_world : world := World ∅ ∅ [].

Definition all_keys : gmap string string :=
  <["ANTHROPIC_API_KEY" := "k"]> (<["OPENAI_API_KEY" := "k"]>
  (<["DEEPSEEK_API_KEY" := "k"]> (<["XAI_API_KEY" := "k"]>
  (<["OPENROUTER_API_KEY" := "k"]> ∅)))).

(** A provider that answers every request. *)
Definition ext_ok : external :=
  External all_keys (fun _ _ => Success ("ok", None)) None (fun _ => None)
    (fun _ => "") (fun _ => "")
    (fun _ _ => None) (fun _ => O).

(** A provider that fails every request with a rate-limit error. *)
Definition ext_rate_limited : external :=
  External all_keys (fun _ _ => Failure (Exn RateLimitError "rate_limit_error"))
    None (fun _ => None) (fun _ => "") (fun _ => "")
    (fun _ _ => None) (fun _ => O).

(** A provider that rejects the credential on every request. *)
Definition ext_auth_fail : external :=
  External all_keys (fun _ _ => Failure (Exn OtherError "invalid x-api-key"))
    None (fun _ => None) (fun _ => "") (fun _ => "")
    (fun _ _ => None) (fun _ => O).


(** One user message whose content is the empty string. *)
Definition empty_text_world : world :=
  World (<[0%nat := Msg "user" (CStr "")]> ∅) ∅ [].

Definition text_part (s : string) : part :=
  <["type" := VStr "text"]> (<["text" := VStr s]> ∅).

Definition hinted_text_part (s : string) : part :=
  <["cache_control" := ephemeral]> (text_part s).

Definition image_part (url : string) : part :=
  <["type" := VStr "image_url"]> (<["image_url" := VDict [("url", url)]]> ∅).

(** A system message, a user message with a text, an image and a second
    text, an image-only message and an assistant message given as a
    string. *)
Definition mixed_world : world :=
  World
    (<[0%nat := Msg "system" (CList [0%nat])]>
     (<[1%nat := Msg "user" (CList [1%nat; 2%nat; 3%nat])]>
     (<[2%nat := Msg "user" (CList [2%nat])]>
     (<[3%nat := Msg "assistant" (CStr "fine")]> ∅))))
    (<[0%nat := text_part "be brief"]>
     (<[1%nat := text_part "look"]>
     (<[2%nat := image_part "data:image/png;base64,AAAA"]>
     (<[3%nat := text_part "at this"]> ∅))))
    [].

Definition mixed_conversation : list loc := [0; 1; 2; 3]%nat.


(** A conversation that opens with a system message. *)
Definition system_world : world :=
  World
    (<[0%nat := Msg "system" (CStr "be brief")]>
     (<[1%nat := Msg "user" (CStr "hi")]> ∅))
    ∅ [].

Definition system_conversation : list loc := [0; 1]%nat.

(** Two messages with five parts in all, each asking for a cache hint. *)
Definition five_hints_world : world :=
  World
    (<[0%nat := Msg "user" (CList [0; 1; 2]%nat)]>
     (<[1%nat := Msg "assistant" (CList [3; 4]%nat)]> ∅))
    (<[0%nat := hinted_text_part "a"]>
     (<[1%nat := hinted_text_part "b"]>
     (<[2%nat := hinted_text_part "c"]>
     (<[3%nat := hinted_text_part "d"]>
     (<[4%nat := hinted_text_part "e"]> ∅)))))
    [].

Definition five_hints_conversation : list loc := [0; 1]%nat.


(** The provider that answers, with the test flag set. *)
Definition ext_no_wifi : external :=
  External (<["NO_WIFI" := "1"]> all_keys) (fun _ _ => Success ("ok", None))
    None (fun _ => None) (fun _ => "") (fun _ => "")
    (fun _ _ => None) (fun _ => O).


(** One user message, given as a string. *)
Definition hello_world : world :=
  World (<[0%nat := Msg "user" (CStr "hello")]> ∅) ∅ [].

Definition hello_conversation : list loc := [0%nat].


(** A provider that is rate limited twice, then answers. *)
Definition ext_flaky : external :=
  External all_keys
    (fun _ k => if (k <? 2)%nat then Failure (Exn RateLimitError "rate_limit_error")
                else Success ("ok", None))
    None (fun _ => None) (fun _ => "") (fun _ => "")
    (fun _ _ => None) (fun _ => O).

(** A provider that answers every request with an HTTP 429. *)
Definition ext_429 : external :=
  External all_keys (fun _ _ => Failure (Exn OtherError "Error code: 429"))
    None (fun _ => None) (fun _ => "") (fun _ => "")
    (fun _ _ => None) (fun _ => O).

(** A provider that rejects every request as malformed. *)
Definition ext_bad_request : external :=
  External all_keys (fun _ _ => Failure (Exn OtherError "Error code: 400"))
    None (fun _ => None) (fun _ => "") (fun _ => "")
    (fun _ _ => None) (fun _ => O).

(** A provider that reports a prompt of 70000 tokens. *)
Definition ext_too_long : external :=
  External all_keys
    (fun _ _ => Failure (Exn OtherError
       "This model's maximum context length is 65536 tokens (70000 in the messages)"))
    None (fun _ => None) (fun _ => "") (fun _ => "")
    (fun _ _ => None) (fun _ => O).


(** A user message whose only part has no [type]. *)
Definition untyped_world : world :=
  World (<[0%nat := Msg "user" (CList [0%nat])]> ∅)
        (<[0%nat := <["text" := VStr "hi"]> ∅]> ∅) [].


(** A provider that answers every task but the second, which it refuses
    as a bad request. *)
Definition ext_one_bad : external :=
  External all_keys
    (fun task _ => if (task =? 1)%nat
                   then Failure (Exn OtherError "Error code: 400")
                   else Success ("ok", None))
    None (fun _ => None) (fun _ => "") (fun _ => "")
    (fun _ _ => None) (fun _ => O).


(** A provider for which no credential is configured. *)
Definition ext_no_keys : external :=
  External ∅ (fun _ _ => Success ("ok", None)) None (fun _ => None)
    (fun _ => "") (fun _ => "")
    (fun _ _ => None) (fun _ => O).

(** A reply with two blocks that define [transform]. *)
Definition two_blocks_text : string :=
  "First try:" +:+ PyStr.nl +:+ "```python" +:+ PyStr.nl
  +:+ "def transform(g):" +:+ PyStr.nl +:+ "    return []"
  +:+ PyStr.nl +:+ "```" +:+ PyStr.nl
  +:+ "Better:" +:+ PyStr.nl +:+ "```python" +:+ PyStr.nl
  +:+ "def transform(g):" +:+ PyStr.nl +:+ "    return g"
  +:+ PyStr.nl +:+ "```" +:+ PyStr.nl.


(** A reply whose second block does not define [transform], followed by
    prose that names the marker. *)
Definition marker_in_prose_text : string :=
  "```python" +:+ PyStr.nl +:+ "def transform(g):" +:+ PyStr.nl
  +:+ "    return g" +:+ PyStr.nl +:+ "```" +:+ PyStr.nl
  +:+ "```python" +:+ PyStr.nl +:+ "y = 2" +:+ PyStr.nl +:+ "```" +:+ PyStr.nl
  +:+ "The second block has no def transform( in it.".

(** A literal of [n] digits. *)
Fixpoint ones (n : nat) : string :=
  match n with
  | O => EmptyString
  | S n' => String "1" (ones n')
  end.

(** A Gemini provider that answers every request with a response that
    holds no text. *)
Definition ext_no_text : external :=
  External all_keys (fun _ _ => Success ("", None)) None (fun _ => None)
    (fun _ => "") (fun _ => "")
    (fun _ _ => Some (Exn ValueError "response.text requires a valid Part"))
    (fun _ => O).


(** * Properties *)

(** ** The response parser *)

Section ParserFacts.
Import PyStr Re Parser.

Lemma contains_cons sub c s :
  contains sub (String c s) = startswith sub (String c s) || contains sub s.
Proof. reflexivity. Qed.

Lemma clean_code_no_tab s : contains tab (clean_code s) = false.
Proof.
  unfold clean_code, replace.
  induction s as [|c s IH]; [reflexivity|].
  cbn [replace_from startswith tab].
  destruct (Ascii.eqb "009"%char c) eqn:E.
  - cbn. exact IH.
  - rewrite contains_cons. cbn [startswith tab]. rewrite E. exact IH.
Qed.

Lemma noop_code_no_tab : contains tab noop_code = false.
Proof. vm_compute. reflexivity. Qed.

Lemma select_chunk_none chunks s :
  (forall chunk, In chunk chunks -> contains marker chunk = false) ->
  select_chunk chunks s = s.
Proof.
  induction chunks as [|c chunks IH]; intros H; [reflexivity|].
  cbn [select_chunk]. rewrite (H c (or_introl eq_refl)).
  apply IH. intros chunk Hin. apply H. now right.
Qed.

Lemma row_nums_spec tokens :
  row_nums tokens =
    if forallb token_ok tokens
    then Ret (omap (fun n => if blank n then None else int (strip n)) tokens)
    else Raise (bare ValueError).
Proof.
  induction tokens as [|n rest IH]; [reflexivity|].
  cbn [row_nums forallb omap list_omap]. unfold token_ok at 1, blank at 1 2.
  destruct (truthy (strip n)); cbn [negb orb andb].
  - destruct (int (strip n)) as [v|] eqn:E.
    + rewrite bool_decide_eq_true_2 by eauto. cbn [andb].
      rewrite IH. destruct (forallb token_ok rest); reflexivity.
    + rewrite bool_decide_eq_false_2 by (intros [? ?]; discriminate).
      reflexivity.
  - exact IH.
Qed.

Lemma rows_loop_spec rows acc :
  rows_loop rows acc =
    if forallb row_ok rows
    then Ret (acc ++ map row_values rows)%list
    else Raise (bare ValueError).
Proof.
  revert acc. induction rows as [|row rest IH]; intros acc.
  - cbn. now rewrite app_nil_r.
  - cbn [rows_loop forallb map]. rewrite row_nums_spec.
    fold (row_ok row). fold (row_values row).
    destruct (row_ok row); cbn [obind andb]; [|reflexivity].
    rewrite IH. destruct (forallb row_ok rest); [|reflexivity].
    now rewrite <- app_assoc.
Qed.

Lemma matches_loop_spec matches acc :
  matches_loop matches acc =
    if forallb match_ok matches
    then Ret (acc ++ map grid_of matches)%list
    else Raise (bare ValueError).
Proof.
  revert acc. induction matches as [|m rest IH]; intros acc.
  - cbn. now rewrite app_nil_r.
  - cbn [matches_loop forallb map]. rewrite rows_loop_spec.
    fold (match_ok m). fold (grid_of m).
    destruct (match_ok m); cbn [obind andb]; [|reflexivity].
    rewrite IH. destruct (forallb match_ok rest); [|reflexivity].
    now rewrite <- app_assoc.
Qed.

End ParserFacts.

(** One fenced region: its body, tabs replaced by four spaces. *)
Example parse_python_backticks_one_block :
  Parser.parse_python_backticks
    ("Here it is:" +:+ PyStr.nl +:+ "```python" +:+ PyStr.nl
     +:+ "def transform(g):" +:+ PyStr.nl +:+ PyStr.tab +:+ "return g"
     +:+ PyStr.nl +:+ "```" +:+ PyStr.nl +:+ "Done.")
  = Ret ("def transform(g):" +:+ PyStr.nl +:+ "    return g").
Proof. vm_compute. reflexivity. Qed.

(** Two fenced regions of which only the second holds the marker: the
    body of the second. *)
Example parse_python_backticks_second_block :
  Parser.parse_python_backticks
    ("```python" +:+ PyStr.nl +:+ "x = 1" +:+ PyStr.nl +:+ "```" +:+ PyStr.nl
     +:+ "```python" +:+ PyStr.nl +:+ "def transform(g): return g"
     +:+ PyStr.nl +:+ "```")
  = Ret "def transform(g): return g".
Proof. vm_compute. reflexivity. Qed.

(** Two fenced regions that both hold the marker: the scan from the end
    takes the last one. *)
Example parse_python_backticks_last_block :
  Parser.parse_python_backticks
    ("```python" +:+ PyStr.nl +:+ "def transform(g): return 1" +:+ PyStr.nl
     +:+ "```" +:+ PyStr.nl
     +:+ "```python" +:+ PyStr.nl +:+ "def transform(g): return 2"
     +:+ PyStr.nl +:+ "```")
  = Ret "def transform(g): return 2".
Proof. vm_compute. reflexivity. Qed.

(** No fence: the text after the closing reasoning tag, or the
    placeholder when there is none. *)
Example parse_python_backticks_no_fence :
  Parser.parse_python_backticks "thinking</reasoning>x = 1" = Ret "x = 1" /\
  Parser.parse_python_backticks "no code here" = Ret Parser.noop_code.
Proof. split; vm_compute; reflexivity. Qed.

(** C9.  Whatever [parse_python_backticks] returns contains no tab: it is
    either the placeholder [noop_code] or a result of [clean_code]. *)
Theorem parse_python_backticks_no_tab (s r : string) :
  Parser.parse_python_backticks s = Ret r ->
  PyStr.contains PyStr.tab r = false.
Proof.
  unfold Parser.parse_python_backticks. intros H.
  repeat match type of H with
         | (if ?b then _ else _) = _ => destruct b
         | match ?o with Some _ => _ | None => _ end = _ => destruct o
         end;
    try discriminate; injection H as <-;
    auto using clean_code_no_tab, noop_code_no_tab.
Qed.

Lemma parse_python_backticks_no_tab_witness :
  PyStr.contains PyStr.tab
    ("x = 1" +:+ String "009"%char "" +:+ "y") = true /\
  PyStr.contains PyStr.tab "x = 1    y" = false.
Proof.
  split; [reflexivity|].
  apply (parse_python_backticks_no_tab
           ("```python" +:+ PyStr.nl +:+ "x = 1" +:+ PyStr.tab +:+ "y"
            +:+ PyStr.nl +:+ "```")).
  vm_compute. reflexivity.
Defined.

(** C4.  With two or more fences and no chunk that holds the marker
    [def transform(], the loop over the chunks leaves the text as it is
    and the assertion that exactly one fence is left fails: the call
    raises [AssertionError] and returns nothing. *)
Theorem parse_python_backticks_no_marker (s : string) :
  (1 < PyStr.count Parser.fence s)%nat ->
  (forall chunk, In chunk (PyStr.split Parser.fence s) ->
                 PyStr.contains Parser.marker chunk = false) ->
  Parser.parse_python_backticks s = Raise (bare AssertionError).
Proof.
  intros Hc Hm. unfold Parser.parse_python_backticks.
  destruct (Nat.eqb_spec (PyStr.count Parser.fence s) 0) as [E|_]; [lia|].
  destruct (Nat.ltb_spec 1 (PyStr.count Parser.fence s)) as [_|E]; [|lia].
  rewrite select_chunk_none by (intros c Hin; apply Hm; now apply in_rev).
  destruct (Nat.eqb_spec (PyStr.count Parser.fence s) 1) as [E|_]; [lia|].
  reflexivity.
Qed.

Lemma parse_python_backticks_no_marker_witness :
  Parser.parse_python_backticks two_blocks_no_marker = Raise (bare AssertionError).
Proof.
  apply parse_python_backticks_no_marker.
  - vm_compute. lia.
  - vm_compute. intros chunk [<-|[<-|[<-|[]]]]; reflexivity.
Defined.

(** ** The chunks of a split hold no separator *)

Section SplitFacts.
Import PyStr.

Lemma startswith_app sep a t :
  startswith sep a = true -> startswith sep (a +:+ t) = true.
Proof.
  revert a. induction sep as [|c sep IH]; intros a H; [reflexivity|].
  destruct a as [|x a]; [discriminate|]. simpl in *.
  destruct (Ascii.eqb c x); [now apply IH|discriminate].
Qed.

Lemma split_from_head_prefix sep s : forall chunk rest,
  split_from sep 0 s = chunk :: rest -> exists t, s = chunk +:+ t.
Proof.
  induction s as [|c s IH]; intros chunk rest H.
  - injection H as <- _. now exists EmptyString.
  - cbn [split_from] in H. destruct (startswith sep (String c s)).
    + injection H as <- _. now exists (String c s).
    + destruct (split_from sep 0 s) as [|chunk0 rest0] eqn:E.
      * injection H as <- _. destruct s; [now exists EmptyString|].
        cbn in E. destruct (startswith sep (String a s)); [discriminate|].
        destruct (split_from sep 0 s); discriminate.
      * injection H as <- _. destruct (IH _ _ eq_refl) as [t ->].
        now exists t.
Qed.

Lemma split_from_no_sep sep s : forall skip chunk,
  In chunk (split_from sep skip s) -> count sep chunk = O.
Proof.
  induction s as [|c s IH]; intros skip chunk H.
  - destruct H as [<-|[]]. reflexivity.
  - cbn [split_from] in H. destruct skip as [|k]; [|now apply (IH k)].
    destruct (startswith sep (String c s)) eqn:Es.
    + destruct H as [<-|H]; [reflexivity|now apply (IH _ _ H)].
    + destruct (split_from sep 0 s) as [|chunk0 rest0] eqn:E.
      * destruct H as [<-|[]]. unfold count. cbn [count_from].
        destruct (startswith sep (String c "")) eqn:E1; [|reflexivity].
        apply (startswith_app _ _ s) in E1.
        change (String c "" +:+ s) with (String c s) in E1. congruence.
      * destruct H as [<-|H].
        -- destruct (split_from_head_prefix _ _ _ _ E) as [t ->].
           unfold count. cbn [count_from].
           destruct (startswith sep (String c chunk0)) eqn:E1.
           ++ apply (startswith_app _ _ t) in E1.
              change (String c chunk0 +:+ t) with (String c (chunk0 +:+ t)) in E1.
              congruence.
           ++ apply (IH O). rewrite E. now left.
        -- apply (IH O). rewrite E. now right.
Qed.

Lemma count_fence_chunk s chunk :
  In chunk (split Parser.fence s) ->
  count Parser.fence (Parser.fence +:+ chunk) = 1%nat.
Proof.
  intros H. apply split_from_no_sep in H.
  change (count Parser.fence (Parser.fence +:+ chunk))
    with (S (count Parser.fence chunk)).
  now rewrite H.
Qed.

Lemma select_chunk_first pre chunk post s :
  (forall c, In c pre -> contains Parser.marker c = false) ->
  contains Parser.marker chunk = true ->
  Parser.select_chunk (pre ++ chunk :: post) s = Parser.fence +:+ chunk.
Proof.
  intros Hpre Hc. induction pre as [|c pre IH]; cbn [app Parser.select_chunk].
  - now rewrite Hc.
  - rewrite (Hpre c (or_introl eq_refl)). apply IH.
    intros c' Hc'. apply Hpre. now right.
Qed.

(** With several fences of which some chunk holds the marker, the call
    returns: the code is taken from the last such chunk, put behind a
    fence again. *)
Lemma parse_python_backticks_selects s pre chunk post :
  (1 < count Parser.fence s)%nat ->
  rev (split Parser.fence s) = pre ++ chunk :: post ->
  (forall c, In c pre -> contains Parser.marker c = false) ->
  contains Parser.marker chunk = true ->
  Parser.parse_python_backticks s
  = Ret (Parser.clean_code (extract_block (Parser.fence +:+ chunk))).
Proof.
  intros Hc Hrev Hpre Hm. unfold Parser.parse_python_backticks.
  destruct (Nat.eqb_spec (count Parser.fence s) 0) as [E|_]; [lia|].
  destruct (Nat.ltb_spec 1 (count Parser.fence s)) as [_|E]; [|lia].
  rewrite Hrev, (select_chunk_first _ _ _ _ Hpre Hm).
  rewrite (count_fence_chunk s chunk).
  - cbn [Nat.eqb negb]. unfold extract_block.
    destruct (Re.search Parser.re_closed_block _); [reflexivity|].
    destruct (Re.search Parser.re_open_block _); reflexivity.
  - apply in_rev. rewrite Hrev. apply in_or_app. right. now left.
Qed.

End SplitFacts.

(** The example of the specification: two grids, in the order of the
    text. *)
Example parse_2d_arrays_two_grids :
  Parser.parse_2d_arrays_from_string "result: [[1,2],[3,4]] and [[5]]"
  = Ret [[[1; 2]; [3; 4]]; [[5]]].
Proof. vm_compute. reflexivity. Qed.

(** White space, a trailing comma and an empty token are skipped. *)
Example parse_2d_arrays_blank_tokens :
  Parser.parse_2d_arrays_from_string "[ [1, 2,], [ -3 ,,+4] ]"
  = Ret [[[1; 2]; [-3; 4]]].
Proof. vm_compute. reflexivity. Qed.

(** C7, as stated, fails: a token that is neither blank nor an integer
    literal is not ignored; [int] raises [ValueError] on it and the call
    returns no grid. *)
Lemma parse_2d_arrays_non_numeric_raises :
  Parser.parse_2d_arrays_from_string "[[1, a]]" = Raise (bare ValueError)
  /\ ~ (exists grids, Parser.parse_2d_arrays_from_string "[[1, a]]" = Ret grids).
Proof.
  assert (E : Parser.parse_2d_arrays_from_string "[[1, a]]"
              = Raise (bare ValueError)) by (vm_compute; reflexivity).
  split; [exact E|]. intros [grids H]. rewrite E in H. discriminate.
Qed.

(** Nor is every run of digits an integer literal for [int]: beyond the
    interpreter's limit of 4300 digits the conversion raises
    [ValueError], and so does the call. *)
Example parse_2d_arrays_digit_limit :
  Parser.parse_2d_arrays_from_string ("[[" +:+ ones 4301 +:+ "]]")
  = Raise (bare ValueError).
Proof. vm_compute. reflexivity. Qed.

(** C7, amended.  For every input, [parse_2d_arrays_from_string] returns
    the grids of the matches in the order of the text, each row holding
    the integers of its tokens that are not blank, when every token that
    is not blank is an integer literal that [int] accepts (an optional
    sign, then digits with single underscores between them, no more
    than 4300 digits); otherwise it raises [ValueError]. *)
Theorem parse_2d_arrays_from_string_spec (s : string) :
  Parser.parse_2d_arrays_from_string s =
    if forallb match_ok (Re.findall Parser.re_grid s)
    then Ret (map grid_of (Re.findall Parser.re_grid s))
    else Raise (bare ValueError).
Proof.
  unfold Parser.parse_2d_arrays_from_string.
  rewrite matches_loop_spec. reflexivity.
Qed.

(** ** The retry loops *)

Lemma extend_extend w a b : extend (extend w a) b = extend w (a ++ b).
Proof. unfold extend. cbn. now rewrite <- app_assoc. Qed.

Lemma extend_nil w : extend w [] = w.
Proof. destruct w. unfold extend. cbn. now rewrite app_nil_r. Qed.

Lemma emit_extend e w : emit e w = (Ret tt, extend w [e]).
Proof. reflexivity. Qed.

Lemma retry_trace_one task mt st secs k :
  retry_trace task mt st secs k 1 = [EvCall task k mt st].
Proof. reflexivity. Qed.

Lemma retry_trace_more task mt st secs k n :
  retry_trace task mt st secs k (S (S n)) =
    EvCall task k mt st :: EvSleep secs :: retry_trace task mt st secs (S k) (S n).
Proof. reflexivity. Qed.

Lemma count_calls_retry_trace task mt st secs k n :
  count_calls (retry_trace task mt st secs k n) = n.
Proof.
  unfold count_calls. revert k.
  induction n as [|[|n] IH]; intros k; [reflexivity..|].
  rewrite retry_trace_more. cbn. f_equal. apply (IH (S k)).
Qed.

Lemma count_sleeps_retry_trace task mt st secs k n :
  count_sleeps (retry_trace task mt st secs k n) = (n - 1)%nat.
Proof.
  unfold count_sleeps. revert k.
  induction n as [|[|n] IH]; intros k; [reflexivity..|].
  rewrite retry_trace_more. cbn [List.filter is_sleep length].
  rewrite (IH (S k)). lia.
Qed.

Lemma attempts_left_last max_retries rc :
  attempts_left max_retries rc = 1%nat -> exhausted max_retries (rc + 1) = true.
Proof. unfold attempts_left, exhausted. intros H. apply Z.leb_le. lia. Qed.

Lemma attempts_left_next max_retries rc n :
  attempts_left max_retries rc = S (S n) ->
  exhausted max_retries (rc + 1) = false /\
  attempts_left max_retries (rc + 1) = S n.
Proof.
  unfold attempts_left, exhausted. intros H. split; [apply Z.leb_gt|]; lia.
Qed.

Section RetryFacts.
Variable ext : external.
Variable task : nat.

Lemma anthropic_loop_rate_limited rs mr st n :
  always_rate_limited ext task ->
  forall fuel rc k w,
    attempts_left mr rc = n -> (n <= fuel)%nat ->
    anthropic_loop ext task rs mr st fuel rc k w
    = (Ret None, extend w (retry_trace task (Some 8192) st rs k n)).
Proof.
  intros Hrl. induction n as [|[|n] IH]; intros fuel rc k w Hn Hf.
  - unfold attempts_left in Hn. lia.
  - destruct fuel as [|fuel]; [lia|]. destruct (Hrl k) as [t Ht].
    cbn [anthropic_loop]. unfold bind. rewrite emit_extend, Ht.
    now rewrite (attempts_left_last _ _ Hn).
  - destruct fuel as [|fuel]; [lia|]. destruct (Hrl k) as [t Ht].
    destruct (attempts_left_next _ _ _ Hn) as [He Hn'].
    cbn [anthropic_loop]. unfold bind, sleep. rewrite emit_extend, Ht, He.
    rewrite emit_extend, (IH fuel (rc + 1) (S k)) by (auto; lia).
    now rewrite !extend_extend.
Qed.

Lemma gemini_loop_rate_limited rs mr n :
  always_rate_limited ext task ->
  (forall k t, attempt ext task k = Failure (Exn RateLimitError t) ->
               PyStr.contains "invalid x-api-key" t = false) ->
  forall fuel rc k w,
    attempts_left mr rc = n -> (n <= fuel)%nat ->
    gemini_loop ext task rs mr fuel rc k w
    = (Ret None, extend w (retry_trace task None false rs k n)).
Proof.
  intros Hrl Hna. induction n as [|[|n] IH]; intros fuel rc k w Hn Hf.
  - unfold attempts_left in Hn. lia.
  - destruct fuel as [|fuel]; [lia|]. destruct (Hrl k) as [t Ht].
    cbn [gemini_loop]. unfold bind. rewrite emit_extend, Ht. cbn [exn_str].
    rewrite (Hna _ _ Ht). now rewrite (attempts_left_last _ _ Hn).
  - destruct fuel as [|fuel]; [lia|]. destruct (Hrl k) as [t Ht].
    destruct (attempts_left_next _ _ _ Hn) as [He Hn'].
    cbn [gemini_loop]. unfold bind, sleep. rewrite emit_extend, Ht. cbn [exn_str].
    rewrite (Hna _ _ Ht), He.
    rewrite emit_extend, (IH fuel (rc + 1) (S k)) by (auto; lia).
    now rewrite !extend_extend.
Qed.

Lemma deepseek_loop_rate_limited rs mr st n :
  always_rate_limited ext task ->
  (forall k t, attempt ext task k = Failure (Exn RateLimitError t) ->
               PyStr.contains "tokens (" t = false) ->
  forall fuel rc mt k w,
    attempts_left mr rc = n -> (n <= fuel)%nat ->
    deepseek_loop ext task rs mr st fuel rc mt k w
    = (Ret None, extend w (retry_trace task (Some mt) st rs k n)).
Proof.
  intros Hrl Hnt. induction n as [|[|n] IH]; intros fuel rc mt k w Hn Hf.
  - unfold attempts_left in Hn. lia.
  - destruct fuel as [|fuel]; [lia|]. destruct (Hrl k) as [t Ht].
    cbn [deepseek_loop]. unfold bind. rewrite emit_extend, Ht.
    unfold deepseek_budget. cbn [exn_str]. rewrite (Hnt _ _ Ht).
    now rewrite (attempts_left_last _ _ Hn).
  - destruct fuel as [|fuel]; [lia|]. destruct (Hrl k) as [t Ht].
    destruct (attempts_left_next _ _ _ Hn) as [He Hn'].
    cbn [deepseek_loop]. unfold bind, sleep. rewrite emit_extend, Ht.
    unfold deepseek_budget. cbn [exn_str]. rewrite (Hnt _ _ Ht), He.
    rewrite emit_extend, (IH fuel (rc + 1) mt (S k)) by (auto; lia).
    now rewrite !extend_extend.
Qed.

Lemma body_ok_extend body w evs : body_ok body w -> body_ok body (extend w evs).
Proof. intros H evs'. rewrite extend_extend. apply H. Qed.

Lemma plain_loop_rate_limited body budget rs mr st n :
  always_rate_limited ext task ->
  forall fuel rc k w,
    body_ok body w ->
    attempts_left mr rc = n -> (n <= fuel)%nat ->
    plain_loop ext task body budget rs mr st fuel rc k w
    = (Ret None, extend w (retry_trace task (Some budget) st rs k n)).
Proof.
  intros Hrl. induction n as [|[|n] IH]; intros fuel rc k w Hb Hn Hf.
  - unfold attempts_left in Hn. lia.
  - destruct fuel as [|fuel]; [lia|]. destruct (Hrl k) as [t Ht].
    cbn [plain_loop]. unfold bind, catch, ret.
    rewrite <- (extend_nil w) at 1. rewrite Hb, extend_nil, emit_extend, Ht.
    now rewrite (attempts_left_last _ _ Hn).
  - destruct fuel as [|fuel]; [lia|]. destruct (Hrl k) as [t Ht].
    destruct (attempts_left_next _ _ _ Hn) as [He Hn'].
    cbn [plain_loop]. unfold bind, catch, ret, sleep.
    rewrite <- (extend_nil w) at 1. rewrite Hb, extend_nil, emit_extend, Ht, He.
    rewrite emit_extend, (IH fuel (rc + 1) (S k)); auto; try lia.
    + now rewrite !extend_extend.
    + now do 2 apply body_ok_extend.
Qed.

End RetryFacts.

(** *** Steps that only read the store *)

Lemma oblivious_ret {A} (a : A) : oblivious (ret a).
Proof. now intros w evs. Qed.

Lemma oblivious_raise {A} e : oblivious (@raise A e).
Proof. now intros w evs. Qed.

Lemma oblivious_lift {A} (o : outcome A) : oblivious (lift o).
Proof. now intros w evs. Qed.

Lemma oblivious_get_msg l : oblivious (get_msg l).
Proof. intros w evs. unfold get_msg. cbn. now destruct (msgs w !! l). Qed.

Lemma oblivious_get_part l : oblivious (get_part l).
Proof. intros w evs. unfold get_part. cbn. now destruct (parts w !! l). Qed.

Lemma oblivious_bind {A B} (m : M A) (k : A -> M B) :
  oblivious m -> (forall a, oblivious (k a)) -> oblivious (bind m k).
Proof.
  intros Hm Hk w evs. unfold bind. rewrite Hm.
  destruct (m w) as [[a|e] w']; cbn; [apply Hk|reflexivity].
Qed.

Create HintDb oblivious.
#[local] Hint Resolve oblivious_ret oblivious_raise oblivious_lift
  oblivious_get_msg oblivious_get_part : oblivious.

Ltac oblivious_step :=
  repeat first
    [ apply oblivious_bind; [|intros ?]
    | match goal with
      | |- oblivious (if ?b then _ else _) => destruct b
      | |- oblivious (match ?c with CStr _ => _ | CList _ => _ end) => destruct c
      | |- oblivious (match ?s with EmptyString => _ | String _ _ => _ end) => destruct s
      end
    | solve [auto with oblivious] ].

Lemma oblivious_xai_parts ps : oblivious (xai_parts ps).
Proof. induction ps as [|l ps IH]; cbn [xai_parts]; oblivious_step. Qed.

Lemma oblivious_xai_convert messages : oblivious (xai_convert messages).
Proof.
  pose proof oblivious_xai_parts.
  induction messages as [|l ms IH]; cbn [xai_convert]; oblivious_step.
Qed.

Lemma xai_convert_body_ok messages w :
  xai_convert messages w = (Ret tt, w) -> body_ok (xai_convert messages) w.
Proof.
  intros H evs. rewrite oblivious_xai_convert, H. reflexivity.
Qed.

Lemma ret_body_ok w : body_ok (ret tt) w.
Proof. now intros evs. Qed.

(** C2, amended.  Under a provider that fails every attempt with a
    rate-limit error, an adapter call makes [max 1 max_retries] attempts
    (for [max_retries >= 1], exactly the configured number), waits
    [retry_secs] between two attempts and returns [None].  This holds
    for the Anthropic, OpenAI and xAI loops, and for the Gemini and
    DeepSeek loops when the text of the error sets off neither the
    credential check nor the context-length handling. *)
Theorem retry_loop_always_rate_limited (ext : external) (task : nat)
    (retry_secs max_retries : Z) (stream : bool) (w : world) :
  always_rate_limited ext task ->
  let n := attempts_made max_retries in
  get_next_message_anthropic_with ext task retry_secs max_retries stream w
    = (Ret None, extend w (retry_trace task (Some 8192) stream retry_secs 0 n))
  /\ get_next_message_openai_with ext task retry_secs max_retries stream w
    = (Ret None, extend w (retry_trace task (Some 16384) stream retry_secs 0 n))
  /\ (forall messages,
        xai_convert messages w = (Ret tt, w) ->
        get_next_message_xai_with ext task messages retry_secs max_retries stream w
        = (Ret None, extend w (retry_trace task (Some 120000) stream retry_secs 0 n)))
  /\ ((forall k t, attempt ext task k = Failure (Exn RateLimitError t) ->
                   PyStr.contains "invalid x-api-key" t = false) ->
      get_next_message_gemini_with ext task retry_secs max_retries w
      = (Ret None, extend w (retry_trace task None false retry_secs 0 n)))
  /\ ((forall k t, attempt ext task k = Failure (Exn RateLimitError t) ->
                   PyStr.contains "tokens (" t = false) ->
      get_next_message_deepseek_with ext task retry_secs max_retries false w
      = (Ret None, extend w (retry_trace task (Some 8192) false retry_secs 0 n)))
  /\ count_calls (retry_trace task (Some 8192) stream retry_secs 0 n)
     = Z.to_nat (Z.max 1 max_retries)
  /\ count_sleeps (retry_trace task (Some 8192) stream retry_secs 0 n)
     = (Z.to_nat (Z.max 1 max_retries) - 1)%nat.
Proof.
  intros Hrl n.
  assert (Hn : attempts_left max_retries 0 = n)
    by (unfold attempts_left, n, attempts_made; f_equal; lia).
  assert (Hf : (n <= S (Z.to_nat max_retries))%nat)
    by (unfold n, attempts_made; lia).
  repeat split.
  - now apply anthropic_loop_rate_limited.
  - apply plain_loop_rate_limited; auto using ret_body_ok.
  - intros messages Hc. apply plain_loop_rate_limited;
      auto using xai_convert_body_ok.
  - intros Hna. now apply gemini_loop_rate_limited.
  - intros Hnt. unfold get_next_message_deepseek_with, bind, ret.
    now apply deepseek_loop_rate_limited.
  - apply count_calls_retry_trace.
  - apply count_sleeps_retry_trace.
Qed.

Lemma retry_loop_always_rate_limited_witness :
  always_rate_limited ext_rate_limited 0 /\
  get_next_message_anthropic ext_rate_limited 0 false empty_world
    = (Ret None, extend empty_world (retry_trace 0 (Some 8192) false 15 0 200)) /\
  get_next_message_xai ext_rate_limited 0 [] false empty_world
    = (Ret None, extend empty_world [EvCall 0 0 (Some 120000) false]) /\
  get_next_message_deepseek ext_rate_limited 0 false empty_world
    = (Ret None, extend empty_world (retry_trace 0 (Some 8192) false 15 0 50)).
Proof.
  assert (H : always_rate_limited ext_rate_limited 0)
    by (intros k; eexists; reflexivity).
  split; [exact H|].
  split; [exact (proj1 (retry_loop_always_rate_limited
                          ext_rate_limited 0 15 200 false empty_world H))|].
  split.
  - apply (retry_loop_always_rate_limited
             ext_rate_limited 0 15 0 false empty_world H). reflexivity.
  - apply (retry_loop_always_rate_limited
             ext_rate_limited 0 15 50 false empty_world H).
    intros k t Ht. injection Ht as <-. reflexivity.
Defined.

(** C2, as stated, fails for the xAI adapter: its configured maximum is
    0, and one attempt is made. *)
Lemma xai_zero_retries_one_attempt :
  always_rate_limited ext_rate_limited 0 /\
  get_next_message_xai ext_rate_limited 0 [] false
  = get_next_message_xai_with ext_rate_limited 0 [] 15 0 false /\
  count_calls (trace (get_next_message_xai ext_rate_limited 0 [] false empty_world).2)
  = 1%nat /\
  1%nat <> Z.to_nat 0.
Proof.
  repeat split; [intros k; eexists; reflexivity|discriminate].
Qed.

(** C3, amended.  In the Anthropic and the Gemini adapter, a first
    attempt that fails with an error whose text holds
    [invalid x-api-key] (for Anthropic: an error other than a rate-limit
    error) ends the call at once: one attempt, no wait, [None]. *)
Theorem auth_error_single_attempt (ext : external) (task : nat) (e : exn)
    (w : world) :
  attempt ext task 0 = Failure e ->
  PyStr.contains "invalid x-api-key" (exn_str e) = true ->
  (exn_cls e <> RateLimitError ->
   forall retry_secs max_retries stream,
     get_next_message_anthropic_with ext task retry_secs max_retries stream w
     = (Ret None, extend w [EvCall task 0 (Some 8192) stream]))
  /\ (forall retry_secs max_retries,
        get_next_message_gemini_with ext task retry_secs max_retries w
        = (Ret None, extend w [EvCall task 0 None false])).
Proof.
  intros Ha Ht. split.
  - intros Hc rs mr st.
    unfold get_next_message_anthropic_with. cbn [anthropic_loop].
    unfold bind. rewrite emit_extend, Ha.
    destruct e as [c t]. cbn in Hc, Ht.
    destruct c; try congruence; cbn [exn_str]; now rewrite Ht.
  - intros rs mr. unfold get_next_message_gemini_with. cbn [gemini_loop].
    unfold bind. rewrite emit_extend, Ha. now rewrite Ht.
Qed.

Lemma auth_error_single_attempt_witness :
  get_next_message_anthropic ext_auth_fail 0 false empty_world
    = (Ret None, extend empty_world [EvCall 0 0 (Some 8192) false]) /\
  get_next_message_gemini ext_auth_fail 0 empty_world
    = (Ret None, extend empty_world [EvCall 0 0 None false]).
Proof.
  pose proof (auth_error_single_attempt ext_auth_fail 0
                (Exn OtherError "invalid x-api-key") empty_world
                eq_refl eq_refl) as [Ha Hg].
  split; [apply Ha; discriminate|apply Hg].
Defined.

(** C3, as stated, fails for the OpenAI adapter: a rejected credential is
    retried like any other error, three attempts and two waits. *)
Lemma openai_auth_error_retried :
  (forall k, attempt ext_auth_fail 0 k = Failure (Exn OtherError "invalid x-api-key")) /\
  get_next_message_openai ext_auth_fail 0 false empty_world
  = (Ret None,
     extend empty_world
       [EvCall 0 0 (Some 16384) false; EvSleep 15;
        EvCall 0 1 (Some 16384) false; EvSleep 15;
        EvCall 0 2 (Some 16384) false]) /\
  count_calls (trace (get_next_message_openai ext_auth_fail 0 false empty_world).2)
  = 3%nat.
Proof. repeat split. Qed.

(** ** State and exceptions: how a computation that returns was run *)

Lemma bind_ret_inv {A B} (m : M A) (k : A -> M B) w b w' :
  bind m k w = (Ret b, w') ->
  exists a w1, m w = (Ret a, w1) /\ k a w1 = (Ret b, w').
Proof.
  unfold bind. destruct (m w) as [[a|e] w1]; [eauto|discriminate].
Qed.

Lemma bind_run {A B} (m : M A) (k : A -> M B) w a w1 :
  m w = (Ret a, w1) -> bind m k w = k a w1.
Proof. unfold bind. now intros ->. Qed.

Lemma bind_raise {A B} (m : M A) (k : A -> M B) w e w1 :
  m w = (Raise e, w1) -> bind m k w = (Raise e, w1).
Proof. unfold bind. now intros ->. Qed.

Lemma store_kept_refl w : store_kept w w.
Proof. split; auto. Qed.

Lemma store_kept_trans w1 w2 w3 :
  store_kept w1 w2 -> store_kept w2 w3 -> store_kept w1 w3.
Proof. intros [H1 H2] [H3 H4]. split; auto. Qed.

Lemma store_kept_extend w evs : store_kept w (extend w evs).
Proof. split; auto. Qed.

(** ** [text_only_messages] *)

Section TextOnlyFacts.
Variable w0 : world.

Lemma text_parts_ok ps : forall acc w,
  parts w = parts w0 ->
  forallb (part_ok w0) ps = true ->
  text_parts ps acc w
  = (Ret (acc ++ map VStr (map (part_text w0) (List.filter (part_is_text w0) ps))), w).
Proof.
  induction ps as [|l ps IH]; intros acc w Hp Hok.
  - cbn. now rewrite app_nil_r.
  - cbn [forallb] in Hok. apply andb_prop in Hok as [Hl Hps].
    unfold part_ok in Hl.
    destruct (parts w0 !! l) as [p|] eqn:Ep; [|discriminate].
    destruct (p !! "type") as [ty|] eqn:Ety; [|discriminate].
    cbn [text_parts]. unfold bind, get_part, lift, part_get.
    rewrite Hp, Ep, Ety.
    assert (Hit : part_is_text w0 l = val_is "text" ty)
      by (unfold part_is_text; now rewrite Ep, Ety).
    cbn [List.filter]. rewrite Hit.
    destruct (val_is "text" ty).
    + destruct (p !! "text") as [[t|]|] eqn:Etx; try discriminate.
      assert (Htx : part_text w0 l = t)
        by (unfold part_text; now rewrite Ep, Etx).
      rewrite (IH _ _ Hp Hps). cbn [map]. rewrite Htx.
      now rewrite <- app_assoc.
    + apply (IH _ _ Hp Hps).
Qed.

Lemma strs_of_strings ts : strs_of (map VStr ts) = Ret ts.
Proof. induction ts as [|t ts IH]; [reflexivity|]. cbn. now rewrite IH. Qed.

Lemma texts_of_nil m :
  texts_of w0 (msg_content m) = [] <-> has_text_part w0 m = false.
Proof.
  unfold has_text_part. destruct (msg_content m) as [s|ps]; cbn; [easy|].
  induction ps as [|l ps IH]; cbn; [easy|].
  destruct (part_is_text w0 l); cbn; [easy|exact IH].
Qed.

Lemma text_only_loop_ok messages : forall acc w,
  grown w0 w ->
  conversation_ok w0 messages = true ->
  (forall l, l ∈ acc -> is_Some (msgs w !! l) /\ msgs w0 !! l = None) ->
  exists ls w',
    text_only_loop messages acc w = (Ret (acc ++ ls), w') /\
    grown w0 w' /\
    read_msgs w' acc = read_msgs w acc /\
    read_msgs w' ls = map Some (text_view has_text_part w0 messages) /\
    (forall l, l ∈ ls -> msgs w0 !! l = None).
Proof.
  induction messages as [|l ms IH]; intros acc w Hg Hok Hacc.
  - exists [], w. cbn. rewrite app_nil_r. split_and!; auto.
    intros l Hl. inversion Hl.
  - cbn [conversation_ok forallb] in Hok. apply andb_prop in Hok as [Hl Hms].
    destruct Hg as (Hp & Ht & Hm).
    unfold message_ok in Hl.
    destruct (msgs w0 !! l) as [m|] eqn:El; [|discriminate].
    cbn [text_only_loop text_view omap list_omap]. rewrite El.
    unfold bind at 1. unfold get_msg. rewrite (Hm _ _ El).
    assert (Hcs : (let* content_strs :=
                     match msg_content m with
                     | CStr s => ret [VStr s]
                     | CList ps => text_parts ps []
                     end in ret content_strs) w
                  = (Ret (map VStr (texts_of w0 (msg_content m))), w)).
    { destruct (msg_content m) as [s|ps]; [reflexivity|].
      unfold bind. rewrite (text_parts_ok ps [] w Hp Hl). reflexivity. }
    unfold bind in Hcs. unfold bind at 1.
    destruct (match msg_content m with
              | CStr s => ret [VStr s]
              | CList ps => text_parts ps []
              end w) as [[cs|e] w1] eqn:Ecs; [|discriminate].
    injection Hcs as -> ->.
    destruct (texts_of w0 (msg_content m)) as [|t ts] eqn:Ets.
    + apply texts_of_nil in Ets. rewrite Ets. cbn [map].
      apply (IH acc w); auto. now split.
    + assert (Hh : has_text_part w0 m = true).
      { destruct (has_text_part w0 m) eqn:E; [easy|].
        apply texts_of_nil in E. congruence. }
      rewrite Hh. cbn [map].
      change (VStr t :: map VStr ts) with (map VStr (t :: ts)).
      unfold bind, lift. rewrite strs_of_strings. unfold alloc_msg.
      set (l' := fresh (dom (msgs w))).
      set (m' := Msg (role m) (CStr (PyStr.join PyStr.nl (t :: ts)))).
      set (w2 := World (<[l' := m']> (msgs w)) (parts w) (trace w)).
      assert (Hfresh : msgs w !! l' = None).
      { apply not_elem_of_dom. apply is_fresh. }
      assert (Hg2 : grown w0 w2).
      { repeat split; auto. intros l1 m1 H1. cbn.
        rewrite lookup_insert_ne; [auto|].
        intros <-. apply Hm in H1. congruence. }
      destruct (IH (acc ++ [l'])%list w2 Hg2 Hms) as (ls & w' & Hrun & Hg' & Hra & Hrl & Hnew).
      { intros l1 Hl1. apply elem_of_app in Hl1 as [Hl1|Hl1].
        - destruct (Hacc _ Hl1) as [[m1 Hs] Hn]. split; [|exact Hn].
          cbn. rewrite lookup_insert_ne; [eauto|]. intros <-. congruence.
        - apply list_elem_of_singleton in Hl1 as ->. split.
          + cbn. rewrite lookup_insert_eq. eauto.
          + destruct (msgs w0 !! l') eqn:E0; [|reflexivity].
            apply Hm in E0. congruence. }
      exists (l' :: ls), w'. rewrite <- app_assoc in Hrun. cbn in Hrun.
      unfold read_msgs in *. rewrite !map_app in Hra. cbn [map] in Hra.
      apply app_inj_1 in Hra as [Hra1 Hra2]; [|now rewrite !length_map].
      split_and!; auto.
      * rewrite Hra1. apply map_ext_in. intros l1 Hl1. cbn.
        rewrite lookup_insert_ne; [reflexivity|].
        intros <-. apply list_elem_of_In in Hl1.
        destruct (Hacc _ Hl1) as [[m1 Hs] _]. congruence.
      * cbn [map]. f_equal; [|exact Hrl].
        injection Hra2 as ->. cbn. now rewrite lookup_insert_eq.
      * intros l1 Hl1. apply elem_of_cons in Hl1 as [->|Hl1]; [|auto].
        destruct (msgs w0 !! l') eqn:E0; [|reflexivity].
        apply Hm in E0. congruence.
Qed.

End TextOnlyFacts.

(** C10, as stated, fails: a message whose content is the empty string
    has no text part in the sense of the specification, which drops it; the
    code keeps it, with the empty string as content. *)
Lemma text_only_messages_keeps_empty_string :
  text_view claimed_has_text_part empty_text_world [0%nat] = [] /\
  exists l w',
    text_only_messages [0%nat] empty_text_world = (Ret [l], w') /\
    read_msgs w' [l] = [Some (Msg "user" (CStr ""))].
Proof.
  split; [reflexivity|].
  eexists _, _. split; vm_compute; reflexivity.
Qed.

(** C10, amended.  On a conversation whose parts have a type, those of
    type [text] with a string, [text_only_messages] returns new
    messages, one for each message whose content is a string (empty or
    not) or a list with a part of type [text], in the original order,
    each with its role and with the newline-join of its texts as
    content; the other messages are dropped.  The dictionaries of the
    caller are left as they were. *)
Theorem text_only_messages_spec (w : world) (messages : list loc) :
  conversation_ok w messages = true ->
  exists ls w',
    text_only_messages messages w = (Ret ls, w') /\
    read_msgs w' ls = map Some (text_view has_text_part w messages) /\
    (forall l, l ∈ ls -> msgs w !! l = None) /\
    store_kept w w' /\ parts w' = parts w /\ trace w' = trace w.
Proof.
  intros Hok.
  destruct (text_only_loop_ok w messages [] w) as (ls & w' & Hrun & Hg & _ & Hr & Hn).
  - split_and!; auto.
  - exact Hok.
  - intros l Hl. inversion Hl.
  - exists ls, w'. destruct Hg as (Hp & Ht & Hm).
    split_and!; auto. split; [exact Hm|]. intros l p. now rewrite Hp.
Qed.

Lemma text_only_messages_spec_witness :
  exists ls w',
    text_only_messages mixed_conversation mixed_world = (Ret ls, w') /\
    read_msgs w' ls
    = [Some (Msg "system" (CStr "be brief"));
       Some (Msg "user" (CStr ("look" +:+ PyStr.nl +:+ "at this")));
       Some (Msg "assistant" (CStr "fine"))].
Proof.
  destruct (text_only_messages_spec mixed_world mixed_conversation eq_refl)
    as (ls & w' & Hrun & Hr & _).
  exists ls, w'. split; [exact Hrun|]. rewrite Hr. reflexivity.
Defined.

(** ** What a call leaves of the caller's dictionaries *)

Create HintDb keeps.

Lemma keeps_ret {A} (a : A) : keeps (ret a).
Proof. intros w. apply store_kept_refl. Qed.

Lemma keeps_raise {A} e : keeps (@raise A e).
Proof. intros w. apply store_kept_refl. Qed.

Lemma keeps_lift {A} (o : outcome A) : keeps (lift o).
Proof. intros w. apply store_kept_refl. Qed.

Lemma keeps_emit e : keeps (emit e).
Proof. intros w. split; auto. Qed.

Lemma keeps_sleep secs : keeps (sleep secs).
Proof. apply keeps_emit. Qed.

Lemma keeps_get_msg l : keeps (get_msg l).
Proof. intros w. unfold get_msg. destruct (msgs w !! l); apply store_kept_refl. Qed.

Lemma keeps_get_part l : keeps (get_part l).
Proof. intros w. unfold get_part. destruct (parts w !! l); apply store_kept_refl. Qed.

Lemma keeps_env_key ext k : keeps (env_key ext k).
Proof. unfold env_key. destruct (environ ext !! k); [apply keeps_ret|apply keeps_raise]. Qed.

Lemma keeps_alloc_msg m : keeps (alloc_msg m).
Proof.
  intros w. split; cbn; [|auto]. intros l m' H.
  rewrite lookup_insert_ne; [exact H|].
  intros <-. pose proof (is_fresh (dom (msgs w))) as Hf.
  apply not_elem_of_dom in Hf. congruence.
Qed.

Lemma keeps_alloc_part p : keeps (alloc_part p).
Proof.
  intros w. split; cbn; [auto|]. intros l p' H.
  rewrite lookup_insert_ne; [exact H|].
  intros <-. pose proof (is_fresh (dom (parts w))) as Hf.
  apply not_elem_of_dom in Hf. congruence.
Qed.

Lemma keeps_bind {A B} (m : M A) (k : A -> M B) :
  keeps m -> (forall a, keeps (k a)) -> keeps (bind m k).
Proof.
  intros Hm Hk w. unfold bind. specialize (Hm w).
  destruct (m w) as [[a|e] w1]; cbn in *; [|exact Hm].
  eapply store_kept_trans; [exact Hm|apply Hk].
Qed.

Lemma keeps_catch {A} (m : M A) (h : exn -> M A) :
  keeps m -> (forall e, keeps (h e)) -> keeps (catch m h).
Proof.
  intros Hm Hh w. unfold catch. specialize (Hm w).
  destruct (m w) as [[a|e] w1]; cbn in *; [exact Hm|].
  eapply store_kept_trans; [exact Hm|apply Hh].
Qed.

(** [gather], one task after the other. *)
Lemma gather_nil {A} race w : @gather A race [] w = (Ret [], w).
Proof. reflexivity. Qed.

Lemma gather_world {A} race (tasks : list (M A)) w :
  (gather race tasks w).2 = (run_all tasks w).2.
Proof. unfold gather. now destruct (raised (run_all tasks w).1). Qed.

Lemma gather_cons {A} race (t : M A) rest w :
  gather race (t :: rest) w
  = match t w with
    | (Ret a, w') =>
        match gather race rest w' with
        | (Ret l, w'') => (Ret (a :: l), w'')
        | (Raise e, w'') => (Raise e, w'')
        end
    | (Raise e, w') =>
        (Raise (first_raised race e (raised (run_all rest w').1)),
         (run_all rest w').2)
    end.
Proof.
  unfold gather. cbn [run_all]. destruct (t w) as [[a|e] w']; cbn [fst snd raised returned].
  - now destruct (raised (run_all rest w').1).
  - reflexivity.
Qed.

Lemma first_raised_same race e es :
  Forall (eq e) es -> first_raised race e es = e.
Proof.
  intros H. unfold first_raised.
  assert (Hall : Forall (eq e) (e :: es)) by (constructor; auto).
  generalize (race (e :: es)). revert Hall. generalize (e :: es).
  induction l as [|x l IH]; intros Hall n; destruct n; cbn; auto.
  - now inversion Hall.
  - apply IH. now inversion Hall.
Qed.

(** Whatever the timing, the exception that [gather] raises is the
    exception of one of its tasks. *)
Lemma first_raised_elem race e es : In (first_raised race e es) (e :: es).
Proof.
  unfold first_raised.
  destruct (Nat.lt_ge_cases (race (e :: es)) (length (e :: es))) as [H|H].
  - now apply nth_In.
  - rewrite nth_overflow by exact H. now left.
Qed.

Lemma gather_raises_one {A} race (tasks : list (M A)) w e w' :
  gather race tasks w = (Raise e, w') ->
  In e (raised (run_all tasks w).1).
Proof.
  unfold gather. destruct (raised (run_all tasks w).1) as [|e0 es]; [discriminate|].
  intros [= <- _]. apply first_raised_elem.
Qed.

Lemma run_all_kept {A} (tasks : list (M A)) :
  Forall keeps tasks -> forall w, store_kept w (run_all tasks w).2.
Proof.
  induction 1 as [|t tasks Ht _ IH]; intros w; [apply store_kept_refl|].
  cbn [run_all snd]. eapply store_kept_trans; [apply Ht|apply IH].
Qed.

Lemma keeps_gather {A} race (tasks : list (M A)) :
  Forall keeps tasks -> keeps (gather race tasks).
Proof. intros H w. rewrite gather_world. now apply run_all_kept. Qed.

Lemma keeps_tasks_from {A} race first count (f : nat -> M A) :
  (forall i, keeps (f i)) -> keeps (gather race (tasks_from first count f)).
Proof.
  intros H. apply keeps_gather. unfold tasks_from.
  apply Forall_forall. intros t Ht. apply list_elem_of_In, in_map_iff in Ht as (i & <- & _).
  apply H.
Qed.

#[local] Hint Resolve keeps_ret keeps_raise keeps_lift keeps_emit keeps_sleep
  keeps_get_msg keeps_get_part keeps_env_key keeps_alloc_msg keeps_alloc_part
  : keeps.

Ltac keeps_step :=
  repeat first
    [ solve [auto with keeps]
    | apply keeps_bind; [|intros ?]
    | apply keeps_catch; [|intros ?]
    | apply keeps_tasks_from; intros ?
    | match goal with
      | |- keeps (if ?b then _ else _) => destruct b
      | |- keeps (match ?x with _ => _ end) => destruct x
      end ].

Lemma keeps_text_parts ps acc : keeps (text_parts ps acc).
Proof. revert acc. induction ps as [|l ps IH]; intros acc; cbn [text_parts]; keeps_step. Qed.

Lemma keeps_text_only_loop messages acc : keeps (text_only_loop messages acc).
Proof.
  pose proof keeps_text_parts.
  revert acc. induction messages as [|l ms IH]; intros acc;
    cbn [text_only_loop]; keeps_step.
Qed.

Lemma keeps_text_only_messages messages : keeps (text_only_messages messages).
Proof. apply keeps_text_only_loop. Qed.

Lemma keeps_xai_parts ps : keeps (xai_parts ps).
Proof. induction ps as [|l ps IH]; cbn [xai_parts]; keeps_step. Qed.

Lemma keeps_xai_convert messages : keeps (xai_convert messages).
Proof.
  pose proof keeps_xai_parts.
  induction messages as [|l ms IH]; cbn [xai_convert]; keeps_step.
Qed.

Lemma keeps_gemini_parts ext ps : keeps (gemini_parts ext ps).
Proof. induction ps as [|l ps IH]; cbn [gemini_parts]; keeps_step. Qed.

Lemma keeps_gemini_contents ext messages : keeps (gemini_contents ext messages).
Proof.
  pose proof (keeps_gemini_parts ext).
  induction messages as [|l ms IH]; cbn [gemini_contents]; keeps_step.
Qed.

Lemma keeps_system_instruction c : keeps (system_instruction c).
Proof. unfold system_instruction. keeps_step. Qed.

Lemma keeps_split_system messages : keeps (split_system messages).
Proof. unfold split_system. keeps_step. Qed.

Lemma keeps_no_wifi ext : keeps (no_wifi ext).
Proof. unfold no_wifi. keeps_step. Qed.

Lemma keeps_exchange ext task k mt st : keeps (exchange ext task k mt st).
Proof. unfold exchange. keeps_step. Qed.

Lemma keeps_read_text {A} ext task k (a : A) : keeps (read_text ext task k a).
Proof. unfold read_text. keeps_step. Qed.

Section AdapterKeeps.
Variable ext : external.
Variable task : nat.

Lemma keeps_anthropic_loop rs mr st fuel : forall rc k,
  keeps (anthropic_loop ext task rs mr st fuel rc k).
Proof. induction fuel as [|fuel IH]; intros rc k; cbn [anthropic_loop]; keeps_step. Qed.

Lemma keeps_deepseek_loop rs mr st fuel : forall rc mt k,
  keeps (deepseek_loop ext task rs mr st fuel rc mt k).
Proof. induction fuel as [|fuel IH]; intros rc mt k; cbn [deepseek_loop]; keeps_step. Qed.

Lemma keeps_plain_loop body budget rs mr st fuel : keeps body -> forall rc k,
  keeps (plain_loop ext task body budget rs mr st fuel rc k).
Proof.
  intros Hb. induction fuel as [|fuel IH]; intros rc k; cbn [plain_loop]; keeps_step.
Qed.

Lemma keeps_gemini_loop rs mr fuel : forall rc k,
  keeps (gemini_loop ext task rs mr fuel rc k).
Proof.
  pose proof (@keeps_read_text (option reply) ext task).
  induction fuel as [|fuel IH]; intros rc k; cbn [gemini_loop]; keeps_step.
Qed.

Lemma keeps_get_next_message_anthropic st : keeps (get_next_message_anthropic ext task st).
Proof. apply keeps_anthropic_loop. Qed.

Lemma keeps_get_next_message_deepseek b : keeps (get_next_message_deepseek ext task b).
Proof.
  unfold get_next_message_deepseek, get_next_message_deepseek_with.
  pose proof keeps_deepseek_loop. keeps_step.
Qed.

Lemma keeps_get_next_message_openai st : keeps (get_next_message_openai ext task st).
Proof. apply keeps_plain_loop, keeps_ret. Qed.

Lemma keeps_get_next_message_xai messages st :
  keeps (get_next_message_xai ext task messages st).
Proof. apply keeps_plain_loop, keeps_xai_convert. Qed.

Lemma keeps_get_next_message_gemini : keeps (get_next_message_gemini ext task).
Proof. apply keeps_gemini_loop. Qed.

End AdapterKeeps.

Ltac decide_models :=
  repeat match goal with
    | |- context [model_in ?m ?l] =>
        let b := eval vm_compute in (model_in m l) in
        change (model_in m l) with b
    | |- context [@bool_decide (@eq Model ?a ?b) ?d] =>
        let v := eval vm_compute in (@bool_decide (@eq Model a b) d) in
        change (@bool_decide (@eq Model a b) d) with v
    end;
  cbv iota.

Lemma keeps_get_next_message_openrouter ext task k messages model :
  model_in model [openrouter_claude_3_5_sonnet; openrouter_model;
                  openrouter_o1; openrouter_o1_mini] = true ->
  keeps (get_next_message ext task k messages model).
Proof.
  pose proof keeps_no_wifi. pose proof keeps_exchange.
  intros Hm. unfold get_next_message.
  apply keeps_bind; [auto|]. intros nw. destruct nw; [apply keeps_ret|].
  destruct model; try discriminate Hm; decide_models; keeps_step.
Qed.

Lemma keeps_retry_range ext task messages model mr left :
  model_in model [openrouter_claude_3_5_sonnet; openrouter_model;
                  openrouter_o1; openrouter_o1_mini] = true ->
  forall retry, keeps (retry_range ext task messages model mr left retry).
Proof.
  intros Hm. pose proof (fun k => keeps_get_next_message_openrouter ext task k messages model Hm).
  induction left as [|left IH]; intros retry; cbn [retry_range]; keeps_step.
Qed.

Lemma keeps_deepseek_branch ext messages model n :
  keeps (deepseek_branch ext messages model n).
Proof.
  pose proof keeps_text_only_messages.
  pose proof (keeps_get_next_message_deepseek ext).
  unfold deepseek_branch. keeps_step.
Qed.

Lemma keeps_xai_branch ext messages st n : keeps (xai_branch ext messages st n).
Proof.
  pose proof (keeps_get_next_message_xai ext).
  unfold xai_branch. keeps_step.
Qed.

Lemma keeps_gemini_branch ext messages n : keeps (gemini_branch ext messages n).
Proof.
  pose proof keeps_split_system. pose proof keeps_system_instruction.
  pose proof (keeps_gemini_contents ext).
  pose proof (keeps_get_next_message_gemini ext).
  unfold gemini_branch. keeps_step.
Qed.

Lemma keeps_openrouter_branch ext messages model n :
  model_in model [openrouter_claude_3_5_sonnet; openrouter_model;
                  openrouter_o1; openrouter_o1_mini] = true ->
  keeps (openrouter_branch ext messages model n).
Proof.
  intros Hm. pose proof keeps_text_only_messages.
  pose proof (fun task ms => keeps_retry_range ext task ms model 5 5%nat Hm 0).
  unfold openrouter_branch, get_message_with_retry. keeps_step.
Qed.

(** *** The Haiku path: the translation works on new messages *)

Lemma reads_run {A} (m : M A) w r w1 : reads m -> m w = (r, w1) -> w1 = w.
Proof. intros H E. specialize (H w). now rewrite E in H. Qed.

Lemma reads_ret {A} (a : A) : reads (ret a).
Proof. now intros w. Qed.

Lemma reads_raise {A} e : reads (@raise A e).
Proof. now intros w. Qed.

Lemma reads_lift {A} (o : outcome A) : reads (lift o).
Proof. now intros w. Qed.

Lemma reads_get_msg l : reads (get_msg l).
Proof. intros w. unfold get_msg. now destruct (msgs w !! l). Qed.

Lemma reads_get_part l : reads (get_part l).
Proof. intros w. unfold get_part. now destruct (parts w !! l). Qed.

Lemma reads_bind {A B} (m : M A) (k : A -> M B) :
  reads m -> (forall a, reads (k a)) -> reads (bind m k).
Proof.
  intros Hm Hk w. unfold bind. specialize (Hm w).
  destruct (m w) as [[a|e] w1]; cbn in *; subst; [apply Hk|reflexivity].
Qed.

Create HintDb reads.
#[local] Hint Resolve reads_ret reads_raise reads_lift reads_get_msg
  reads_get_part : reads.

Ltac reads_step :=
  repeat first
    [ solve [auto with reads]
    | apply reads_bind; [|intros ?]
    | match goal with
      | |- reads (if ?b then _ else _) => destruct b
      | |- reads (match ?x with _ => _ end) => destruct x
      end ].

Lemma reads_text_parts ps acc : reads (text_parts ps acc).
Proof. revert acc. induction ps as [|l ps IH]; intros acc; cbn [text_parts]; reads_step. Qed.

Lemma reads_split_system messages : reads (split_system messages).
Proof. unfold split_system. reads_step. Qed.

Lemma split_system_sub messages w sm w1 :
  split_system messages w = (Ret sm, w1) ->
  w1 = w /\ forall l, l ∈ sm.2 -> l ∈ messages.
Proof.
  intros H. split; [exact (reads_run _ _ _ _ (reads_split_system messages) H)|].
  unfold split_system in H. destruct messages as [|l0 rest]; [discriminate|].
  apply bind_ret_inv in H as (m & w2 & _ & H).
  destruct (String.eqb (role m) "system"); injection H as <- _; cbn; auto.
  intros l Hl. now right.
Qed.

Lemma text_only_loop_new messages : forall acc w ls w',
  text_only_loop messages acc w = (Ret ls, w') ->
  store_kept w w' /\
  forall l, l ∈ ls -> l ∈ acc \/ new_string_msg w w' l.
Proof.
  induction messages as [|l0 ms IH]; intros acc w ls w' H.
  - injection H as <- <-. split; [apply store_kept_refl|auto].
  - cbn [text_only_loop] in H.
    apply bind_ret_inv in H as (m & w1 & H1 & H).
    apply reads_run in H1 as ->; [|apply reads_get_msg].
    apply bind_ret_inv in H as (cs & w2 & H2 & H).
    assert (w2 = w) as ->.
    { destruct (msg_content m).
      - now injection H2 as _ <-.
      - exact (reads_run _ _ _ _ (reads_text_parts _ _) H2). }
    destruct cs as [|c cs]; [now apply IH|].
    apply bind_ret_inv in H as (ss & w3 & H3 & H).
    apply reads_run in H3 as ->; [|apply reads_lift].
    apply bind_ret_inv in H as (l' & w4 & H4 & H).
    unfold alloc_msg in H4. injection H4 as <- <-.
    set (l' := fresh (dom (msgs w))) in *.
    assert (Hfresh : msgs w !! l' = None)
      by (apply not_elem_of_dom, is_fresh).
    apply IH in H as [Hk Hn].
    assert (Hk0 : store_kept w w').
    { eapply store_kept_trans; [|exact Hk]. apply (keeps_alloc_msg _ w). }
    split; [exact Hk0|]. intros l Hl.
    destruct (Hn l Hl) as [Ha|[Hnone Hs]].
    + apply elem_of_app in Ha as [Ha|Ha]; [now left|].
      apply list_elem_of_singleton in Ha as ->. right. split; [exact Hfresh|].
      destruct Hk as [Hk _]. eexists _, _. apply Hk. cbn.
      apply lookup_insert_eq.
    + right. split; [|exact Hs]. cbn in Hnone.
      apply lookup_insert_None in Hnone as [? _]. assumption.
Qed.

Lemma translate_messages_strings messages : forall c w,
  (forall l, l ∈ messages -> exists r s, msgs w !! l = Some (Msg r (CStr s))) ->
  translate_messages messages c w = (Ret c, w).
Proof.
  induction messages as [|l ms IH]; intros c w H; [reflexivity|].
  destruct (H l) as (r & s & E); [left|].
  cbn [translate_messages]. unfold bind, get_msg. rewrite E. cbn.
  apply IH. intros l' Hl'. apply H. now right.
Qed.

Lemma mark_last_new w0 w messages :
  store_kept w0 w ->
  (forall l, l ∈ messages -> new_string_msg w0 w l) ->
  store_kept w0 (mark_last messages w).2.
Proof.
  intros Hk Hnew. unfold mark_last.
  destruct (last messages) as [l|] eqn:El; [|exact Hk].
  assert (Hl : l ∈ messages).
  { apply last_Some in El as [l' ->]. apply elem_of_app. right. left. }
  destruct (Hnew l Hl) as (Hnone & r & s & Em).
  unfold bind, get_msg, alloc_part, set_msg, get_part, set_part, ret.
  rewrite Em. cbn. rewrite lookup_insert_eq. cbn.
  destruct Hk as [Hkm Hkp]. split; cbn.
  - intros l1 m1 H1. rewrite lookup_insert_ne; [auto|]. intros <-. congruence.
  - intros l1 p1 H1. apply Hkp in H1.
    assert (l1 <> fresh (dom (parts w))).
    { intros ->. pose proof (is_fresh (dom (parts w))) as Hf.
      apply not_elem_of_dom in Hf. congruence. }
    now rewrite !lookup_insert_ne by auto.
Qed.

Lemma bind_kept {A B} w0 (m : M A) (k : A -> M B) w :
  store_kept w0 (m w).2 ->
  (forall a w1, m w = (Ret a, w1) -> store_kept w0 w1 -> store_kept w0 (k a w1).2) ->
  store_kept w0 (bind m k w).2.
Proof.
  intros Hm Hk. unfold bind. destruct (m w) as [[a|e] w1] eqn:E; cbn in *; auto.
Qed.

Lemma keeps_kept {A} w0 (m : M A) w :
  keeps m -> store_kept w0 w -> store_kept w0 (m w).2.
Proof. intros Hm Hk. eapply store_kept_trans; [exact Hk|apply Hm]. Qed.

Lemma anthropic_branch_haiku_kept ext messages st n w :
  store_kept w (anthropic_branch ext messages claude_3_5_haiku st n w).2.
Proof.
  unfold anthropic_branch. decide_models.
  apply bind_kept; [apply keeps_text_only_messages|].
  intros ls w1 Hrun Hk1.
  apply text_only_loop_new in Hrun as [_ Hnew].
  assert (Hnew' : forall l, l ∈ ls -> new_string_msg w w1 l).
  { intros l Hl. destruct (Hnew l Hl) as [Ha|Hn]; [inversion Ha|exact Hn]. }
  apply bind_kept; [apply keeps_kept; auto using keeps_env_key|].
  intros u w2 Hrun2 Hk2.
  apply reads_run in Hrun2 as ->;
    [|unfold env_key; destruct (environ ext !! _); auto with reads].
  apply bind_kept.
  - unfold anthropic_translate.
    apply bind_kept; [apply keeps_kept; auto using keeps_split_system|].
    intros sm w3 Hs _. apply split_system_sub in Hs as [-> Hsub].
    assert (Hsm : forall l, l ∈ sm.2 -> new_string_msg w w1 l) by auto.
    unfold bind at 1.
    rewrite translate_messages_strings
      by (intros l Hl; destruct (Hsm l Hl) as [_ ?]; assumption).
    apply bind_kept; [now apply mark_last_new|].
    intros u4 w4 Hr4 Hk4. exact Hk4.
  - intros u3 w3 Hr3 Hk3.
    apply keeps_kept; [|exact Hk3].
    pose proof (keeps_get_next_message_anthropic ext). keeps_step.
Qed.

(** C6, as stated, fails: for an OpenAI model the role of the caller's
    leading system message is renamed in place, and for
    [claude_3_5_sonnet] the caller's content parts lose and gain cache
    hints in place. *)
Lemma get_next_messages_edits_caller :
  msgs system_world !! 0%nat = Some (Msg "system" (CStr "be brief")) /\
  msgs (get_next_messages ext_ok system_conversation gpt_4o 1 system_world).2 !! 0%nat
  = Some (Msg "developer" (CStr "be brief")) /\
  ~ store_kept system_world
      (get_next_messages ext_ok system_conversation gpt_4o 1 system_world).2 /\
  hinted_b five_hints_world 2%nat = true /\
  hinted_b (get_next_messages ext_ok five_hints_conversation claude_3_5_sonnet 1
              five_hints_world).2 2%nat = false.
Proof.
  assert (E : msgs (get_next_messages ext_ok system_conversation gpt_4o 1
                      system_world).2 !! 0%nat
              = Some (Msg "developer" (CStr "be brief")))
    by (vm_compute; reflexivity).
  split_and!; [reflexivity|exact E| |reflexivity|vm_compute; reflexivity].
  intros [Hm _].
  assert (H1 : msgs (get_next_messages ext_ok system_conversation gpt_4o 1
                       system_world).2 !! 0%nat
               = Some (Msg "system" (CStr "be brief")))
    by (apply Hm; reflexivity).
  rewrite E in H1. discriminate.
Qed.

(** C6, amended.  For every model other than [claude_3_5_sonnet] and the
    OpenAI models, and for every model when [n_times <= 0], the
    dictionaries of the caller's conversation (messages and content
    parts) are the same after the call, however it ends: the translation
    steps of these branches work on new dictionaries or only read. *)
Theorem get_next_messages_store_kept (ext : external) (messages : list loc)
    (model : Model) (n_times : Z) (w : world) :
  n_times <= 0 \/ edits_in_place model = false ->
  store_kept w (get_next_messages ext messages model n_times w).2.
Proof.
  intros H. unfold get_next_messages.
  destruct (Z.leb_spec n_times 0) as [Hn|Hn]; [apply store_kept_refl|].
  destruct H as [H|H]; [lia|].
  destruct model; vm_compute in H; try discriminate H; decide_models; cbv zeta;
    first [ apply anthropic_branch_haiku_kept
          | apply keeps_deepseek_branch
          | apply keeps_xai_branch
          | apply keeps_gemini_branch
          | apply keeps_openrouter_branch; reflexivity
          | apply store_kept_refl ].
Qed.

Lemma get_next_messages_store_kept_witness :
  store_kept mixed_world
    (get_next_messages ext_ok mixed_conversation claude_3_5_haiku 2 mixed_world).2.
Proof.
  apply get_next_messages_store_kept. right. reflexivity.
Defined.

(** ** The cache hints of the Anthropic translation *)

Lemma hinted_b_spec w l : hinted_b w l = true <-> hinted w l.
Proof.
  unfold hinted_b, hinted. destruct (parts w !! l) as [p|].
  - rewrite bool_decide_eq_true. split; [eauto|].
    intros (q & [= <-] & H). exact H.
  - split; [discriminate|]. intros (q & [=] & _).
Qed.

Lemma elem_of_conv_parts w messages x :
  x ∈ conv_parts w messages <->
  exists l, l ∈ messages /\ x ∈ content_parts w l.
Proof.
  unfold conv_parts. induction messages as [|l ms IH]; cbn [map concat].
  - split; [intros H; inversion H|intros (l & H & _); inversion H].
  - rewrite elem_of_app, IH. split.
    + intros [H|(l' & H1 & H2)]; [exists l; split; [left|exact H]|].
      exists l'. split; [now right|exact H2].
    + intros (l' & H1 & H2). apply elem_of_cons in H1 as [->|H1]; [now left|].
      right. eauto.
Qed.

Lemma conv_parts_same w w' messages :
  msgs w' = msgs w -> conv_parts w' messages = conv_parts w messages.
Proof. intros E. unfold conv_parts, content_parts. now rewrite E. Qed.

(** Writing a part whose hint is the one it had. *)
Lemma hinted_set_same w l p p' tr x :
  parts w !! l = Some p ->
  p' !! "cache_control" = p !! "cache_control" ->
  hinted (World (msgs w) (<[l := p']> (parts w)) tr) x <-> hinted w x.
Proof.
  intros Ep Ec. unfold hinted. cbn. destruct (decide (x = l)) as [->|Hne].
  - rewrite lookup_insert_eq. split.
    + intros (q & [= <-] & H). exists p. rewrite <- Ec. auto.
    + intros (q & Hq & H). exists p'. split; [reflexivity|].
      rewrite Ec. congruence.
  - now rewrite lookup_insert_ne by auto.
Qed.

Lemma reshape_image_hints l w r w' :
  reshape_image l w = (r, w') ->
  msgs w' = msgs w /\ forall x, hinted w' x <-> hinted w x.
Proof.
  unfold reshape_image, bind, get_part, lift, set_part, ret, part_get.
  destruct (parts w !! l) as [p|] eqn:Ep; [|intros [= _ <-]; tauto].
  destruct (p !! "type") as [ty|] eqn:Ety; [|intros [= _ <-]; tauto].
  destruct (val_is "image_url" ty); [|intros [= _ <-]; tauto].
  cbn. rewrite lookup_insert_eq.
  destruct (image_url_of (<["type":=VStr "image"]> p)) as [url|e]; cbn.
  - rewrite lookup_insert_eq. intros [= _ <-]. cbn. split; [reflexivity|].
    intros x. rewrite !insert_insert_eq.
    apply (hinted_set_same w l p); [exact Ep|].
    rewrite lookup_delete_ne, !lookup_insert_ne by discriminate. reflexivity.
  - intros [= _ <-]. cbn. split; [reflexivity|].
    intros x. apply (hinted_set_same w l p); [exact Ep|].
    now rewrite lookup_insert_ne by discriminate.
Qed.

(** One step of the count: the hint of the part is kept below the third
    hint, deleted from the third on. *)
Lemma cap_cache_control_hints l c w c' w' :
  cap_cache_control l c w = (Ret c', w') ->
  msgs w' = msgs w /\
  ((~ hinted w l /\ c' = c /\ w' = w)
   \/ (hinted w l /\ c' = c + 1 /\ c + 1 < 3 /\ w' = w)
   \/ (hinted w l /\ c' = c + 1 /\ 3 <= c + 1 /\
       forall x, hinted w' x <-> hinted w x /\ x <> l)).
Proof.
  unfold cap_cache_control, bind, get_part, set_part, ret.
  destruct (parts w !! l) as [p|] eqn:Ep; [|discriminate].
  destruct (p !! "cache_control") as [v|] eqn:Ec.
  - assert (Hh : hinted w l) by (exists p; rewrite Ec; eauto).
    destruct (Z.leb_spec 3 (c + 1)) as [Hc|Hc]; intros [= <- <-]; cbn;
      (split; [reflexivity|]); [right; right|right; left]; split_and!; auto.
    intros x. unfold hinted. cbn. destruct (decide (x = l)) as [->|Hne].
    + rewrite lookup_insert_eq. split.
      * intros (q & [= <-] & H). rewrite lookup_delete_eq in H.
        destruct H as [? [=]].
      * intros [_ H]. congruence.
    + rewrite lookup_insert_ne by auto. tauto.
  - intros [= <- <-]. split; [reflexivity|]. left. split_and!; auto.
    intros (q & Hq & H). rewrite Ep in Hq. injection Hq as <-.
    rewrite Ec in H. destruct H as [? [=]].
Qed.

Lemma translate_parts_covered ps : forall c w c' w' V K,
  translate_parts ps c w = (Ret c', w') ->
  (length K <= 2)%nat -> Z.of_nat (length K) <= c ->
  covered w V K ->
  msgs w' = msgs w /\
  exists K', (length K' <= 2)%nat /\ Z.of_nat (length K') <= c' /\
             covered w' (V ++ ps) K'.
Proof.
  induction ps as [|l ps IH]; intros c w c' w' V K H HK Hc Hcov.
  - injection H as <- <-. split; [reflexivity|]. exists K.
    rewrite app_nil_r. auto.
  - cbn [translate_parts] in H.
    apply bind_ret_inv in H as (u & w1 & H1 & H).
    apply reshape_image_hints in H1 as [Hm1 Hh1].
    apply bind_ret_inv in H as (c1 & w2 & H2 & H).
    apply cap_cache_control_hints in H2 as [Hm2 Hcase].
    assert (Hstep : exists K1, (length K1 <= 2)%nat /\ Z.of_nat (length K1) <= c1 /\
                               covered w2 (V ++ [l]) K1).
    { destruct Hcase as [(Hn & -> & ->)|[(Hh & -> & Hlt & ->)|(Hh & -> & Hge & Hd)]].
      - exists K. split_and!; auto. intros x Hx Hhx.
        apply elem_of_app in Hx as [Hx|Hx].
        + apply Hcov; [exact Hx|]. now apply Hh1.
        + apply list_elem_of_singleton in Hx as ->. tauto.
      - exists (l :: K). cbn [length]. split_and!; [lia|lia|].
        intros x Hx Hhx. apply elem_of_app in Hx as [Hx|Hx].
        + right. apply Hcov; [exact Hx|]. now apply Hh1.
        + apply list_elem_of_singleton in Hx as ->. left.
      - exists K. split_and!; [auto|lia|]. intros x Hx Hhx.
        apply Hd in Hhx as [Hhx Hne]. apply elem_of_app in Hx as [Hx|Hx].
        + apply Hcov; [exact Hx|]. now apply Hh1.
        + apply list_elem_of_singleton in Hx. contradiction. }
    destruct Hstep as (K1 & HK1 & Hc1 & Hcov1).
    destruct (IH _ _ _ _ _ _ H HK1 Hc1 Hcov1) as (Hm & K' & HK' & Hc' & Hcov').
    split; [congruence|]. exists K'. split_and!; auto.
    now rewrite <- app_assoc in Hcov'.
Qed.

Lemma translate_messages_covered messages : forall c w c' w' V K,
  translate_messages messages c w = (Ret c', w') ->
  (length K <= 2)%nat -> Z.of_nat (length K) <= c ->
  covered w V K ->
  msgs w' = msgs w /\
  exists K', (length K' <= 2)%nat /\ Z.of_nat (length K') <= c' /\
             covered w' (V ++ conv_parts w messages) K'.
Proof.
  induction messages as [|l ms IH]; intros c w c' w' V K H HK Hc Hcov.
  - injection H as <- <-. split; [reflexivity|]. exists K.
    unfold conv_parts. cbn. rewrite app_nil_r. auto.
  - cbn [translate_messages] in H.
    apply bind_ret_inv in H as (m & w1 & H1 & H).
    pose proof (reads_run _ _ _ _ (reads_get_msg l) H1) as ->.
    unfold get_msg in H1. destruct (msgs w !! l) as [m'|] eqn:El; [|discriminate].
    injection H1 as ->.
    apply bind_ret_inv in H as (c1 & w2 & H2 & H).
    assert (Hstep : msgs w2 = msgs w /\
                    exists K1, (length K1 <= 2)%nat /\ Z.of_nat (length K1) <= c1 /\
                               covered w2 (V ++ content_parts w l) K1).
    { unfold content_parts. rewrite El. destruct m as [r [s|ps]]; cbn in *.
      - injection H2 as <- <-. split; [reflexivity|]. exists K.
        rewrite app_nil_r. auto.
      - eapply translate_parts_covered; eauto. }
    destruct Hstep as (Hm2 & K1 & HK1 & Hc1 & Hcov1).
    destruct (IH _ _ _ _ _ _ H HK1 Hc1 Hcov1) as (Hm & K' & HK' & Hc' & Hcov').
    split; [congruence|]. exists K'. split_and!; auto.
    rewrite (conv_parts_same _ _ _ Hm2) in Hcov'.
    unfold conv_parts in *. cbn [map concat]. now rewrite app_assoc.
Qed.

Lemma content_parts_at w l m :
  msgs w !! l = Some m ->
  content_parts w l = match msg_content m with CList ps => ps | CStr _ => [] end.
Proof. intros E. unfold content_parts. rewrite E. now destruct m as [r [s|ps]]. Qed.

Lemma mark_last_hints messages w u w' :
  mark_last messages w = (Ret u, w') ->
  exists pl,
    final_part w' messages = Some pl /\ hinted w' pl /\
    forall x, x ∈ conv_parts w' messages -> hinted w' x ->
              x = pl \/ (x ∈ conv_parts w messages /\ hinted w x).
Proof.
  unfold mark_last, final_part.
  destruct (last messages) as [lm|] eqn:El; [|discriminate]. intros H.
  apply bind_ret_inv in H as (m & w1 & H1 & H).
  pose proof (reads_run _ _ _ _ (reads_get_msg lm) H1) as ->.
  unfold get_msg in H1. destruct (msgs w !! lm) as [m'|] eqn:Em; [|discriminate].
  injection H1 as ->.
  apply bind_ret_inv in H as (ps & w2 & H2 & H).
  destruct (msg_content m) as [s|ps0] eqn:Ec.
  - unfold bind, alloc_part, set_msg, ret in H2. cbn in H2.
    injection H2 as <- <-. cbn [last] in H.
    set (pl := fresh (dom (parts w))) in *.
    assert (Hfresh : parts w !! pl = None) by (apply not_elem_of_dom, is_fresh).
    unfold bind, get_part, set_part in H. cbn in H.
    rewrite lookup_insert_eq in H. injection H as <- <-.
    exists pl. split_and!.
    + erewrite content_parts_at by (cbn; apply lookup_insert_eq). reflexivity.
    + eexists. cbn. split; [apply lookup_insert_eq|].
      rewrite lookup_insert_eq. eauto.
    + intros x Hx Hh. destruct (decide (x = pl)) as [->|Hne]; [now left|]. right.
      split.
      * apply elem_of_conv_parts in Hx as (l & Hl & Hx).
        apply elem_of_conv_parts. exists l. split; [exact Hl|].
        unfold content_parts in *. cbn in Hx.
        destruct (decide (l = lm)) as [->|Hl'].
        -- rewrite lookup_insert_eq in Hx.
           apply list_elem_of_singleton in Hx. contradiction.
        -- now rewrite lookup_insert_ne in Hx by auto.
      * destruct Hh as (q & Hq & Hs). cbn in Hq.
        rewrite !lookup_insert_ne in Hq by auto. exists q. auto.
  - injection H2 as <- <-.
    destruct (last ps0) as [pl|] eqn:Ep; [|discriminate].
    unfold bind, get_part, set_part in H.
    destruct (parts w !! pl) as [p|] eqn:Epl; [|discriminate].
    injection H as <- <-.
    exists pl. split_and!.
    + erewrite content_parts_at by (cbn; exact Em). now rewrite Ec.
    + eexists. cbn. split; [apply lookup_insert_eq|].
      rewrite lookup_insert_eq. eauto.
    + intros x Hx Hh. destruct (decide (x = pl)) as [->|Hne]; [now left|]. right.
      split; [exact Hx|].
      destruct Hh as (q & Hq & Hs). cbn in Hq.
      rewrite lookup_insert_ne in Hq by auto. exists q. auto.
Qed.

Lemma size_list_to_set_le (K : list loc) :
  (size (list_to_set K : gset loc) <= length K)%nat.
Proof.
  induction K as [|x K IH]; cbn [list_to_set length].
  - now rewrite size_empty.
  - rewrite size_union_alt, size_singleton.
    assert (Hs : (list_to_set K ∖ {[x]} : gset loc) ⊆ list_to_set K)
      by (intros y Hy; now apply elem_of_difference in Hy as [? _]).
    apply subseteq_size in Hs. lia.
Qed.

(** C5, amended.  After the Anthropic translation, the last part of the
    last message carries a cache hint, and at most two other parts of
    the translated messages do: at most three parts in all. *)
Theorem anthropic_translate_hints (messages : list loc) (w : world)
    (sm : content * list loc) (w' : world) :
  anthropic_translate messages w = (Ret sm, w') ->
  exists pl K,
    final_part w' sm.2 = Some pl /\ hinted w' pl /\
    (length K <= 2)%nat /\
    (forall x, x ∈ conv_parts w' sm.2 -> hinted w' x -> x = pl \/ x ∈ K) /\
    (size (hinted_parts w' sm.2) <= 3)%nat.
Proof.
  unfold anthropic_translate. intros H.
  apply bind_ret_inv in H as (sm0 & w1 & H1 & H).
  pose proof (reads_run _ _ _ _ (reads_split_system messages) H1) as ->.
  apply bind_ret_inv in H as (c & w2 & H2 & H).
  apply bind_ret_inv in H as (u & w3 & H3 & H).
  injection H as <- <-.
  destruct (translate_messages_covered _ _ _ _ _ [] [] H2) as (Hm & K & HK & _ & Hcov);
    [cbn; lia|cbn; lia|intros x Hx; inversion Hx|].
  cbn [app] in Hcov.
  destruct (mark_last_hints _ _ _ _ H3) as (pl & Hf & Hh & Hall).
  assert (Hin : forall x, x ∈ conv_parts w3 sm0.2 -> hinted w3 x -> x = pl \/ x ∈ K).
  { intros x Hx Hhx. destruct (Hall x Hx Hhx) as [->|[Hx2 Hh2]]; [now left|].
    right. apply Hcov; [|exact Hh2]. now rewrite <- (conv_parts_same _ _ _ Hm). }
  exists pl, K. split_and!; auto.
  transitivity (size ({[pl]} ∪ list_to_set K : gset loc)).
  - apply subseteq_size. intros x Hx. unfold hinted_parts in Hx.
    apply elem_of_list_to_set, list_elem_of_In, filter_In in Hx as [Hx Hb].
    apply list_elem_of_In in Hx. apply hinted_b_spec in Hb.
    destruct (Hin x Hx Hb) as [->|HxK].
    + apply elem_of_union_l, elem_of_singleton. reflexivity.
    + apply elem_of_union_r, elem_of_list_to_set. exact HxK.
  - rewrite size_union_alt, size_singleton.
    pose proof (size_list_to_set_le K).
    assert (Hs : (list_to_set K ∖ {[pl]} : gset loc) ⊆ list_to_set K)
      by (intros y Hy; now apply elem_of_difference in Hy as [? _]).
    apply subseteq_size in Hs. lia.
Qed.

Lemma anthropic_translate_hints_witness :
  exists pl,
    final_part (anthropic_translate five_hints_conversation five_hints_world).2
      five_hints_conversation = Some pl /\
    hinted (anthropic_translate five_hints_conversation five_hints_world).2 pl /\
    (size (hinted_parts
             (anthropic_translate five_hints_conversation five_hints_world).2
             five_hints_conversation) <= 3)%nat.
Proof.
  destruct (anthropic_translate_hints five_hints_conversation five_hints_world
              (CList [], five_hints_conversation)
              (anthropic_translate five_hints_conversation five_hints_world).2)
    as (pl & K & Hf & Hh & _ & _ & Hs).
  - vm_compute. reflexivity.
  - exists pl. auto.
Defined.

(** C5, as stated, fails: of five hinted parts, three carry a hint after
    the translation, the first two and the last. *)
Lemma five_hints_three_survive :
  map (hinted_b five_hints_world) [0; 1; 2; 3; 4]%nat
  = [true; true; true; true; true] /\
  conv_parts (anthropic_translate five_hints_conversation five_hints_world).2
    five_hints_conversation = [0; 1; 2; 3; 4]%nat /\
  map (hinted_b (anthropic_translate five_hints_conversation five_hints_world).2)
    [0; 1; 2; 3; 4]%nat
  = [true; true; false; false; true] /\
  size (hinted_parts
          (anthropic_translate five_hints_conversation five_hints_world).2
          five_hints_conversation) = 3%nat.
Proof. split_and!; vm_compute; reflexivity. Qed.

(** ** The test flag *)

Lemma quiet_ret {A} (a : A) : quiet (ret a).
Proof. now intros w. Qed.
Lemma quiet_raise {A} e : quiet (@raise A e).
Proof. now intros w. Qed.
Lemma quiet_lift {A} (o : outcome A) : quiet (lift o).
Proof. now intros w. Qed.
Lemma quiet_get_msg l : quiet (get_msg l).
Proof. intros w. unfold get_msg. now destruct (msgs w !! l). Qed.
Lemma quiet_get_part l : quiet (get_part l).
Proof. intros w. unfold get_part. now destruct (parts w !! l). Qed.
Lemma quiet_alloc_msg m : quiet (alloc_msg m).
Proof. now intros w. Qed.
Lemma quiet_bind {A B} (m : M A) (k : A -> M B) :
  quiet m -> (forall a, quiet (k a)) -> quiet (bind m k).
Proof.
  intros Hm Hk w. unfold bind. specialize (Hm w).
  destruct (m w) as [[a|e] w1]; cbn in *; [|exact Hm].
  now rewrite Hk.
Qed.

Create HintDb quiet.
#[local] Hint Resolve quiet_ret quiet_raise quiet_lift quiet_get_msg
  quiet_get_part quiet_alloc_msg : quiet.

Ltac quiet_step :=
  repeat first
    [ solve [auto with quiet]
    | apply quiet_bind; [|intros ?]
    | match goal with
      | |- quiet (if ?b then _ else _) => destruct b
      | |- quiet (match ?x with _ => _ end) => destruct x
      end ].

Lemma quiet_text_parts ps acc : quiet (text_parts ps acc).
Proof. revert acc. induction ps as [|l ps IH]; intros acc; cbn [text_parts]; quiet_step. Qed.

Lemma quiet_text_only_messages messages : quiet (text_only_messages messages).
Proof.
  pose proof quiet_text_parts. unfold text_only_messages. generalize (@nil loc).
  induction messages as [|l ms IH]; intros acc; cbn [text_only_loop]; quiet_step.
Qed.

Lemma gather_const {A race} (tasks : list (M A)) (a : A) w :
  Forall (fun t : M A => t w = (Ret a, w)) tasks ->
  gather race tasks w = (Ret (replicate (length tasks) a), w).
Proof.
  induction 1 as [|t tasks Ht _ IH]; [reflexivity|].
  rewrite (gather_cons race t tasks w). cbn [length replicate]. now rewrite Ht, IH.
Qed.

Lemma length_tasks_from {A} first count (f : nat -> M A) :
  length (tasks_from first count f) = count.
Proof. unfold tasks_from. now rewrite length_map, length_seq. Qed.

Lemma drop_nones_replicate n (r : reply) :
  drop_nones (replicate n (Some r)) = replicate n r.
Proof. induction n as [|n IH]; [reflexivity|]. cbn. f_equal. exact IH. Qed.

Section NoWifi.
Variable ext : external.
Variable v : string.
Hypothesis Hflag : environ ext !! "NO_WIFI" = Some v.
Hypothesis Hone : PyStr.int v = Some 1.

Lemma no_wifi_on w : no_wifi ext w = (Ret true, w).
Proof. unfold no_wifi. now rewrite Hflag, Hone. Qed.

Lemma get_next_message_no_wifi task k messages model w :
  get_next_message ext task k messages model w = (Ret canned, w).
Proof. unfold get_next_message, bind. now rewrite no_wifi_on. Qed.

Lemma get_message_with_retry_no_wifi task messages model w :
  get_message_with_retry ext task messages model w = (Ret (Some canned), w).
Proof.
  unfold get_message_with_retry. cbn [retry_range]. unfold catch, bind.
  now rewrite get_next_message_no_wifi.
Qed.

End NoWifi.

(** C8, amended.  With the test flag set to 1, the legacy single call
    returns the canned response with zero usage for every model, with no
    request to a provider; so does the OpenRouter branch of the fan-out
    orchestrator, which goes through it: [n_times] canned responses and
    an unchanged trace.  The other branches do not read the flag. *)
Theorem no_wifi_canned (ext : external) (v : string) :
  environ ext !! "NO_WIFI" = Some v ->
  PyStr.int v = Some 1 ->
  (forall task k messages model w,
     get_next_message ext task k messages model w = (Ret canned, w)) /\
  (forall messages model n_times w,
     0 < n_times ->
     model_in model openrouter_models = true ->
     is_Some (environ ext !! "OPENROUTER_API_KEY") ->
     get_next_messages ext messages model n_times w
     = (let* _ :=
          if model_in model [openrouter_model; openrouter_o1; openrouter_o1_mini]
          then text_only_messages messages else ret messages in
        ret (Some (replicate (Z.to_nat n_times) canned))) w
     /\ trace (get_next_messages ext messages model n_times w).2 = trace w).
Proof.
  intros Hflag Hone. split.
  - intros. now apply (get_next_message_no_wifi ext v).
  - intros messages model n_times w Hn Hm [key Hkey].
    assert (E : get_next_messages ext messages model n_times w
                = (let* _ :=
                     if model_in model [openrouter_model; openrouter_o1; openrouter_o1_mini]
                     then text_only_messages messages else ret messages in
                   ret (Some (replicate (Z.to_nat n_times) canned))) w).
    { unfold get_next_messages.
      destruct (Z.leb_spec n_times 0) as [?|_]; [lia|].
      assert (Hb : openrouter_branch ext messages model (Z.to_nat n_times) w
                   = (let* _ :=
                        if model_in model [openrouter_model; openrouter_o1; openrouter_o1_mini]
                        then text_only_messages messages else ret messages in
                      ret (Some (replicate (Z.to_nat n_times) canned))) w).
      { unfold openrouter_branch, env_key. rewrite Hkey. unfold bind, ret.
        destruct ((if model_in model [openrouter_model; openrouter_o1; openrouter_o1_mini]
                   then text_only_messages messages else fun w => (Ret messages, w)) w)
          as [[ms|e] w1]; [|reflexivity].
        rewrite (gather_const _ (Some canned)).
        - now rewrite length_tasks_from, drop_nones_replicate.
        - apply Forall_forall. intros t Ht.
          apply list_elem_of_In, in_map_iff in Ht as (i & <- & _).
          now apply (get_message_with_retry_no_wifi ext v). }
      destruct model; try discriminate Hm; decide_models; cbv zeta; exact Hb. }
    split; [exact E|]. rewrite E.
    apply (quiet_bind _ (fun _ => ret _)); [|auto with quiet].
    destruct (model_in model [openrouter_model; openrouter_o1; openrouter_o1_mini]);
      auto using quiet_text_only_messages with quiet.
Qed.

Lemma no_wifi_canned_witness :
  get_next_message ext_no_wifi 0 0 system_conversation gpt_4o system_world
  = (Ret canned, system_world) /\
  get_next_messages ext_no_wifi system_conversation openrouter_model 3 system_world
  = (let* _ := text_only_messages system_conversation in
     ret (Some [canned; canned; canned])) system_world.
Proof.
  destruct (no_wifi_canned ext_no_wifi "1" eq_refl eq_refl) as [H1 H2].
  split; [apply H1|].
  apply (H2 system_conversation openrouter_model 3 system_world);
    [lia|reflexivity|eexists; reflexivity].
Defined.

(** C8, as stated, fails: with the flag set, the OpenAI branch of the
    fan-out orchestrator still sends its request and returns what the
    provider answers. *)
Lemma no_wifi_ignored_by_fan_out :
  environ ext_no_wifi !! "NO_WIFI" = Some "1" /\
  (get_next_messages ext_no_wifi system_conversation gpt_4o 1 system_world).1
  = Ret (Some [("ok", None)]) /\
  ("ok", None) <> canned /\
  trace (get_next_messages ext_no_wifi system_conversation gpt_4o 1 system_world).2
  = [EvCall 0 0 (Some 16384) false].
Proof. split_and!; try (vm_compute; reflexivity). discriminate. Qed.

(** ** When the adapters return

    The Anthropic, DeepSeek, OpenAI and xAI adapters return whatever
    the provider does; the Gemini adapter returns when the reading of
    the text of the response does not raise. *)

Lemma attempts_left_fuel_next mr rc fuel :
  (attempts_left mr rc <= S fuel)%nat ->
  exhausted mr (rc + 1) = false ->
  (attempts_left mr (rc + 1) <= fuel)%nat.
Proof.
  unfold attempts_left, exhausted. intros H E. apply Z.leb_gt in E. lia.
Qed.

Lemma attempts_left_pos mr rc : (attempts_left mr rc <= 0)%nat -> False.
Proof. unfold attempts_left. lia. Qed.

Lemma attempts_left_start mr : (attempts_left mr 0 <= S (Z.to_nat mr))%nat.
Proof. unfold attempts_left. lia. Qed.

Section AdapterReturns.
Variable ext : external.
Variable task : nat.

Lemma anthropic_loop_returns rs mr st fuel : forall rc k,
  (attempts_left mr rc <= fuel)%nat ->
  returns (anthropic_loop ext task rs mr st fuel rc k).
Proof.
  induction fuel as [|fuel IH]; intros rc k Hf w.
  - now apply attempts_left_pos in Hf.
  - cbn [anthropic_loop]. unfold bind, sleep. rewrite !emit_extend.
    destruct (attempt ext task k) as [r|[c t]]; [eexists _, _; reflexivity|].
    assert (Hretry : exists a w',
               (if exhausted mr (rc + 1) then ret None
                else fun w0 =>
                  let (o, w'0) := emit (EvSleep rs) w0 in
                  match o with
                  | Ret _ => anthropic_loop ext task rs mr st fuel (rc + 1) (S k) w'0
                  | Raise e => (Raise e, w'0)
                  end) (extend w [EvCall task k (Some 8192) st]) = (Ret a, w')).
    { destruct (exhausted mr (rc + 1)) eqn:E; [eexists _, _; reflexivity|].
      rewrite emit_extend. apply IH. now apply attempts_left_fuel_next. }
    destruct c; try exact Hretry;
      cbn [exn_str]; destruct (PyStr.contains _ t);
      first [exact Hretry | eexists _, _; reflexivity].
Qed.

Lemma gemini_loop_returns rs mr fuel :
  (forall k, response_text ext task k = None) ->
  forall rc k,
    (attempts_left mr rc <= fuel)%nat ->
    returns (gemini_loop ext task rs mr fuel rc k).
Proof.
  intros Hread. induction fuel as [|fuel IH]; intros rc k Hf w.
  - now apply attempts_left_pos in Hf.
  - cbn [gemini_loop]. unfold bind, sleep, read_text. rewrite !emit_extend.
    destruct (attempt ext task k) as [r|e];
      [rewrite Hread; eexists _, _; reflexivity|].
    destruct (PyStr.contains _ _); [eexists _, _; reflexivity|].
    destruct (exhausted mr (rc + 1)) eqn:E; [eexists _, _; reflexivity|].
    rewrite emit_extend. apply IH. now apply attempts_left_fuel_next.
Qed.

Lemma deepseek_loop_returns rs mr st fuel : forall rc mt k,
  (attempts_left mr rc <= fuel)%nat ->
  returns (deepseek_loop ext task rs mr st fuel rc mt k).
Proof.
  induction fuel as [|fuel IH]; intros rc mt k Hf w.
  - now apply attempts_left_pos in Hf.
  - cbn [deepseek_loop]. unfold bind, sleep. rewrite !emit_extend.
    destruct (attempt ext task k) as [r|e]; [eexists _, _; reflexivity|].
    destruct (deepseek_budget _ _) as [mt'|]; [|eexists _, _; reflexivity].
    destruct (exhausted mr (rc + 1)) eqn:E; [eexists _, _; reflexivity|].
    rewrite emit_extend. apply IH. now apply attempts_left_fuel_next.
Qed.

Lemma plain_loop_returns body budget rs mr st fuel : forall rc k,
  (attempts_left mr rc <= fuel)%nat ->
  returns (plain_loop ext task body budget rs mr st fuel rc k).
Proof.
  induction fuel as [|fuel IH]; intros rc k Hf w.
  - now apply attempts_left_pos in Hf.
  - cbn [plain_loop]. unfold bind at 1.
    destruct (catch _ _ w) as [[[r|e]|e] w1] eqn:Ec.
    + eexists _, _; reflexivity.
    + destruct (exhausted mr (rc + 1)) eqn:E; [eexists _, _; reflexivity|].
      unfold bind, sleep. rewrite emit_extend. apply IH.
      now apply attempts_left_fuel_next.
    + exfalso. unfold catch, bind, ret in Ec.
      destruct (body w) as [[u|e0] w2]; [|discriminate].
      rewrite emit_extend in Ec. discriminate.
Qed.

Lemma get_next_message_anthropic_returns st :
  returns (get_next_message_anthropic ext task st).
Proof. apply anthropic_loop_returns, attempts_left_start. Qed.

Lemma get_next_message_openai_returns st :
  returns (get_next_message_openai ext task st).
Proof. apply plain_loop_returns, attempts_left_start. Qed.

Lemma get_next_message_xai_returns messages st :
  returns (get_next_message_xai ext task messages st).
Proof. apply plain_loop_returns, attempts_left_start. Qed.

Lemma get_next_message_gemini_returns :
  (forall k, response_text ext task k = None) ->
  returns (get_next_message_gemini ext task).
Proof. intros H. apply gemini_loop_returns; [exact H|apply attempts_left_start]. Qed.

Lemma get_next_message_deepseek_returns :
  returns (get_next_message_deepseek ext task false).
Proof.
  intros w. unfold get_next_message_deepseek, get_next_message_deepseek_with.
  unfold bind, ret. apply deepseek_loop_returns, attempts_left_start.
Qed.

End AdapterReturns.

(** ** The fan-out orchestrator *)

Lemma gather_returns {A race} (tasks : list (M A)) :
  Forall returns tasks -> returns (gather race tasks).
Proof.
  induction 1 as [|t tasks Ht _ IH]; intros w; [eexists _, _; reflexivity|].
  rewrite (gather_cons race t tasks w). destruct (Ht w) as (a & w1 & ->).
  destruct (IH w1) as (l & w2 & ->). eexists _, _; reflexivity.
Qed.

Lemma gather_length {A race} (tasks : list (M A)) : forall w l w',
  gather race tasks w = (Ret l, w') -> length l = length tasks.
Proof.
  induction tasks as [|t tasks IH]; intros w l w' H.
  - now injection H as <- _.
  - rewrite (gather_cons race t tasks w) in H.
    destruct (t w) as [[a|e] w1]; [|discriminate].
    destruct (gather race tasks w1) as [[l1|e] w2] eqn:E; [|discriminate].
    injection H as <- _. cbn. f_equal. eapply IH, E.
Qed.

Lemma drop_nones_length l : (length (drop_nones l) <= length l)%nat.
Proof.
  unfold drop_nones. induction l as [|[r|] l IH]; cbn; lia.
Qed.

Ltac inv_binds H :=
  repeat (let a := fresh "a" in
          let w := fresh "w" in
          let Hr := fresh "Hr" in
          apply bind_ret_inv in H as (a & w & Hr & H)).

Ltac gathered :=
  repeat match goal with
    | Hg : gather _ _ _ = (Ret _, _) |- _ =>
        apply gather_length in Hg; rewrite length_tasks_from in Hg
    end.

Lemma first_and_others_length first (others : list (option reply)) n :
  (1 <= n)%nat -> length others = (n - 1)%nat ->
  (length (drop_nones (first :: others)) <= n)%nat.
Proof.
  intros Hn Ho. pose proof (drop_nones_length (first :: others)). cbn in *. lia.
Qed.

Lemma all_length (n_messages : list (option reply)) n :
  length n_messages = n -> (length (drop_nones n_messages) <= n)%nat.
Proof. intros <-. apply drop_nones_length. Qed.

(** When the orchestrator returns a list, it holds at most [n_times]
    replies; with [n_times <= 0] it returns the empty list at once. *)
Lemma get_next_messages_zero ext messages model n_times w :
  n_times <= 0 ->
  get_next_messages ext messages model n_times w = (Ret (Some []), w).
Proof.
  intros H. unfold get_next_messages.
  now destruct (Z.leb_spec n_times 0) as [_|?]; [|lia].
Qed.

Lemma get_next_messages_length ext messages model n_times w l w' :
  get_next_messages ext messages model n_times w = (Ret (Some l), w') ->
  (length l <= Z.to_nat n_times)%nat.
Proof.
  unfold get_next_messages.
  destruct (Z.leb_spec n_times 0) as [Hn|Hn].
  { intros [= <- _]. cbn. lia. }
  assert (Hn1 : (1 <= Z.to_nat n_times)%nat) by lia.
  cbv zeta. generalize dependent (Z.to_nat n_times). intros n Hn1.
  generalize (stream_llm ext && (n_times =? 1)). intros st.
  destruct model; decide_models; intros H;
    try (unfold raise in H; discriminate H).
  1,2: unfold anthropic_branch in H; inv_binds H; injection H as <- _; gathered;
       now apply first_and_others_length.
  1-6: unfold openai_branch in H; inv_binds H; injection H as <- _; gathered;
       now apply first_and_others_length.
  1,2: unfold deepseek_branch in H; inv_binds H; discriminate H.
  1,2: unfold xai_branch in H; inv_binds H; injection H as <- _;
       destruct st; [inv_binds Hr0; injection Hr0 as <- _;
                     etransitivity; [apply drop_nones_length|cbn; lia]
                    |gathered; now apply all_length].
  1: unfold gemini_branch in H; inv_binds H; injection H as <- _; gathered;
     now apply all_length.
  all: unfold openrouter_branch in H; inv_binds H; injection H as <- _; gathered;
       now apply all_length.
Qed.

(** C1.  For the DeepSeek models the orchestrator gathers the replies
    and then falls off the end of its branch: whenever the call returns,
    it returns [None], not a list; and for [deep_seek_r1], with the
    credential set and a readable conversation, it does return. *)
Theorem get_next_messages_deepseek_none (ext : external) (messages : list loc)
    (model : Model) (n_times : Z) (w : world) :
  0 < n_times ->
  model_in model [deep_seek_r1; baseten_deepseek_r1] = true ->
  (forall r w',
     get_next_messages ext messages model n_times w = (Ret r, w') -> r = None)
  /\ (model = deep_seek_r1 ->
      is_Some (environ ext !! "DEEPSEEK_API_KEY") ->
      conversation_ok w messages = true ->
      exists w', get_next_messages ext messages model n_times w = (Ret None, w')).
Proof.
  intros Hn Hm.
  assert (E : get_next_messages ext messages model n_times w
              = deepseek_branch ext messages model (Z.to_nat n_times) w).
  { unfold get_next_messages. destruct (Z.leb_spec n_times 0) as [?|_]; [lia|].
    destruct model; try discriminate Hm; decide_models; reflexivity. }
  rewrite E. split.
  - intros r w' H. unfold deepseek_branch in H. inv_binds H. now injection H as <- _.
  - intros -> [key Hkey] Hok. unfold deepseek_branch. decide_models.
    erewrite bind_run by (unfold env_key; rewrite Hkey; reflexivity).
    destruct (text_only_loop_ok w messages [] w) as (ls & w1 & Hrun & _);
      [split_and!; auto|exact Hok|intros l Hl; inversion Hl|].
    erewrite bind_run by exact Hrun.
    destruct (get_next_message_deepseek_returns ext 0 w1) as (a & w2 & Ha).
    destruct (@gather_returns _ (race ext)
                (tasks_from 1 (Z.to_nat n_times - 1)
                   (fun i => get_next_message_deepseek ext i false))) with (w := w2)
      as (l & w3 & Hg).
    { apply Forall_forall. intros t Ht.
      apply list_elem_of_In, in_map_iff in Ht as (i & <- & _).
      apply get_next_message_deepseek_returns. }
    exists w3. unfold bind, ret. now rewrite Ha, Hg.
Qed.

Lemma get_next_messages_deepseek_none_witness :
  exists w',
    get_next_messages ext_ok hello_conversation deep_seek_r1 1 hello_world
    = (Ret None, w').
Proof.
  apply (get_next_messages_deepseek_none ext_ok hello_conversation deep_seek_r1 1
           hello_world);
    [lia|reflexivity|reflexivity|eexists; reflexivity|reflexivity].
Defined.

(** The reply of the provider is lost: the request is sent and answered,
    and the call returns [None]. *)
Example deepseek_reply_lost :
  attempt ext_ok 0 0 = Success ("ok", None) /\
  (get_next_messages ext_ok hello_conversation deep_seek_r1 1 hello_world).1
  = Ret None /\
  trace (get_next_messages ext_ok hello_conversation deep_seek_r1 1 hello_world).2
  = [EvCall 0 0 (Some 8192) false].
Proof. split_and!; vm_compute; reflexivity. Qed.

(** The loop of the legacy Anthropic branch has fuel to spare: an
    exception that leaves it is one that the provider raised. *)
Lemma legacy_anthropic_loop_raises ext task fuel : forall rc k w e w',
  (attempts_left 12 rc <= fuel)%nat ->
  legacy_anthropic_loop ext task fuel rc k w = (Raise e, w') ->
  exists j, attempt ext task j = Failure e.
Proof.
  induction fuel as [|fuel IH]; intros rc k w e w' Hf H.
  - now apply attempts_left_pos in Hf.
  - cbn [legacy_anthropic_loop] in H. unfold bind, sleep in H.
    rewrite !emit_extend in H.
    destruct (attempt ext task k) as [r|[c t]] eqn:Ea; [discriminate|].
    destruct c; try (injection H as <- _; eauto).
    destruct (exhausted 12 (rc + 1)) eqn:E.
    + injection H as <- _. eauto.
    + rewrite emit_extend in H. eapply IH; [|exact H].
      now apply attempts_left_fuel_next.
Qed.

(** * Further properties of the client *)

(** ** Retry loops under any provider *)

Section RetryBounds.
Variable ext : external.
Variable task : nat.

Lemma attempts_left_bound mr rc n :
  (1 <= n <= attempts_left mr (rc + 1))%nat ->
  exhausted mr (rc + 1) = false ->
  (1 <= S n <= attempts_left mr rc)%nat.
Proof.
  unfold attempts_left, exhausted. intros H E. apply Z.leb_gt in E. lia.
Qed.

Lemma attempts_left_ge_1 mr rc : (1 <= 1 <= attempts_left mr rc)%nat.
Proof. unfold attempts_left. lia. Qed.

Lemma anthropic_loop_shape rs mr st fuel : forall rc k w,
  (attempts_left mr rc <= fuel)%nat ->
  exists r n,
    (1 <= n <= attempts_left mr rc)%nat /\
    anthropic_loop ext task rs mr st fuel rc k w
    = (Ret r, extend w (retry_trace task (Some 8192) st rs k n)).
Proof.
  induction fuel as [|fuel IH]; intros rc k w Hf.
  - now apply attempts_left_pos in Hf.
  - cbn [anthropic_loop]. unfold bind, sleep. rewrite !emit_extend.
    assert (Hretry : exists r n,
               (1 <= n <= attempts_left mr rc)%nat /\
               (if exhausted mr (rc + 1) then ret None
                else fun w0 =>
                  let (o, w'0) := emit (EvSleep rs) w0 in
                  match o with
                  | Ret _ => anthropic_loop ext task rs mr st fuel (rc + 1) (S k) w'0
                  | Raise e => (Raise e, w'0)
                  end) (extend w [EvCall task k (Some 8192) st])
               = (Ret r, extend w (retry_trace task (Some 8192) st rs k n))).
    { destruct (exhausted mr (rc + 1)) eqn:E.
      - exists None, 1%nat. split; [apply attempts_left_ge_1|reflexivity].
      - rewrite emit_extend.
        destruct (IH (rc + 1) (S k)
                    (extend (extend w [EvCall task k (Some 8192) st]) [EvSleep rs]))
          as (r & n & Hn & Hrun); [now apply attempts_left_fuel_next|].
        exists r, (S n). split; [now apply attempts_left_bound|].
        rewrite Hrun, !extend_extend. destruct n as [|n]; [lia|]. reflexivity. }
    destruct (attempt ext task k) as [r|[c t]].
    + exists (Some r), 1%nat. split; [apply attempts_left_ge_1|reflexivity].
    + destruct c; try exact Hretry;
        cbn [exn_str]; destruct (PyStr.contains _ t); try exact Hretry;
        (exists None, 1%nat; split; [apply attempts_left_ge_1|reflexivity]).
Qed.

Lemma gemini_loop_shape rs mr fuel : forall rc k w,
  (attempts_left mr rc <= fuel)%nat ->
  exists o n,
    (1 <= n <= attempts_left mr rc)%nat /\
    gemini_loop ext task rs mr fuel rc k w
    = (o, extend w (retry_trace task None false rs k n)) /\
    ((exists r, o = Ret r) \/
     (exists e r, o = Raise e /\
                  attempt ext task (k + n - 1) = Success r /\
                  response_text ext task (k + n - 1) = Some e)).
Proof.
  induction fuel as [|fuel IH]; intros rc k w Hf.
  - now apply attempts_left_pos in Hf.
  - cbn [gemini_loop]. unfold bind, sleep, read_text. rewrite !emit_extend.
    destruct (attempt ext task k) as [r|e] eqn:Ea.
    { destruct (response_text ext task k) as [e|] eqn:Er.
      - exists (Raise e), 1%nat.
        split; [apply attempts_left_ge_1|split; [reflexivity|]].
        right. exists e, r. replace (k + 1 - 1)%nat with k by lia. auto.
      - exists (Ret (Some r)), 1%nat.
        split; [apply attempts_left_ge_1|split; [reflexivity|]]. left. eauto. }
    destruct (PyStr.contains _ _).
    { exists (Ret None), 1%nat.
      split; [apply attempts_left_ge_1|split; [reflexivity|]]. left. eauto. }
    destruct (exhausted mr (rc + 1)) eqn:E.
    { exists (Ret None), 1%nat.
      split; [apply attempts_left_ge_1|split; [reflexivity|]]. left. eauto. }
    rewrite emit_extend.
    destruct (IH (rc + 1) (S k)
                (extend (extend w [EvCall task k None false]) [EvSleep rs]))
      as (o & n & Hn & Hrun & Ho); [now apply attempts_left_fuel_next|].
    exists o, (S n). split; [now apply attempts_left_bound|split].
    + rewrite Hrun, !extend_extend. destruct n as [|n]; [lia|]. reflexivity.
    + replace (k + S n - 1)%nat with (S k + n - 1)%nat by lia. exact Ho.
Qed.

Lemma plain_loop_shape body budget rs mr st fuel :
  (forall w, body w = (Ret tt, w)) ->
  forall rc k w,
  (attempts_left mr rc <= fuel)%nat ->
  exists r n,
    (1 <= n <= attempts_left mr rc)%nat /\
    plain_loop ext task body budget rs mr st fuel rc k w
    = (Ret r, extend w (retry_trace task (Some budget) st rs k n)).
Proof.
  intros Hb. induction fuel as [|fuel IH]; intros rc k w Hf.
  - now apply attempts_left_pos in Hf.
  - cbn [plain_loop]. unfold bind, catch, sleep. rewrite Hb, !emit_extend.
    cbn [ret]. destruct (attempt ext task k) as [r|e].
    { exists (Some r), 1%nat. split; [apply attempts_left_ge_1|reflexivity]. }
    destruct (exhausted mr (rc + 1)) eqn:E.
    { exists None, 1%nat. split; [apply attempts_left_ge_1|reflexivity]. }
    rewrite emit_extend.
    destruct (IH (rc + 1) (S k)
                (extend (extend w [EvCall task k (Some budget) st]) [EvSleep rs]))
      as (r & n & Hn & Hrun); [now apply attempts_left_fuel_next|].
    exists r, (S n). split; [now apply attempts_left_bound|].
    rewrite Hrun, !extend_extend. destruct n as [|n]; [lia|]. reflexivity.
Qed.

End RetryBounds.

(** A response without text: the request is answered, the reading of
    the text raises behind the loop, and the adapter raises with it. *)
Example gemini_no_text_raises :
  get_next_message_gemini ext_no_text 0 empty_world
  = (Raise (Exn ValueError "response.text requires a valid Part"),
     extend empty_world [EvCall 0 0 None false]).
Proof. vm_compute. reflexivity. Qed.

(** X1.  Whatever the provider does, a call of the Anthropic or of the
    OpenAI adapter returns, after between 1 and [max 1 max_retries]
    requests with a wait of [retry_secs] between two of them.  A call
    of the Gemini adapter makes its requests within the same bounds; it
    returns unless the reading of the text of the response, which
    follows the loop, raises: the exception of that reading is the only
    one that the adapter lets through, and the attempt that was answered
    is then its last request.  None of them writes to the store. *)
Theorem adapter_attempts_bounded (ext : external) (task : nat)
    (retry_secs max_retries : Z) (stream : bool) (w : world) :
  (exists r n,
     (1 <= n <= attempts_made max_retries)%nat /\
     get_next_message_anthropic_with ext task retry_secs max_retries stream w
     = (Ret r, extend w (retry_trace task (Some 8192) stream retry_secs 0 n)))
  /\ (exists r n,
        (1 <= n <= attempts_made max_retries)%nat /\
        get_next_message_openai_with ext task retry_secs max_retries stream w
        = (Ret r, extend w (retry_trace task (Some 16384) stream retry_secs 0 n)))
  /\ (exists o n,
        (1 <= n <= attempts_made max_retries)%nat /\
        get_next_message_gemini_with ext task retry_secs max_retries w
        = (o, extend w (retry_trace task None false retry_secs 0 n)) /\
        ((exists r, o = Ret r) \/
         (exists e r, o = Raise e /\
                      attempt ext task (n - 1) = Success r /\
                      response_text ext task (n - 1) = Some e))).
Proof.
  assert (E : attempts_left max_retries 0 = attempts_made max_retries)
    by (unfold attempts_left, attempts_made; f_equal; lia).
  rewrite <- E. split_and!.
  - apply anthropic_loop_shape, attempts_left_start.
  - apply plain_loop_shape; [reflexivity|apply attempts_left_start].
  - apply (gemini_loop_shape ext task retry_secs max_retries _ 0 0%nat w),
      attempts_left_start.
Qed.

Section RetrySuccess.
Variable ext : external.
Variable task : nat.

Lemma anthropic_loop_succeeds rs mr st r j : forall fuel rc k w,
  (forall i, (i < j)%nat ->
             exists t, attempt ext task (k + i) = Failure (Exn RateLimitError t)) ->
  attempt ext task (k + j) = Success r ->
  Z.of_nat j < Z.max 1 (mr - rc) ->
  (j < fuel)%nat ->
  anthropic_loop ext task rs mr st fuel rc k w
  = (Ret (Some r), extend w (retry_trace task (Some 8192) st rs k (S j))).
Proof.
  induction j as [|j IH]; intros fuel rc k w Hfail Hok Hlt Hf;
    (destruct fuel as [|fuel]; [lia|]); cbn [anthropic_loop];
    unfold bind, sleep; rewrite emit_extend.
  - rewrite Nat.add_0_r in Hok. now rewrite Hok.
  - destruct (Hfail 0%nat ltac:(lia)) as [t Ht]. rewrite Nat.add_0_r in Ht.
    rewrite Ht.
    assert (E : exhausted mr (rc + 1) = false)
      by (unfold exhausted; apply Z.leb_gt; lia).
    rewrite E, emit_extend.
    rewrite (IH fuel (rc + 1) (S k)); try lia.
    + now rewrite !extend_extend.
    + intros i Hi. destruct (Hfail (S i) ltac:(lia)) as [t' Ht'].
      exists t'. now rewrite <- Nat.add_succ_comm in Ht'.
    + now rewrite <- Nat.add_succ_comm in Hok.
Qed.

Lemma legacy_anthropic_loop_rate_limited n :
  always_rate_limited ext task ->
  forall fuel rc k w,
    attempts_left 12 rc = n -> (n <= fuel)%nat ->
    exists t,
      attempt ext task (k + n - 1) = Failure (Exn RateLimitError t) /\
      legacy_anthropic_loop ext task fuel rc k w
      = (Raise (Exn RateLimitError t),
         extend w (retry_trace task (Some 8192) false 15 k n)).
Proof.
  intros Hrl. induction n as [|[|n] IH]; intros fuel rc k w Hn Hf.
  - unfold attempts_left in Hn. lia.
  - destruct fuel as [|fuel]; [lia|]. destruct (Hrl k) as [t Ht].
    exists t. split; [now replace (k + 1 - 1)%nat with k by lia|].
    cbn [legacy_anthropic_loop]. unfold bind. rewrite emit_extend, Ht.
    now rewrite (attempts_left_last _ _ Hn).
  - destruct fuel as [|fuel]; [lia|]. destruct (Hrl k) as [t Ht].
    destruct (attempts_left_next _ _ _ Hn) as [He Hn'].
    destruct (IH fuel (rc + 1) (S k)
                (extend (extend w [EvCall task k (Some 8192) false]) [EvSleep 15])
                Hn' ltac:(lia)) as (t' & Ht' & Hrun).
    exists t'. split; [now replace (k + S (S n) - 1)%nat with (S k + S n - 1)%nat by lia|].
    cbn [legacy_anthropic_loop]. unfold bind, sleep. rewrite emit_extend, Ht, He.
    rewrite emit_extend, Hrun. now rewrite !extend_extend.
Qed.

End RetrySuccess.

(** X2.  When the first [j] attempts of an Anthropic adapter call are
    rate limited and attempt [j] is answered, with [j] below
    [max 1 max_retries], the call returns that answer after [j + 1]
    requests and [j] waits. *)
Theorem anthropic_succeeds_after_rate_limits (ext : external) (task : nat)
    (retry_secs max_retries : Z) (stream : bool) (j : nat) (r : reply) (w : world) :
  rate_limited_before ext task j ->
  attempt ext task j = Success r ->
  Z.of_nat j < Z.max 1 max_retries ->
  get_next_message_anthropic_with ext task retry_secs max_retries stream w
  = (Ret (Some r),
     extend w (retry_trace task (Some 8192) stream retry_secs 0 (S j))).
Proof.
  intros Hb Hs Hj.
  apply anthropic_loop_succeeds; [exact Hb|exact Hs|rewrite Z.sub_0_r; exact Hj|lia].
Qed.

Lemma anthropic_succeeds_after_rate_limits_witness :
  get_next_message_anthropic ext_flaky 0 false empty_world
  = (Ret (Some ("ok", None)),
     extend empty_world
       [EvCall 0 0 (Some 8192) false; EvSleep 15;
        EvCall 0 1 (Some 8192) false; EvSleep 15;
        EvCall 0 2 (Some 8192) false]).
Proof.
  apply (anthropic_succeeds_after_rate_limits ext_flaky 0 15 200 false 2
           ("ok", None) empty_world).
  - intros i Hi. exists "rate_limit_error".
    destruct i as [|[|i]]; [reflexivity|reflexivity|lia].
  - reflexivity.
  - lia.
Defined.

(** X3.  The legacy single call does not absorb rate limits: for a
    Claude model, under a provider that is always rate limited, it makes
    twelve requests with waits of 15 seconds and raises the last
    [RateLimitError] to its caller. *)
Theorem legacy_rate_limit_raises (ext : external) (task k : nat)
    (messages : list loc) (model : Model) (w w1 : world)
    (sm : content * list loc) :
  environ ext !! "NO_WIFI" = None ->
  model_in model [claude_3_5_sonnet; claude_3_5_haiku] = true ->
  is_Some (environ ext !! "ANTHROPIC_API_KEY") ->
  split_system messages w = (Ret sm, w) ->
  legacy_translate sm.2 w = (Ret tt, w1) ->
  always_rate_limited ext task ->
  exists t,
    attempt ext task (k + 11) = Failure (Exn RateLimitError t) /\
    get_next_message ext task k messages model w
    = (Raise (Exn RateLimitError t),
       extend w1 (retry_trace task (Some 8192) false 15 k 12)).
Proof.
  intros Hnw Hm [key Hkey] Hs Ht Hrl.
  destruct (legacy_anthropic_loop_rate_limited ext task 12 Hrl 13%nat 0 k w1)
    as (t & Hat & Hrun); [reflexivity|lia|].
  exists t. split; [now replace (k + 11)%nat with (k + 12 - 1)%nat by lia|].
  unfold get_next_message, no_wifi. rewrite Hnw.
  unfold bind at 1. cbn [ret]. rewrite Hm.
  unfold env_key. rewrite Hkey. unfold bind at 1. cbn [ret].
  unfold bind at 1. rewrite Hs. unfold bind at 1. rewrite Ht. exact Hrun.
Qed.

Lemma legacy_rate_limit_raises_witness :
  get_next_message ext_rate_limited 0 0 hello_conversation claude_3_5_sonnet
    hello_world
  = (Raise (Exn RateLimitError "rate_limit_error"),
     extend hello_world (retry_trace 0 (Some 8192) false 15 0 12)).
Proof.
  destruct (legacy_rate_limit_raises ext_rate_limited 0 0 hello_conversation
              claude_3_5_sonnet hello_world hello_world (CList [], hello_conversation))
    as (t & Hat & Hrun);
    [reflexivity|reflexivity|eexists; reflexivity|reflexivity|reflexivity
    |intros i; eexists; reflexivity|].
  injection Hat as <-. exact Hrun.
Defined.

(** ** The retry wrapper of the OpenRouter branch *)

Lemma get_next_message_openrouter_model ext task k messages w :
  environ ext !! "NO_WIFI" = None ->
  get_next_message ext task k messages openrouter_model w
  = exchange ext task k 20000 (stream_llm ext) w.
Proof.
  intros H. unfold get_next_message, no_wifi. rewrite H. reflexivity.
Qed.

Lemma retry_range_decided ext task messages mr j :
  environ ext !! "NO_WIFI" = None ->
  forall n retry w,
    0 <= retry ->
    (forall i, (i < j)%nat ->
       exists e, attempt ext task (Z.to_nat retry + i) = Failure e /\
                 should_retry e = true) ->
    (j < n)%nat ->
    retry + Z.of_nat j <= mr - 1 ->
    (forall r, attempt ext task (Z.to_nat retry + j) = Success r ->
       retry_range ext task messages openrouter_model mr n retry w
       = (Ret (Some r),
          extend w (backoff_trace task (Some 20000) (stream_llm ext)
                      (Z.to_nat retry) (S j))))
    /\ (forall e, attempt ext task (Z.to_nat retry + j) = Failure e ->
          should_retry e = false \/ retry + Z.of_nat j = mr - 1 ->
          retry_range ext task messages openrouter_model mr n retry w
          = (Raise e,
             extend w (backoff_trace task (Some 20000) (stream_llm ext)
                         (Z.to_nat retry) (S j)))).
Proof.
  intros Hnw. induction j as [|j IH]; intros n retry w Hr Hfail Hn Hmr;
    (destruct n as [|n]; [lia|]); cbn [retry_range]; unfold catch, bind;
    rewrite (get_next_message_openrouter_model _ _ _ _ _ Hnw);
    unfold exchange, bind; rewrite emit_extend.
  - rewrite Nat.add_0_r. split.
    + intros r ->. reflexivity.
    + intros e -> Hd. cbn [raise]. destruct (should_retry e) eqn:Es.
      * destruct Hd as [?|Hd]; [discriminate|].
        destruct (Z.ltb_spec retry (mr - 1)); [lia|reflexivity].
      * reflexivity.
  - destruct (Hfail 0%nat ltac:(lia)) as (e0 & He0 & Hs0).
    rewrite Nat.add_0_r in He0. rewrite He0. cbn [raise]. rewrite Hs0.
    destruct (Z.ltb_spec retry (mr - 1)); [|lia].
    unfold sleep. rewrite emit_extend.
    destruct (IH n (retry + 1)
                (extend (extend w [EvCall task (Z.to_nat retry) (Some 20000)
                                     (stream_llm ext)])
                   [EvSleep (2 ^ retry * 10)])) as [IHs IHf]; try lia.
    { intros i Hi. destruct (Hfail (S i) ltac:(lia)) as (e & He & Hs).
      exists e. split; [|exact Hs].
      now replace (Z.to_nat (retry + 1) + i)%nat with (Z.to_nat retry + S i)%nat by lia. }
    replace (Z.to_nat (retry + 1) + j)%nat with (Z.to_nat retry + S j)%nat in * by lia.
    replace (Z.to_nat (retry + 1)) with (S (Z.to_nat retry)) in * by lia.
    assert (Etr : forall m,
              extend (extend (extend w [EvCall task (Z.to_nat retry) (Some 20000)
                                          (stream_llm ext)])
                        [EvSleep (2 ^ retry * 10)])
                (backoff_trace task (Some 20000) (stream_llm ext)
                   (S (Z.to_nat retry)) (S m))
              = extend w (backoff_trace task (Some 20000) (stream_llm ext)
                            (Z.to_nat retry) (S (S m)))).
    { intros m. rewrite !extend_extend. cbn [backoff_trace app].
      now rewrite Z2Nat.id by lia. }
    split.
    + intros r Hok. rewrite (IHs r Hok). f_equal. apply Etr.
    + intros e Hf Hd.
      rewrite (IHf e Hf) by (destruct Hd as [Hd|Hd]; [now left|right; lia]).
      f_equal. apply Etr.
Qed.

(** X4.  The retry wrapper of the OpenRouter branch retries the errors
    whose text names a rate limit, a 429, a 502, an upstream error or a
    response without choices, waiting 10, 20, 40 and 80 seconds; the
    first attempt that is answered gives the reply of the call, and the
    first error that is not of that kind, or the fifth error, is raised
    to the caller. *)
Theorem retry_wrapper_backoff (ext : external) (task : nat)
    (messages : list loc) (j : nat) (w : world) :
  environ ext !! "NO_WIFI" = None ->
  retryable_before ext task j ->
  (j < 5)%nat ->
  (forall r, attempt ext task j = Success r ->
     get_message_with_retry ext task messages openrouter_model w
     = (Ret (Some r),
        extend w (backoff_trace task (Some 20000) (stream_llm ext) 0 (S j))))
  /\ (forall e, attempt ext task j = Failure e ->
        should_retry e = false \/ j = 4%nat ->
        get_message_with_retry ext task messages openrouter_model w
        = (Raise e,
           extend w (backoff_trace task (Some 20000) (stream_llm ext) 0 (S j)))).
Proof.
  intros Hnw Hb Hj. unfold get_message_with_retry.
  destruct (retry_range_decided ext task messages 5 j Hnw 5%nat 0 w)
    as [Hs Hf]; [lia|exact Hb|exact Hj|lia|].
  split; [exact Hs|]. intros e He Hd. apply Hf; [exact He|].
  destruct Hd as [Hd|Hd]; [now left|right; lia].
Qed.

Lemma retry_wrapper_backoff_witness :
  get_message_with_retry ext_429 0 hello_conversation openrouter_model hello_world
  = (Raise (Exn OtherError "Error code: 429"),
     extend hello_world
       [EvCall 0 0 (Some 20000) false; EvSleep 10;
        EvCall 0 1 (Some 20000) false; EvSleep 20;
        EvCall 0 2 (Some 20000) false; EvSleep 40;
        EvCall 0 3 (Some 20000) false; EvSleep 80;
        EvCall 0 4 (Some 20000) false]) /\
  get_message_with_retry ext_bad_request 0 hello_conversation openrouter_model
    hello_world
  = (Raise (Exn OtherError "Error code: 400"),
     extend hello_world [EvCall 0 0 (Some 20000) false]) /\
  get_message_with_retry ext_ok 0 hello_conversation openrouter_model hello_world
  = (Ret (Some ("ok", None)),
     extend hello_world [EvCall 0 0 (Some 20000) false]).
Proof.
  split_and!.
  - apply (retry_wrapper_backoff ext_429 0 hello_conversation 4 hello_world);
      [reflexivity| |lia|reflexivity|now right].
    intros i Hi. eexists. split; reflexivity.
  - apply (retry_wrapper_backoff ext_bad_request 0 hello_conversation 0 hello_world);
      [reflexivity| |lia|reflexivity|now left].
    intros i Hi. lia.
  - apply (retry_wrapper_backoff ext_ok 0 hello_conversation 0 hello_world);
      [reflexivity| |lia|reflexivity].
    intros i Hi. lia.
Defined.

(** ** The output budget of the DeepSeek adapter *)

Lemma deepseek_budget_bounds error_msg mt b :
  deepseek_budget error_msg mt = Some b -> b = mt \/ 1 <= b <= 8192.
Proof.
  unfold deepseek_budget.
  destruct (PyStr.contains "tokens (" error_msg); [|intros [= <-]; now left].
  destruct (PyStr.split "(" error_msg !! 1%nat) as [after|]; [|intros [= <-]; now left].
  destruct (PyStr.split " in the messages" after !! 0%nat) as [digits|];
    [|intros [= <-]; now left].
  destruct (PyStr.int digits) as [p|]; [|intros [= <-]; now left].
  destruct (Z.leb_spec (65536 - p) 0); [discriminate|].
  intros [= <-]. right. lia.
Qed.

Lemma deepseek_loop_budgets ext task rs mr st initial fuel : forall rc mt k w,
  mt = initial \/ 1 <= mt <= 8192 ->
  exists evs,
    (deepseek_loop ext task rs mr st fuel rc mt k w).2 = extend w evs /\
    Forall (budget_ok initial) evs.
Proof.
  induction fuel as [|fuel IH]; intros rc mt k w Hmt.
  - exists []. now rewrite extend_nil.
  - cbn [deepseek_loop]. unfold bind, sleep. rewrite emit_extend.
    assert (H1 : Forall (budget_ok initial) [EvCall task k (Some mt) st])
      by (constructor; [exact Hmt|constructor]).
    destruct (attempt ext task k) as [r|e]; [eexists; split; [reflexivity|exact H1]|].
    destruct (deepseek_budget (exn_str e) mt) as [mt'|] eqn:Eb;
      [|eexists; split; [reflexivity|exact H1]].
    destruct (exhausted mr (rc + 1)); [eexists; split; [reflexivity|exact H1]|].
    rewrite emit_extend.
    assert (Hmt' : mt' = initial \/ 1 <= mt' <= 8192).
    { destruct (deepseek_budget_bounds _ _ _ Eb) as [->|?]; auto. }
    destruct (IH (rc + 1) mt' (S k)
                (extend (extend w [EvCall task k (Some mt) st]) [EvSleep rs]) Hmt')
      as (evs & Hrun & Hall).
    exists (EvCall task k (Some mt) st :: EvSleep rs :: evs).
    rewrite Hrun, !extend_extend. split; [reflexivity|].
    constructor; [exact Hmt|]. constructor; [exact I|exact Hall].
Qed.

(** X5.  Every request of a DeepSeek adapter call carries an output
    budget that is the initial one (8192, or 30000 through Baseten) or,
    after a context-length error, one between 1 and 8192: the handling
    of that error never asks for more than 8192 tokens nor for none. *)
Theorem deepseek_budgets_bounded (ext : external) (task : nat)
    (retry_secs max_retries : Z) (use_baseten : bool) (w : world) :
  exists evs,
    (get_next_message_deepseek_with ext task retry_secs max_retries use_baseten w).2
    = extend w evs /\
    Forall (budget_ok (if use_baseten then 30000 else 8192)) evs.
Proof.
  unfold get_next_message_deepseek_with, bind.
  destruct ((if use_baseten then env_key ext "BASETEN_R1_MODEL_ID" else ret "") w)
    as [[u|e] w1] eqn:E.
  - assert (w1 = w) as ->.
    { destruct use_baseten; [|now injection E as _ <-].
      unfold env_key in E. destruct (environ ext !! _); now injection E as _ <-. }
    apply deepseek_loop_budgets. now left.
  - assert (w1 = w) as ->.
    { destruct use_baseten; [|discriminate].
      unfold env_key in E. destruct (environ ext !! _); now injection E as _ <-. }
    exists []. now rewrite extend_nil.
Qed.

(** A reported prompt of 70000 tokens leaves no budget: the call gives
    up after one request. *)
Example deepseek_context_too_long :
  get_next_message_deepseek ext_too_long 0 false empty_world
  = (Ret None, extend empty_world [EvCall 0 0 (Some 8192) false]).
Proof. vm_compute. reflexivity. Qed.

(** ** The dispatch on the model *)

(** X6.  The two entry points serve different models.  With one sample
    or more, the fan-out orchestrator raises [ValueError] for the NVIDIA,
    Groq and Azure models and leaves the world as it was; the legacy
    single call, without the test flag, does so for [gpt_5], the
    o-series, the DeepSeek and xAI models, [openrouter_o1] and the Azure
    models, which no entry point serves: its Azure branch compares the
    model with a list and is never taken. *)
Theorem unsupported_models_raise (ext : external) (messages : list loc)
    (model : Model) (w : world) :
  (forall n_times,
     0 < n_times -> model_in model fan_out_unsupported = true ->
     get_next_messages ext messages model n_times w
     = (Raise (Exn ValueError ("Invalid model: " +:+ model_text ext model)), w))
  /\ (forall task k,
        environ ext !! "NO_WIFI" = None ->
        model_in model legacy_unsupported = true ->
        get_next_message ext task k messages model w
        = (Raise (Exn ValueError ("Invalid model: " +:+ model_text ext model)), w)).
Proof.
  split.
  - intros n Hn Hm. unfold get_next_messages.
    destruct (Z.leb_spec n 0) as [?|_]; [lia|].
    destruct model; try discriminate Hm; reflexivity.
  - intros task k Hnw Hm. unfold get_next_message, no_wifi. rewrite Hnw.
    unfold bind at 1. cbn [ret].
    destruct model; try discriminate Hm; reflexivity.
Qed.

Lemma unsupported_models_raise_witness :
  get_next_messages ext_ok hello_conversation azure_gpt_4o 1 hello_world
  = (Raise (Exn ValueError "Invalid model: "), hello_world) /\
  get_next_message ext_ok 0 0 hello_conversation azure_gpt_4o hello_world
  = (Raise (Exn ValueError "Invalid model: "), hello_world).
Proof.
  destruct (unsupported_models_raise ext_ok hello_conversation azure_gpt_4o
              hello_world) as [H1 H2].
  split; [apply H1; [lia|reflexivity]|apply H2; reflexivity].
Defined.

(** *** [openrouter_o1]: accepted by the orchestrator, refused by the
    call it delegates to *)

Lemma count_calls_app a b : count_calls (a ++ b) = (count_calls a + count_calls b)%nat.
Proof. unfold count_calls. now rewrite List.filter_app, length_app. Qed.

Lemma retry_range_invalid_model ext task messages mr n :
  environ ext !! "NO_WIFI" = None ->
  (1 <= n)%nat -> Z.of_nat n = mr ->
  forall left retry,
    (1 <= left)%nat -> retry + Z.of_nat left = mr ->
    raises_quietly
      (Exn ValueError ("Invalid model: " +:+ model_text ext openrouter_o1))
      (retry_range ext task messages openrouter_o1 mr left retry).
Proof.
  intros Hnw Hn Hmr. induction left as [|left IH]; intros retry Hl Hr w; [lia|].
  cbn [retry_range]. unfold catch, bind.
  assert (E : get_next_message ext task (Z.to_nat retry) messages openrouter_o1 w
              = (Raise (Exn ValueError ("Invalid model: " +:+ model_text ext openrouter_o1)), w)).
  { unfold get_next_message, no_wifi. rewrite Hnw. reflexivity. }
  rewrite E.
  destruct (should_retry _); [|exists []; now rewrite extend_nil].
  destruct (Z.ltb_spec retry (mr - 1)); [|exists []; now rewrite extend_nil].
  unfold sleep. rewrite emit_extend.
  destruct (IH (retry + 1) ltac:(lia) ltac:(lia) (extend w [EvSleep (2 ^ retry * 10)]))
    as (evs & Hrun & Hc).
  exists (EvSleep (2 ^ retry * 10) :: evs). rewrite Hrun, extend_extend.
  split; [reflexivity|exact Hc].
Qed.

Lemma run_all_raise_quietly {A} e (tasks : list (M A)) :
  Forall (raises_quietly e) tasks ->
  forall w, exists evs,
    (run_all tasks w).2 = extend w evs /\ count_calls evs = O /\
    Forall (eq e) (raised (run_all tasks w).1) /\
    (tasks <> [] -> raised (run_all tasks w).1 <> []).
Proof.
  induction 1 as [|t tasks Ht _ IH]; intros w.
  - exists []. cbn. rewrite extend_nil. split_and!; auto.
  - cbn [run_all fst snd]. destruct (Ht w) as (evs & -> & Hc).
    cbn [fst snd raised].
    destruct (IH (extend w evs)) as (evs1 & -> & Hc1 & Hall & _).
    exists (evs ++ evs1). rewrite extend_extend, count_calls_app.
    split_and!; [reflexivity|lia|now constructor|discriminate].
Qed.

Lemma gather_raises_quietly {A race} e (tasks : list (M A)) :
  tasks <> [] -> Forall (raises_quietly e) tasks ->
  raises_quietly e (gather race tasks).
Proof.
  intros Hne Hall w.
  destruct (run_all_raise_quietly e tasks Hall w) as (evs & Hw & Hc & He & Hn).
  exists evs. split; [|exact Hc]. unfold gather.
  destruct (raised (run_all tasks w).1) as [|e0 es]; [now destruct (Hn Hne)|].
  rewrite Hw. f_equal. f_equal. inversion He as [|? ? <- Hes]; subst.
  now apply first_raised_same.
Qed.

(** X7.  For [openrouter_o1] the fan-out orchestrator never reaches the
    provider: with one sample or more, the credential set and no test
    flag, every task is refused by the legacy call as an invalid model,
    and the call raises that [ValueError] without a single request. *)
Theorem openrouter_o1_never_served (ext : external) (messages ms : list loc)
    (n_times : Z) (w w1 : world) :
  0 < n_times ->
  environ ext !! "NO_WIFI" = None ->
  is_Some (environ ext !! "OPENROUTER_API_KEY") ->
  text_only_messages messages w = (Ret ms, w1) ->
  exists evs,
    get_next_messages ext messages openrouter_o1 n_times w
    = (Raise (Exn ValueError ("Invalid model: " +:+ model_text ext openrouter_o1)),
       extend w1 evs)
    /\ count_calls evs = O.
Proof.
  intros Hn Hnw [key Hkey] Ht. unfold get_next_messages.
  destruct (Z.leb_spec n_times 0) as [?|_]; [lia|]. decide_models. cbv zeta.
  unfold openrouter_branch, env_key. rewrite Hkey. decide_models.
  unfold bind at 1. cbn [ret]. unfold bind at 1. rewrite Ht.
  destruct (@gather_raises_quietly _ (race ext)
              (Exn ValueError ("Invalid model: " +:+ model_text ext openrouter_o1))
              (tasks_from 0 (Z.to_nat n_times)
                 (fun i => get_message_with_retry ext i ms openrouter_o1))) with (w := w1)
    as (evs & Hrun & Hc).
  - unfold tasks_from. destruct (Z.to_nat n_times) eqn:E; [lia|discriminate].
  - apply Forall_forall. intros t Hin.
    apply list_elem_of_In, in_map_iff in Hin as (i & <- & _).
    apply (retry_range_invalid_model ext i ms 5 5); auto; lia.
  - exists evs. unfold bind. rewrite Hrun. auto.
Qed.

Lemma openrouter_o1_never_served_witness :
  exists evs,
    get_next_messages ext_ok hello_conversation openrouter_o1 2 hello_world
    = (Raise (Exn ValueError "Invalid model: "),
       extend (text_only_messages hello_conversation hello_world).2 evs)
    /\ count_calls evs = O.
Proof.
  apply (openrouter_o1_never_served ext_ok hello_conversation
           (match (text_only_messages hello_conversation hello_world).1 with
            | Ret ms => ms | Raise _ => [] end));
    [lia|reflexivity|eexists; reflexivity|vm_compute; reflexivity].
Defined.

(** ** Branches that absorb every failure *)

Lemma returns_ret {A} (a : A) : returns (ret a).
Proof. intros w. eexists _, _. reflexivity. Qed.

Lemma returns_bind {A B} (m : M A) (k : A -> M B) :
  returns m -> (forall a, returns (k a)) -> returns (bind m k).
Proof.
  intros Hm Hk w. destruct (Hm w) as (a & w1 & E). unfold bind. rewrite E. apply Hk.
Qed.

Lemma returns_tasks_from {A race} first count (f : nat -> M A) :
  (forall i, returns (f i)) -> returns (gather race (tasks_from first count f)).
Proof.
  intros H. apply gather_returns, Forall_forall. intros t Ht.
  apply list_elem_of_In, in_map_iff in Ht as (i & <- & _). apply H.
Qed.

(** X8.  With the credential set, the xAI branch of the orchestrator
    never raises, whatever the conversation and whatever the provider
    does: a conversation that cannot be converted and a request that
    fails are absorbed by the adapter, and the call returns a list of at
    most [n_times] replies, the caller's dictionaries untouched. *)
Theorem xai_branch_never_raises (ext : external) (messages : list loc)
    (model : Model) (n_times : Z) (w : world) :
  0 < n_times ->
  model_in model [grok_3; grok_4] = true ->
  is_Some (environ ext !! "XAI_API_KEY") ->
  exists l w',
    get_next_messages ext messages model n_times w = (Ret (Some l), w') /\
    (length l <= Z.to_nat n_times)%nat /\
    store_kept w w'.
Proof.
  intros Hn Hm [key Hkey].
  assert (Hr : exists l w', get_next_messages ext messages model n_times w
                            = (Ret (Some l), w')).
  { unfold get_next_messages. destruct (Z.leb_spec n_times 0) as [?|_]; [lia|].
    cbv zeta. generalize (stream_llm ext && (n_times =? 1)). intros st.
    assert (Hx : exists l w', xai_branch ext messages st (Z.to_nat n_times) w
                              = (Ret (Some l), w')).
    { unfold xai_branch, env_key. rewrite Hkey. unfold bind at 1. cbn [ret].
      destruct st.
      - destruct (get_next_message_xai_returns ext 0 messages true w) as (a & w1 & E).
        unfold bind. rewrite E. eexists _, _. reflexivity.
      - destruct (@returns_tasks_from _ (race ext) 0 (Z.to_nat n_times)
                    (fun i => get_next_message_xai ext i messages false)
                    (fun i => get_next_message_xai_returns ext i messages false) w)
          as (a & w1 & E).
        unfold bind. rewrite E. eexists _, _. reflexivity. }
    destruct model; try discriminate Hm; decide_models; exact Hx. }
  destruct Hr as (l & w' & E). exists l, w'. split_and!; [exact E| |].
  - eapply get_next_messages_length, E.
  - pose proof (keeps_xai_branch ext messages) as Hk.
    assert (Hs : store_kept w (get_next_messages ext messages model n_times w).2).
    { unfold get_next_messages. destruct (Z.leb_spec n_times 0) as [?|_]; [lia|].
      destruct model; try discriminate Hm; decide_models; apply Hk. }
    now rewrite E in Hs.
Qed.

Lemma xai_branch_never_raises_witness :
  exists l w',
    get_next_messages ext_rate_limited mixed_conversation grok_4 3 mixed_world
    = (Ret (Some l), w') /\
    (length l <= 3)%nat /\ store_kept mixed_world w'.
Proof.
  apply (xai_branch_never_raises ext_rate_limited mixed_conversation grok_4 3
           mixed_world); [lia|reflexivity|eexists; reflexivity].
Defined.

(** ** The OpenAI branch *)

Lemma rename_system_run messages head rest m w :
  messages = head :: rest ->
  msgs w !! head = Some m ->
  exists w1,
    rename_system messages w = (Ret tt, w1) /\
    parts w1 = parts w /\ trace w1 = trace w /\
    (forall l m', msgs w !! l = Some m' ->
                  msgs w1 !! l = Some (renamed messages l m')) /\
    (forall l, msgs w !! l = None -> msgs w1 !! l = None).
Proof.
  intros -> Hm. unfold rename_system, bind, get_msg, set_msg. rewrite Hm.
  destruct (String.eqb (role m) "system") eqn:Er.
  - eexists. split; [reflexivity|]. cbn. split_and!; auto.
    + intros l m' Hl. unfold renamed.
      destruct (bool_decide_reflect (l = head)) as [->|Hne].
      * rewrite lookup_insert_eq. rewrite Hm in Hl. injection Hl as <-.
        now rewrite Er.
      * now rewrite lookup_insert_ne by auto.
    + intros l Hl. rewrite lookup_insert_ne; [exact Hl|]. intros <-. congruence.
  - exists w. split; [reflexivity|]. split_and!; auto.
    intros l m' Hl. unfold renamed.
    destruct (bool_decide_reflect (l = head)) as [->|Hne]; [|exact Hl].
    rewrite Hm in Hl. injection Hl as <-. now rewrite Er.
Qed.

Lemma get_next_message_openai_first ext i stream r w :
  attempt ext i 0 = Success r ->
  get_next_message_openai ext i stream w
  = (Ret (Some r), extend w [EvCall i 0 (Some 16384) stream]).
Proof.
  intros H. unfold get_next_message_openai, get_next_message_openai_with.
  cbn [Z.to_nat Pos.to_nat Pos.iter_op Nat.add plain_loop].
  unfold bind, catch, ret. rewrite emit_extend. now rewrite H.
Qed.

Lemma gather_first_attempts ext (f : nat -> reply) :
  forall count first w,
    (forall i, (first <= i < first + count)%nat -> attempt ext i 0 = Success (f i)) ->
    gather (race ext) (tasks_from first count
              (fun i => get_next_message_openai ext i false)) w
    = (Ret (map (fun i => Some (f i)) (seq first count)),
       extend w (map (fun i => EvCall i 0 (Some 16384) false) (seq first count))).
Proof.
  induction count as [|count IH]; intros first w H.
  - cbn. now rewrite extend_nil.
  - unfold tasks_from in *. cbn [seq map]. rewrite gather_cons.
    rewrite (get_next_message_openai_first ext first false (f first))
      by (apply H; lia).
    rewrite (IH (S first)) by (intros i Hi; apply H; lia).
    now rewrite extend_extend.
Qed.

Lemma drop_nones_somes {A} (f : A -> reply) (l : list A) :
  drop_nones (map (fun i => Some (f i)) l) = map f l.
Proof.
  unfold drop_nones. induction l as [|a l IH]; [reflexivity|].
  cbn [map omap list_omap id]. cbn. now f_equal.
Qed.

(** X9.  When the first attempt of every task succeeds, the OpenAI
    branch (for the models that keep their images) returns exactly the
    [n_times] replies in task order and makes exactly one request per
    task, at 16384 tokens, streaming at most the first; the only edit to
    the caller's store is the role of a leading system message, which
    becomes [developer]. *)
Theorem openai_all_succeed (ext : external) (messages : list loc)
    (head : loc) (rest : list loc) (m : msg) (model : Model) (n_times : Z)
    (f : nat -> reply) (w : world) :
  0 < n_times ->
  model_in model [gpt_4o; gpt_4o_mini; gpt_5] = true ->
  is_Some (environ ext !! "OPENAI_API_KEY") ->
  messages = head :: rest ->
  msgs w !! head = Some m ->
  (forall i, (i < Z.to_nat n_times)%nat -> attempt ext i 0 = Success (f i)) ->
  exists w',
    get_next_messages ext messages model n_times w
    = (Ret (Some (map f (seq 0 (Z.to_nat n_times)))), w') /\
    trace w' = trace w ++ map (openai_call (stream_llm ext && (n_times =? 1)))
                            (seq 0 (Z.to_nat n_times)) /\
    parts w' = parts w /\
    (forall l m', msgs w !! l = Some m' ->
                  msgs w' !! l = Some (renamed messages l m')) /\
    (forall l, msgs w !! l = None -> msgs w' !! l = None).
Proof.
  intros Hn Hm [key Hkey] Hms Hhead Hok.
  destruct (rename_system_run messages head rest m w Hms Hhead)
    as (w1 & Er & Hp & Ht & Hl & Hnone).
  destruct (Z.to_nat n_times) as [|n] eqn:En; [lia|].
  set (st := stream_llm ext && (n_times =? 1)).
  exists (extend w1 (map (openai_call st) (seq 0 (S n)))).
  split_and!; try assumption.
  - unfold get_next_messages. destruct (Z.leb_spec n_times 0) as [?|_]; [lia|].
    cbv zeta. fold st. rewrite En.
    assert (Eb : openai_branch ext messages model st (S n) w
                 = (Ret (Some (map f (seq 0 (S n)))),
                    extend w1 (map (openai_call st) (seq 0 (S n))))).
    { unfold openai_branch, env_key. rewrite Hkey. unfold bind at 1. cbn [ret].
      unfold bind at 1. rewrite Er.
      assert (Em : model_in model [o1_mini; o1_preview; o3_mini] = false)
        by (destruct model; try discriminate Hm; reflexivity).
      rewrite Em. unfold bind at 1. cbn [ret].
      unfold bind at 1.
      rewrite (get_next_message_openai_first ext 0 st (f 0%nat)) by (apply Hok; lia).
      unfold bind at 1. replace (S n - 1)%nat with n by lia.
      rewrite (gather_first_attempts ext f n 1)
        by (intros i Hi; apply Hok; lia).
      unfold ret. rewrite extend_extend. f_equal.
      - f_equal. f_equal.
        change (Some (f 0%nat) :: map (fun i => Some (f i)) (seq 1 n))
          with (map (fun i => Some (f i)) (seq 0 (S n))).
        apply drop_nones_somes.
      - f_equal. cbn [seq map]. unfold openai_call at 1. cbn [Nat.eqb].
        change ([?e] ++ ?l) with (e :: l). f_equal.
        apply map_ext_in. intros i Hi. apply in_seq in Hi.
        unfold openai_call. destruct (Nat.eqb_spec i 0); [lia|reflexivity]. }
    destruct model; try discriminate Hm; decide_models; exact Eb.
  - cbn [extend trace]. now rewrite Ht.
Qed.

Lemma openai_all_succeed_witness :
  exists w',
    get_next_messages ext_ok system_conversation gpt_4o 3 system_world
    = (Ret (Some (map (fun _ => ("ok", None)) (seq 0 3))), w') /\
    trace w' = trace system_world
               ++ map (openai_call (stream_llm ext_ok && (3 =? 1))) (seq 0 3) /\
    parts w' = parts system_world /\
    (forall l m', msgs system_world !! l = Some m' ->
                  msgs w' !! l = Some (renamed system_conversation l m')) /\
    (forall l, msgs system_world !! l = None -> msgs w' !! l = None).
Proof.
  apply (openai_all_succeed ext_ok system_conversation 0%nat [1%nat]
           (Msg "system" (CStr "be brief")) gpt_4o 3 (fun _ => ("ok", None))
           system_world);
    [lia|reflexivity|eexists; reflexivity|reflexivity|reflexivity|reflexivity].
Defined.

(** ** Conversations with nothing to send *)

(** X10.  An empty conversation makes the Anthropic, OpenAI and Gemini
    branches raise [IndexError] at their look at the first message,
    before any request is made and with the store as it was. *)
Theorem empty_conversation_raises (ext : external) (model : Model)
    (n_times : Z) (w : world) :
  0 < n_times ->
  model_in model [claude_3_5_sonnet; claude_3_5_haiku; gpt_4o; gpt_4o_mini;
                  gpt_5; o1_mini; o1_preview; o3_mini; gemini_1_5_pro] = true ->
  is_Some (environ ext !! "ANTHROPIC_API_KEY") ->
  is_Some (environ ext !! "OPENAI_API_KEY") ->
  get_next_messages ext [] model n_times w = (Raise (bare IndexError), w).
Proof.
  intros Hn Hm [ka Ha] [ko Ho]. unfold get_next_messages.
  destruct (Z.leb_spec n_times 0) as [?|_]; [lia|]. cbv zeta.
  destruct model; try discriminate Hm; decide_models;
    unfold anthropic_branch, openai_branch, gemini_branch, env_key,
      anthropic_translate, bind;
    rewrite ?Ha, ?Ho; reflexivity.
Qed.

Lemma empty_conversation_raises_witness :
  get_next_messages ext_ok [] o1_mini 2 empty_world
  = (Raise (bare IndexError), empty_world).
Proof.
  apply (empty_conversation_raises ext_ok o1_mini 2 empty_world);
    [lia|reflexivity|eexists; reflexivity|eexists; reflexivity].
Defined.

(** X11.  A conversation made of a system message alone gives Claude
    nothing to mark: once the system message is split off, the look at
    the last message raises [IndexError], before any request and with
    the store as it was. *)
Theorem system_only_conversation_raises (ext : external) (l : loc) (m : msg)
    (n_times : Z) (w : world) :
  0 < n_times ->
  is_Some (environ ext !! "ANTHROPIC_API_KEY") ->
  msgs w !! l = Some m ->
  role m = "system" ->
  get_next_messages ext [l] claude_3_5_sonnet n_times w
  = (Raise (bare IndexError), w).
Proof.
  intros Hn [ka Ha] Hl Hr. unfold get_next_messages.
  destruct (Z.leb_spec n_times 0) as [?|_]; [lia|]. cbv zeta.
  decide_models.
  unfold anthropic_branch, env_key, anthropic_translate, split_system, bind,
    get_msg.
  change (bool_decide (claude_3_5_sonnet = claude_3_5_haiku)) with false.
  rewrite Ha. cbn [ret]. rewrite Hl, Hr. reflexivity.
Qed.

Lemma system_only_conversation_raises_witness :
  get_next_messages ext_ok [0%nat] claude_3_5_sonnet 1 system_world
  = (Raise (bare IndexError), system_world).
Proof.
  apply (system_only_conversation_raises ext_ok 0%nat
           (Msg "system" (CStr "be brief")) 1 system_world);
    [lia|eexists; reflexivity|reflexivity|reflexivity].
Defined.

(** ** The reshaping of an image part *)

Lemma world_eta w : World (msgs w) (parts w) (trace w) = w.
Proof. now destruct w. Qed.

(** X12.  The reshaping of an image part is idempotent: on every store,
    a second pass over the same part changes nothing and fails no more
    than the first. *)
Theorem reshape_image_idempotent (l : loc) (w : world) :
  (reshape_image l ;; reshape_image l) w = reshape_image l w.
Proof.
  unfold bind at 1.
  destruct (reshape_image l w) as [[[]|e] w1] eqn:E; [|reflexivity].
  revert E. unfold reshape_image at 1, bind, get_part, lift, set_part, ret.
  destruct (parts w !! l) as [p|] eqn:Ep; [|discriminate].
  destruct (part_get "type" p) as [ty|] eqn:Ety; [|discriminate].
  destruct (val_is "image_url" ty) eqn:Ev.
  - cbn [parts msgs trace]. rewrite lookup_insert_eq.
    destruct (image_url_of _) as [url|] eqn:Eu; [|discriminate].
    cbn [parts msgs trace]. rewrite lookup_insert_eq.
    intros [= <-].
    unfold reshape_image, bind, get_part, lift. cbn [parts msgs trace].
    rewrite lookup_insert_eq. unfold part_get.
    rewrite lookup_delete_ne by discriminate.
    rewrite lookup_insert_ne by discriminate.
    rewrite lookup_insert_eq. reflexivity.
  - intros [= <-].
    unfold reshape_image, bind, get_part, lift. rewrite Ep, Ety, Ev. reflexivity.
Qed.

(** X13.  A part of type [image_url] that has no [image_url] entry is
    left half reshaped: the pass raises [KeyError] after the type was
    set to [image], and a second pass, finding a part that is no longer
    of type [image_url], returns without a word. *)
Theorem reshape_image_half_done (l : loc) (p : part) (w : world) :
  parts w !! l = Some p ->
  p !! "type" = Some (VStr "image_url") ->
  p !! "image_url" = None ->
  let w1 := World (msgs w) (<[l := <["type" := VStr "image"]> p]> (parts w))
              (trace w) in
  reshape_image l w = (Raise (bare KeyError), w1) /\
  reshape_image l w1 = (Ret tt, w1).
Proof.
  intros Hl Hty Hiu w1. split.
  - unfold reshape_image, bind, get_part, lift, set_part, part_get.
    rewrite Hl, Hty. cbn [val_is String.eqb Ascii.eqb Bool.eqb].
    cbn [parts msgs trace]. rewrite lookup_insert_eq.
    unfold image_url_of, part_get, obind.
    rewrite lookup_insert_ne by discriminate. now rewrite Hiu.
  - unfold reshape_image, bind, get_part, lift, part_get. subst w1.
    cbn [parts msgs trace]. rewrite !lookup_insert_eq. reflexivity.
Qed.

Lemma reshape_image_half_done_witness :
  let w := World ∅ (<[0%nat := <["type" := VStr "image_url"]> ∅]> ∅) [] in
  let w1 := World ∅ (<[0%nat := <["type" := VStr "image"]>
                                  (<["type" := VStr "image_url"]> ∅)]>
                       (<[0%nat := <["type" := VStr "image_url"]> ∅]> ∅)) [] in
  reshape_image 0%nat w = (Raise (bare KeyError), w1) /\
  reshape_image 0%nat w1 = (Ret tt, w1).
Proof.
  intros w w1.
  exact (reshape_image_half_done 0%nat (<["type" := VStr "image_url"]> ∅) w
           eq_refl eq_refl eq_refl).
Defined.

(** ** When the code parser fails, and what it extracts *)

Section BlockFacts.
Import PyStr Re Parser.

Lemma select_chunk_cases chunks s :
  (forall chunk, In chunk chunks -> contains marker chunk = false) \/
  (exists chunk, In chunk chunks /\ select_chunk chunks s = fence +:+ chunk).
Proof.
  induction chunks as [|c chunks IH].
  - left. intros chunk [].
  - cbn [select_chunk]. destruct (contains marker c) eqn:Ec.
    + right. exists c. split; [now left|reflexivity].
    + destruct IH as [IH|(chunk & Hin & E)].
      * left. intros chunk [<-|Hin]; auto.
      * right. exists chunk. split; [now right|exact E].
Qed.

Lemma count_from_absent sub s : forall skip,
  contains sub s = false -> count_from sub skip s = O.
Proof.
  induction s as [|c s IH]; intros skip H; [reflexivity|].
  rewrite contains_cons in H. apply orb_false_iff in H as [Hs Hc].
  cbn [count_from]. destruct skip; [rewrite Hs|]; now apply IH.
Qed.

Lemma partition_absent sep s :
  contains sep s = false -> partition sep s = (s, EmptyString, EmptyString).
Proof.
  induction s as [|c s IH]; intros H; [reflexivity|].
  rewrite contains_cons in H. apply orb_false_iff in H as [Hs Hc].
  cbn [partition]. rewrite Hs, (IH Hc). reflexivity.
Qed.

Lemma startswith_split sep s :
  startswith sep s = true -> s = sep +:+ drop (String.length sep) s.
Proof.
  revert s. induction sep as [|a sep IH]; intros s H; [reflexivity|].
  destruct s as [|b s]; [discriminate|]. cbn in H.
  destruct (Ascii.eqb_spec a b) as [->|]; [|discriminate].
  change (String b s = String b (sep +:+ drop (String.length sep) s)).
  f_equal. now apply IH.
Qed.

Lemma startswith_longer sep more t :
  startswith (sep +:+ more) t = true -> startswith sep t = true.
Proof.
  revert t. induction sep as [|a sep IH]; intros t H; [reflexivity|].
  change (String a sep +:+ more) with (String a (sep +:+ more)) in H.
  destruct t as [|b t]; [discriminate|]. cbn [startswith] in *.
  destruct (Ascii.eqb a b); [now apply IH|discriminate].
Qed.

(** A search skips what stands before the first occurrence of a text
    with which every match must start. *)
Lemma search_after_partition r sep s pre rest :
  sep <> EmptyString ->
  (forall t, startswith sep t = false -> match_here r t = None) ->
  partition sep s = (pre, sep, rest) ->
  search r s = search r (sep +:+ rest).
Proof.
  intros Hsep Hr. revert pre. induction s as [|c s IH]; intros pre H.
  - cbn in H. congruence.
  - cbn [partition] in H. destruct (startswith sep (String c s)) eqn:Es.
    + injection H as _ <-. now rewrite <- (startswith_split _ _ Es).
    + destruct (partition sep s) as [[b m] a] eqn:E.
      injection H as _ -> ->.
      cbn [search]. rewrite (Hr _ Es). now apply (IH b).
Qed.

(** The greedy star over any character gives back one character at a
    time: the shortest rest of the input that the continuation accepts
    wins. *)
Lemma star_any_nil {R} cap (k : string -> option string -> option R) :
  rmatch (Star (Cls any_char)) EmptyString cap k = k EmptyString cap.
Proof. reflexivity. Qed.

Lemma star_any_cons {R} c s cap (k : string -> option string -> option R) :
  rmatch (Star (Cls any_char)) (String c s) cap k
  = match rmatch (Star (Cls any_char)) s cap k with
    | Some x => Some x
    | None => k (String c s) cap
    end.
Proof.
  cbn [rmatch String.length any_char].
  assert (E : (String.length s <? S (String.length s))%nat = true)
    by (apply Nat.ltb_lt; lia).
  rewrite E. reflexivity.
Qed.

Lemma star_any_prefix {R} a b cap (k : string -> option string -> option R) x :
  rmatch (Star (Cls any_char)) b cap k = Some x ->
  rmatch (Star (Cls any_char)) (a +:+ b) cap k = Some x.
Proof.
  intros H. induction a as [|c a IH]; [exact H|].
  change (String c a +:+ b) with (String c (a +:+ b)).
  now rewrite star_any_cons, IH.
Qed.

Lemma star_any_none {R} sub s cap (k : string -> option string -> option R) :
  (forall t, startswith sub t = false -> k t cap = None) ->
  contains sub s = false ->
  rmatch (Star (Cls any_char)) s cap k = None.
Proof.
  intros Hk. induction s as [|c s IH]; intros H.
  - rewrite star_any_nil. now apply Hk.
  - rewrite contains_cons in H. apply orb_false_iff in H as [Hs Hc].
    rewrite star_any_cons, (IH Hc). now apply Hk.
Qed.

Lemma take_app a b :
  take (String.length (a +:+ b) - String.length b) (a +:+ b) = a.
Proof.
  induction a as [|c a IH].
  - change (EmptyString +:+ b) with b. rewrite Nat.sub_diag. reflexivity.
  - assert (Hl : (String.length b <= String.length (a +:+ b))%nat).
    { clear. induction a as [|x a IHa]; [change (EmptyString +:+ b) with b; lia|].
      change (String x a +:+ b) with (String x (a +:+ b)).
      cbn [String.length]. lia. }
    change (String c a +:+ b) with (String c (a +:+ b)). cbn [String.length].
    rewrite Nat.sub_succ_l by exact Hl. cbn [take]. now rewrite IH.
Qed.

Lemma match_closed_block body post :
  contains (nl +:+ "```") post = false ->
  match_here re_closed_block
    (fence +:+ nl +:+ body +:+ nl +:+ "```" +:+ post) = Some (post, body).
Proof.
  intros Hpost. unfold match_here, re_closed_block.
  cbn [rmatch].
  change (startswith (fence +:+ nl) (fence +:+ nl +:+ body +:+ nl +:+ "```" +:+ post))
    with true. cbv iota.
  change (drop (String.length (fence +:+ nl))
            (fence +:+ nl +:+ body +:+ nl +:+ "```" +:+ post))
    with (body +:+ nl +:+ "```" +:+ post).
  set (u := body +:+ nl +:+ "```" +:+ post).
  set (k := fun (s' : string) (_ : option string) =>
              rmatch (Lit (nl +:+ "```")) s'
                (Some (take (String.length u - String.length s') u))
                (fun s'' cap => Some (s'', default EmptyString cap))).
  change (rmatch (Star (Cls any_char)) u None k = Some (post, body)).
  assert (Hk : forall t, startswith (nl +:+ "```") t = false -> k t None = None).
  { intros t Ht. unfold k. cbn [rmatch]. now rewrite Ht. }
  subst u. apply star_any_prefix.
  change (nl +:+ "```" +:+ post)
    with (String "010" (String "`" (String "`" (String "`" post)))).
  rewrite !star_any_cons, (star_any_none _ _ _ _ Hk Hpost).
  rewrite !Hk by reflexivity.
  unfold k. cbn [rmatch].
  change (startswith (nl +:+ "```")
            (String "010" (String "`" (String "`" (String "`" post)))))
    with true. cbv iota beta.
  change (drop (String.length (nl +:+ "```"))
            (String "010" (String "`" (String "`" (String "`" post)))))
    with post.
  change (String "010" (String "`" (String "`" (String "`" post))))
    with ((nl +:+ "```") +:+ post).
  cbn [default]. now rewrite take_app.
Qed.

Lemma search_here r t rest g :
  match_here r t = Some (rest, g) -> search r t = Some g.
Proof. intros H. destruct t; cbn [search]; now rewrite H. Qed.

End BlockFacts.

(** X14.  The only failure of [parse_python_backticks]: it raises, and
    then [AssertionError], exactly when the text has two or more fences
    and none of its chunks holds the marker [def transform(]; on every
    other text it returns. *)
Theorem parse_python_backticks_raises_iff (s : string) (e : exn) :
  Parser.parse_python_backticks s = Raise e <->
  e = bare AssertionError /\
  (1 < PyStr.count Parser.fence s)%nat /\
  (forall chunk, In chunk (PyStr.split Parser.fence s) ->
                 PyStr.contains Parser.marker chunk = false).
Proof.
  unfold Parser.parse_python_backticks. split.
  - intros H.
    destruct (Nat.eqb_spec (PyStr.count Parser.fence s) 0) as [E|Hne].
    { destruct (negb _); discriminate. }
    destruct (Nat.ltb_spec 1 (PyStr.count Parser.fence s)) as [Hlt|Hle].
    + destruct (select_chunk_cases (rev (PyStr.split Parser.fence s)) s)
        as [Hall|(chunk & Hin & E)].
      * rewrite (select_chunk_none _ _ Hall) in H.
        destruct (Nat.eqb_spec (PyStr.count Parser.fence s) 1) as [E|_]; [lia|].
        cbn [negb] in H. injection H as <-. split_and!; auto.
        intros chunk Hin. apply Hall. now apply in_rev in Hin.
      * rewrite E in H. apply in_rev in Hin.
        rewrite (count_fence_chunk s chunk Hin) in H. cbn [Nat.eqb negb] in H.
        destruct (Re.search Parser.re_closed_block _); [discriminate|].
        destruct (Re.search Parser.re_open_block _); discriminate.
    + assert (E : PyStr.count Parser.fence s = 1%nat) by lia.
      rewrite E in H. cbn [Nat.eqb negb] in H.
      destruct (Re.search Parser.re_closed_block _); [discriminate|].
      destruct (Re.search Parser.re_open_block _); discriminate.
  - intros (-> & Hc & Hm).
    destruct (Nat.eqb_spec (PyStr.count Parser.fence s) 0) as [E|_]; [lia|].
    destruct (Nat.ltb_spec 1 (PyStr.count Parser.fence s)) as [_|E]; [|lia].
    rewrite select_chunk_none by (intros c Hin; apply Hm; now apply in_rev).
    destruct (Nat.eqb_spec (PyStr.count Parser.fence s) 1) as [E|_]; [lia|].
    reflexivity.
Qed.

(** X15.  A reply with no fence and no [</reasoning>] tag is thrown
    away whatever it holds, code included: the parser returns the
    placeholder [noop_code]. *)
Theorem parse_python_backticks_unfenced (s : string) :
  PyStr.contains Parser.fence s = false ->
  PyStr.contains "</reasoning>" s = false ->
  Parser.parse_python_backticks s = Ret Parser.noop_code.
Proof.
  intros Hf Ht. unfold Parser.parse_python_backticks, PyStr.count.
  rewrite (count_from_absent _ _ O Hf). cbn [Nat.eqb].
  now rewrite (partition_absent _ _ Ht).
Qed.

Lemma parse_python_backticks_unfenced_witness :
  Parser.parse_python_backticks
    ("def transform(grid):" +:+ PyStr.nl +:+ "    return grid")
  = Ret Parser.noop_code.
Proof.
  apply (parse_python_backticks_unfenced
           ("def transform(grid):" +:+ PyStr.nl +:+ "    return grid"));
    reflexivity.
Defined.

(** X16.  A text with a single fence, whose block is closed by a
    newline and three backticks that occur nowhere later, yields the
    body of the block with every tab expanded; what stands before the
    fence and after the closing backticks is dropped. *)
Theorem parse_python_backticks_single_block (s pre body post : string) :
  PyStr.count Parser.fence s = 1%nat ->
  PyStr.partition Parser.fence s
  = (pre, Parser.fence,
     PyStr.nl +:+ body +:+ PyStr.nl +:+ "```" +:+ post) ->
  PyStr.contains (PyStr.nl +:+ "```") post = false ->
  Parser.parse_python_backticks s = Ret (Parser.clean_code body).
Proof.
  intros Hc Hp Hpost. unfold Parser.parse_python_backticks.
  rewrite Hc. cbn [Nat.eqb Nat.ltb Nat.leb negb].
  rewrite (search_after_partition Parser.re_closed_block Parser.fence s pre _)
    with (3 := Hp).
  - rewrite Hc. cbn [Nat.eqb negb].
    now rewrite (search_here _ _ _ _ (match_closed_block body post Hpost)).
  - discriminate.
  - intros t Ht. unfold Re.match_here, Parser.re_closed_block. cbn [Re.rmatch].
    destruct (PyStr.startswith (Parser.fence +:+ PyStr.nl) t) eqn:E; [|reflexivity].
    apply startswith_longer in E. congruence.
Qed.

Lemma parse_python_backticks_single_block_witness :
  Parser.parse_python_backticks
    ("Here is `the` code:" +:+ PyStr.nl +:+ "```python" +:+ PyStr.nl
     +:+ "def transform(g):" +:+ PyStr.nl +:+ PyStr.tab +:+ "return g"
     +:+ PyStr.nl +:+ "```" +:+ PyStr.nl +:+ "Done.")
  = Ret (Parser.clean_code
           ("def transform(g):" +:+ PyStr.nl +:+ PyStr.tab +:+ "return g")).
Proof.
  apply (parse_python_backticks_single_block _
           ("Here is `the` code:" +:+ PyStr.nl)
           ("def transform(g):" +:+ PyStr.nl +:+ PyStr.tab +:+ "return g")
           (PyStr.nl +:+ "Done.")); reflexivity.
Defined.

(** ** A conversation that the xAI adapter cannot convert *)

Lemma reads_xai_parts ps : reads (xai_parts ps).
Proof. induction ps as [|l ps IH]; cbn [xai_parts]; reads_step. Qed.

Lemma reads_xai_convert messages : reads (xai_convert messages).
Proof.
  pose proof reads_xai_parts.
  induction messages as [|l ms IH]; cbn [xai_convert]; reads_step.
Qed.

Lemma get_next_message_xai_unreadable ext task messages stream w e :
  (xai_convert messages w).1 = Raise e ->
  get_next_message_xai ext task messages stream w = (Ret None, w).
Proof.
  intros H. pose proof (reads_xai_convert messages w) as Hw.
  unfold get_next_message_xai, get_next_message_xai_with.
  cbn [Z.to_nat plain_loop]. unfold bind at 1. unfold catch, bind at 1.
  destruct (xai_convert messages w) as [o w1]. cbn in H, Hw. subst o w1.
  reflexivity.
Qed.

Lemma drop_nones_none n : drop_nones (replicate n None) = [].
Proof. induction n as [|n IH]; [reflexivity|exact IH]. Qed.

(** X17.  When the conversion of the conversation to the xAI chat
    raises (a role or a part type that the adapter does not know, a
    content given as a non-empty string), the exception is caught in
    every task, which gives up at once: the Grok branch returns the
    empty list without a single request and without a wait. *)
Theorem xai_unreadable_conversation (ext : external) (messages : list loc)
    (model : Model) (n_times : Z) (w : world) (e : exn) :
  0 < n_times ->
  model_in model [grok_3; grok_4] = true ->
  is_Some (environ ext !! "XAI_API_KEY") ->
  (xai_convert messages w).1 = Raise e ->
  get_next_messages ext messages model n_times w = (Ret (Some []), w).
Proof.
  intros Hn Hm [key Hkey] He. unfold get_next_messages.
  destruct (Z.leb_spec n_times 0) as [?|_]; [lia|]. cbv zeta.
  generalize (stream_llm ext && (n_times =? 1)). intros st.
  assert (Hx : xai_branch ext messages st (Z.to_nat n_times) w
               = (Ret (Some []), w)).
  { unfold xai_branch, env_key. rewrite Hkey. unfold bind at 1. cbn [ret].
    destruct st.
    - unfold bind.
      now rewrite (get_next_message_xai_unreadable ext 0 messages true w e He).
    - unfold bind. rewrite (gather_const _ None).
      + unfold ret. now rewrite drop_nones_none.
      + apply Forall_forall. intros t Ht.
        apply list_elem_of_In, in_map_iff in Ht as (i & <- & _).
        now apply (get_next_message_xai_unreadable ext i messages false w e). }
  destruct model; try discriminate Hm; decide_models; exact Hx.
Qed.

Lemma xai_unreadable_conversation_witness :
  get_next_messages ext_ok hello_conversation grok_4 3 hello_world
  = (Ret (Some []), hello_world).
Proof.
  apply (xai_unreadable_conversation ext_ok hello_conversation grok_4 3
           hello_world (bare TypeError));
    [lia|reflexivity|eexists; reflexivity|reflexivity].
Defined.

(** ** When [text_only_messages] fails *)

Section TextOnlyFailure.
Variable w0 : world.

Lemma strs_of_dict vs :
  existsb is_dict vs = true -> strs_of vs = Raise (bare TypeError).
Proof.
  induction vs as [|[s|kv] vs IH]; intros H; [discriminate| |reflexivity].
  cbn [strs_of]. now rewrite (IH H).
Qed.

Lemma text_parts_alloc ps : forall acc w,
  parts w = parts w0 ->
  forallb (fun p => bool_decide (is_Some (parts w0 !! p))) ps = true ->
  text_parts ps acc w = (Raise (bare KeyError), w) \/
  exists vs,
    text_parts ps acc w = (Ret (acc ++ vs), w) /\
    (forallb (part_ok w0) ps = false -> existsb is_dict vs = true).
Proof.
  induction ps as [|l ps IH]; intros acc w Hp Ha.
  - right. exists []. cbn. rewrite app_nil_r. split; [reflexivity|discriminate].
  - cbn [forallb] in Ha. apply andb_prop in Ha as [Hl Hps].
    apply bool_decide_eq_true in Hl as [p Ep].
    cbn [text_parts forallb]. unfold bind, get_part, lift, part_get, part_ok.
    rewrite Hp, Ep.
    destruct (p !! "type") as [ty|]; [|now left].
    destruct (val_is "text" ty).
    + destruct (p !! "text") as [t|]; [|now left].
      destruct (IH (acc ++ [t]) w Hp Hps) as [E|(vs & E & Hd)]; [now left|].
      right. exists (t :: vs). rewrite E, <- app_assoc. split; [reflexivity|].
      intros H. cbn [existsb]. destruct t as [s|kv]; [|reflexivity].
      cbn [is_dict orb]. apply Hd. exact H.
    + destruct (IH acc w Hp Hps) as [E|(vs & E & Hd)]; [now left|].
      right. exists vs. split; [exact E|]. exact Hd.
Qed.

Lemma grown_alloc_msg w m :
  grown w0 w ->
  grown w0 (World (<[fresh (dom (msgs w)) := m]> (msgs w)) (parts w) (trace w)).
Proof.
  intros (Hp & Ht & Hm). split_and!; auto.
  intros l1 m1 H1. cbn. rewrite lookup_insert_ne; [auto|].
  intros <-. apply Hm in H1.
  assert (Hf : msgs w !! fresh (dom (msgs w)) = None)
    by (apply not_elem_of_dom, is_fresh).
  congruence.
Qed.

Lemma text_only_step_ok l ms acc w :
  grown w0 w ->
  message_ok w0 l = true ->
  exists acc' w',
    grown w0 w' /\
    text_only_loop (l :: ms) acc w = text_only_loop ms acc' w'.
Proof.
  intros Hg Hl. pose proof Hg as (Hp & Ht & Hm).
  unfold message_ok in Hl.
  destruct (msgs w0 !! l) as [m|] eqn:El; [|discriminate].
  cbn [text_only_loop]. unfold bind at 1. unfold get_msg. rewrite (Hm _ _ El).
  destruct (msg_content m) as [s|ps].
  - unfold bind, ret, lift, alloc_msg. cbn [strs_of obind].
    eexists _, _. split; [|reflexivity]. now apply grown_alloc_msg.
  - unfold bind at 1. rewrite (text_parts_ok w0 ps [] w Hp Hl). cbn [app].
    destruct (List.filter (part_is_text w0) ps) as [|x xs]; cbn [map].
    + exists acc, w. split; [exact Hg|reflexivity].
    + change (VStr (part_text w0 x) :: map VStr (map (part_text w0) xs))
        with (map VStr (part_text w0 x :: map (part_text w0) xs)).
      unfold bind, lift, alloc_msg. rewrite strs_of_strings.
      eexists _, _. split; [|reflexivity]. now apply grown_alloc_msg.
Qed.

Lemma text_only_step_bad l ms acc w :
  grown w0 w ->
  message_allocated w0 l = true ->
  message_ok w0 l = false ->
  exists e,
    text_only_loop (l :: ms) acc w = (Raise e, w) /\
    (e = bare KeyError \/ e = bare TypeError).
Proof.
  intros (Hp & Ht & Hm) Ha Hl.
  unfold message_ok in Hl. unfold message_allocated in Ha.
  destruct (msgs w0 !! l) as [m|] eqn:El; [|discriminate].
  cbn [text_only_loop]. unfold bind at 1. unfold get_msg. rewrite (Hm _ _ El).
  destruct (msg_content m) as [s|ps]; [discriminate|].
  unfold bind at 1.
  destruct (text_parts_alloc ps [] w Hp Ha) as [E|(vs & E & Hd)].
  - rewrite E. exists (bare KeyError). split; [reflexivity|now left].
  - rewrite E. cbn [app]. specialize (Hd Hl).
    destruct vs as [|v vs]; [discriminate|].
    unfold bind, lift. rewrite (strs_of_dict _ Hd).
    exists (bare TypeError). split; [reflexivity|now right].
Qed.

Lemma text_only_loop_bad messages : forall acc w,
  grown w0 w ->
  allocated w0 messages = true ->
  conversation_ok w0 messages = false ->
  exists e w',
    text_only_loop messages acc w = (Raise e, w') /\
    (e = bare KeyError \/ e = bare TypeError) /\
    grown w0 w'.
Proof.
  induction messages as [|l ms IH]; intros acc w Hg Ha Hok; [discriminate|].
  cbn [allocated conversation_ok forallb] in Ha, Hok.
  apply andb_prop in Ha as [Hal Hams].
  destruct (message_ok w0 l) eqn:Hl.
  - destruct (text_only_step_ok l ms acc w Hg Hl) as (acc' & w' & Hg' & ->).
    apply IH; auto.
  - destruct (text_only_step_bad l ms acc w Hg Hal Hl) as (e & -> & He).
    exists e, w. auto.
Qed.

End TextOnlyFailure.

(** X18.  The only failures of [text_only_messages]: on a conversation
    whose dictionaries are all in the store, it raises exactly when some
    part has no [type], or is of type [text] without a string under
    [text]; the exception is then [KeyError] or [TypeError], and the
    caller's dictionaries and the trace are as they were. *)
Theorem text_only_messages_fails (w : world) (messages : list loc) :
  allocated w messages = true ->
  conversation_ok w messages = false ->
  exists e w',
    text_only_messages messages w = (Raise e, w') /\
    (e = bare KeyError \/ e = bare TypeError) /\
    store_kept w w' /\ parts w' = parts w /\ trace w' = trace w.
Proof.
  intros Ha Hok.
  destruct (text_only_loop_bad w messages [] w) as (e & w' & E & He & Hg); auto.
  { split_and!; auto. }
  exists e, w'. destruct Hg as (Hp & Ht & Hm).
  split_and!; auto. split; [exact Hm|]. intros l p. now rewrite Hp.
Qed.

Lemma text_only_messages_fails_witness :
  exists e w',
    text_only_messages [0%nat] untyped_world = (Raise e, w') /\
    (e = bare KeyError \/ e = bare TypeError) /\
    store_kept untyped_world w' /\ parts w' = parts untyped_world /\
    trace w' = trace untyped_world.
Proof.
  apply (text_only_messages_fails untyped_world [0%nat]); reflexivity.
Defined.

(** ** One failure in a batch of the OpenRouter branch *)

Lemma gather_all_return {A} race (f : nat -> M A) (ev : nat -> event) count :
  forall first w,
    (forall i, (first <= i < first + count)%nat ->
       exists a, forall w, f i w = (Ret a, extend w [ev i])) ->
    exists l,
      gather race (tasks_from first count f) w
      = (Ret l, extend w (map ev (seq first count))).
Proof.
  unfold tasks_from. induction count as [|count IH]; intros first w H.
  - exists []. cbn. now rewrite extend_nil.
  - destruct (H first ltac:(lia)) as [a Ha].
    destruct (IH (S first) (extend w [ev first])) as [l El].
    { intros i Hi. apply H. lia. }
    exists (a :: l). cbn [seq map]. rewrite gather_cons, Ha, El.
    now rewrite extend_extend.
Qed.

Lemma gather_first_failure {A} race (f : nat -> M A) (ev : nat -> event) e j count :
  forall first w,
    (first <= j < first + count)%nat ->
    (forall w, f j w = (Raise e, extend w [ev j])) ->
    (forall i, (first <= i < first + count)%nat -> i <> j ->
       exists a, forall w, f i w = (Ret a, extend w [ev i])) ->
    gather race (tasks_from first count f) w
    = (Raise e, extend w (map ev (seq first count))).
Proof.
  induction count as [|count IH]; intros first w Hj Hf Hok; [lia|].
  unfold tasks_from in *. cbn [seq map]. rewrite gather_cons.
  destruct (Nat.eq_dec first j) as [->|Hne].
  - rewrite Hf.
    destruct (gather_all_return race f ev count (S j) (extend w [ev j])) as [l El].
    { intros i Hi. apply Hok; lia. }
    unfold tasks_from in El.
    pose proof (gather_world race (map f (seq (S j) count)) (extend w [ev j])) as Hw.
    rewrite El in Hw. cbn [snd] in Hw. rewrite <- Hw, extend_extend.
    unfold gather in El.
    destruct (raised (run_all (map f (seq (S j) count)) (extend w [ev j])).1)
      as [|e0 es]; [|discriminate El].
    now rewrite (first_raised_same race e []).
  - destruct (Hok first ltac:(lia) Hne) as [a Ha]. rewrite Ha.
    rewrite (IH (S first)); [now rewrite extend_extend|lia|exact Hf|].
    intros i Hi. apply Hok. lia.
Qed.

(** X19.  In the OpenRouter branch one error that the retry wrapper
    does not retry is enough to lose the batch: with every other task
    answered at its first attempt, the orchestrator still makes all
    [n_times] requests, then raises that error and returns none of the
    replies. *)
Theorem openrouter_batch_lost (ext : external) (messages ms : list loc)
    (n_times : Z) (w w1 : world) (j : nat) (e : exn) :
  0 < n_times ->
  environ ext !! "NO_WIFI" = None ->
  is_Some (environ ext !! "OPENROUTER_API_KEY") ->
  text_only_messages messages w = (Ret ms, w1) ->
  (j < Z.to_nat n_times)%nat ->
  attempt ext j 0 = Failure e ->
  should_retry e = false ->
  (forall i, (i < Z.to_nat n_times)%nat -> i <> j ->
     exists r, attempt ext i 0 = Success r) ->
  get_next_messages ext messages openrouter_model n_times w
  = (Raise e,
     extend w1 (map (fun i => EvCall i 0 (Some 20000) (stream_llm ext))
                  (seq 0 (Z.to_nat n_times)))).
Proof.
  intros Hn Hnw [key Hkey] Hms Hj He Hs Hok. unfold get_next_messages.
  destruct (Z.leb_spec n_times 0) as [?|_]; [lia|]. cbv zeta.
  decide_models.
  unfold openrouter_branch, env_key. rewrite Hkey. unfold bind at 1. cbn [ret].
  change (model_in openrouter_model
            [openrouter_model; openrouter_o1; openrouter_o1_mini]) with true.
  cbv iota. unfold bind at 1. rewrite Hms. unfold bind at 1.
  rewrite (gather_first_failure (race ext)
             (fun i => get_message_with_retry ext i ms openrouter_model)
             (fun i => EvCall i 0 (Some 20000) (stream_llm ext)) e j).
  - reflexivity.
  - lia.
  - intros w'. unfold get_message_with_retry.
    destruct (retry_range_decided ext j ms 5 0 Hnw 5%nat 0 w')
      as [_ Hf]; try lia.
    apply (Hf e); [exact He|now left].
  - intros i Hi Hne. destruct (Hok i ltac:(lia) Hne) as [r Hr].
    exists (Some r). intros w'. unfold get_message_with_retry.
    destruct (retry_range_decided ext i ms 5 0 Hnw 5%nat 0 w')
      as [Hsucc _]; try lia.
    apply (Hsucc r). exact Hr.
Qed.

Lemma openrouter_batch_lost_witness :
  get_next_messages ext_one_bad hello_conversation openrouter_model 3 hello_world
  = (Raise (Exn OtherError "Error code: 400"),
     extend (text_only_messages hello_conversation hello_world).2
       (map (fun i => EvCall i 0 (Some 20000) (stream_llm ext_one_bad))
          (seq 0 3))).
Proof.
  apply (openrouter_batch_lost ext_one_bad hello_conversation
           (match (text_only_messages hello_conversation hello_world).1 with
            | Ret ms => ms | Raise _ => [] end)
           3 hello_world _ 1%nat (Exn OtherError "Error code: 400"));
    [lia|reflexivity|eexists; reflexivity|vm_compute; reflexivity
    |vm_compute; lia|reflexivity|reflexivity|].
  intros i Hi Hne. exists ("ok", None).
  destruct i as [|[|[|i]]]; [reflexivity|congruence|reflexivity|vm_compute in Hi; lia].
Defined.

(** ** Gemini and the system message *)

(** X20.  Gemini needs a leading system message: on a conversation
    whose first message has another role, the fan-out call and the
    legacy call both raise [IndexError] at the look for the system
    instruction, before the cache is created or any request is made. *)
Theorem gemini_needs_system_message (ext : external) (messages : list loc)
    (head : loc) (rest : list loc) (m : msg) (n_times : Z) (task k : nat)
    (w : world) :
  messages = head :: rest ->
  msgs w !! head = Some m ->
  String.eqb (role m) "system" = false ->
  (0 < n_times ->
   get_next_messages ext messages gemini_1_5_pro n_times w
   = (Raise (bare IndexError), w)) /\
  (environ ext !! "NO_WIFI" = None ->
   get_next_message ext task k messages gemini_1_5_pro w
   = (Raise (bare IndexError), w)).
Proof.
  intros -> Hm Hr. split.
  - intros Hn. unfold get_next_messages.
    destruct (Z.leb_spec n_times 0) as [?|_]; [lia|]. cbv zeta.
    decide_models.
    unfold gemini_branch, split_system, bind, get_msg. now rewrite Hm, Hr.
  - intros Hnw. unfold get_next_message, no_wifi. rewrite Hnw.
    unfold bind at 1. cbn [ret]. decide_models.
    unfold split_system, bind, get_msg. now rewrite Hm, Hr.
Qed.

Lemma gemini_needs_system_message_witness :
  get_next_messages ext_ok hello_conversation gemini_1_5_pro 2 hello_world
  = (Raise (bare IndexError), hello_world).
Proof.
  apply (gemini_needs_system_message ext_ok hello_conversation 0%nat []
           (Msg "user" (CStr "hello")) 2 0 0 hello_world);
    [reflexivity|reflexivity|reflexivity|lia].
Defined.

(** ** [remove_thinking] *)

Section ThinkingFacts.
Import PyStr.

Lemma contains_drop sub s : forall n,
  contains sub s = false -> contains sub (drop n s) = false.
Proof.
  induction s as [|c s IH]; intros n H.
  - now destruct n.
  - destruct n as [|n]; [exact H|]. cbn [drop]. apply IH.
    rewrite contains_cons in H. now apply orb_false_iff in H as [_ H].
Qed.

Lemma str_find_absent sub s : contains sub s = false -> str_find sub s = None.
Proof.
  induction s as [|c s IH]; intros H.
  - cbn in *. now rewrite H.
  - rewrite contains_cons in H. apply orb_false_iff in H as [Hs Hc].
    cbn [str_find]. now rewrite Hs, (IH Hc).
Qed.

Lemma remove_thinking_from_skip a : forall b,
  remove_thinking_from (String.length a) (a +:+ b) = remove_thinking_from 0 b.
Proof.
  induction a as [|c a IH]; intros b.
  - reflexivity.
  - change (String c a +:+ b) with (String c (a +:+ b)).
    cbn [String.length remove_thinking_from]. destruct a as [|c' a'].
    + reflexivity.
    + apply IH.
Qed.

Lemma append_cons c a b : String c a +:+ b = String c (a +:+ b).
Proof. reflexivity. Qed.

Lemma append_nil b : EmptyString +:+ b = b.
Proof. reflexivity. Qed.

Lemma append_assoc a b c : (a +:+ b) +:+ c = a +:+ b +:+ c.
Proof.
  induction a as [|x a IH]; [reflexivity|].
  now rewrite !append_cons, IH.
Qed.

Lemma length_app a b :
  String.length (a +:+ b) = (String.length a + String.length b)%nat.
Proof.
  induction a as [|c a IH]; [reflexivity|].
  change (String c a +:+ b) with (String c (a +:+ b)).
  cbn [String.length]. now rewrite IH.
Qed.

(** The closing tag does not overlap itself: behind a text that does
    not start with it, it cannot start before its own first
    character. *)
Lemma think_close_no_border u v :
  u <> EmptyString ->
  startswith think_close u = false ->
  startswith think_close (u +:+ think_close +:+ v) = false.
Proof.
  intros Hu H. unfold think_close in *.
  destruct u as [|c1 [|c2 [|c3 [|c4 [|c5 [|c6 [|c7 [|c8 u]]]]]]]];
    [congruence|..];
    rewrite ?append_cons, ?append_nil; cbn [startswith] in *;
    try exact H;
    repeat match goal with
           | |- context [Ascii.eqb ?a ?b] => is_var b; destruct (Ascii.eqb a b)
           end;
    reflexivity.
Qed.

Lemma str_find_close t rest :
  contains think_close t = false ->
  str_find think_close (t +:+ think_close +:+ rest) = Some (String.length t).
Proof.
  induction t as [|c t IH]; intros H.
  - reflexivity.
  - rewrite contains_cons in H. apply orb_false_iff in H as [Hs Hc].
    change (String c t +:+ think_close +:+ rest)
      with (String c (t +:+ think_close +:+ rest)).
    cbn [str_find].
    change (String c (t +:+ think_close +:+ rest))
      with (String c t +:+ think_close +:+ rest).
    rewrite (think_close_no_border (String c t) rest) by (congruence || exact Hs).
    now rewrite (IH Hc).
Qed.

Lemma remove_thinking_from_unchanged s :
  contains think_open s = false \/ contains think_close s = false ->
  remove_thinking_from 0 s = s.
Proof.
  induction s as [|c s IH]; intros H; [reflexivity|].
  assert (Hs : contains think_open s = false \/ contains think_close s = false).
  { destruct H as [H|H]; rewrite contains_cons in H;
      apply orb_false_iff in H as [_ H]; auto. }
  cbn [remove_thinking_from].
  destruct (startswith think_open (String c s)) eqn:Eo.
  - destruct H as [H|H].
    + rewrite contains_cons, Eo in H. discriminate.
    + rewrite (str_find_absent _ _ (contains_drop _ _ _ H)).
      now rewrite (IH Hs).
  - now rewrite (IH Hs).
Qed.

End ThinkingFacts.

(** X21.  A text without an opening tag, or without a closing tag, is
    returned as it is: a thought that was opened and never closed, as in
    a reply cut short, is kept. *)
Theorem remove_thinking_unchanged (s : string) :
  PyStr.contains think_open s = false \/ PyStr.contains think_close s = false ->
  remove_thinking s = s.
Proof. apply remove_thinking_from_unchanged. Qed.

Lemma remove_thinking_unchanged_witness :
  remove_thinking "<think>so the grid is" = "<think>so the grid is".
Proof.
  apply (remove_thinking_unchanged "<think>so the grid is").
  right. reflexivity.
Defined.

(** X22.  A leading block, from the opening tag to the first closing
    tag behind it, is removed with all that it holds, newlines and
    further opening tags included; what is returned is what
    [remove_thinking] makes of the rest. *)
Theorem remove_thinking_block (t rest : string) :
  PyStr.contains think_close t = false ->
  remove_thinking (think_open +:+ t +:+ think_close +:+ rest)
  = remove_thinking rest.
Proof.
  intros H. unfold remove_thinking.
  change (think_open +:+ t +:+ think_close +:+ rest)
    with (String "<" ("think>" +:+ t +:+ think_close +:+ rest)).
  cbn [remove_thinking_from].
  change (PyStr.startswith think_open
            (String "<" ("think>" +:+ t +:+ think_close +:+ rest))) with true.
  cbv iota.
  change (PyStr.drop (String.length think_open)
            (String "<" ("think>" +:+ t +:+ think_close +:+ rest)))
    with (t +:+ think_close +:+ rest).
  rewrite (str_find_close t rest H).
  replace (String.length think_open + String.length t
           + String.length think_close - 1)%nat
    with (String.length ("think>" +:+ t +:+ think_close)).
  - rewrite <- (remove_thinking_from_skip ("think>" +:+ t +:+ think_close) rest).
    f_equal.
    change ("think>" +:+ t +:+ think_close +:+ rest)
      with ("think>" +:+ (t +:+ (think_close +:+ rest))).
    change ("think>" +:+ t +:+ think_close)
      with ("think>" +:+ (t +:+ think_close)).
    rewrite !append_assoc. reflexivity.
  - rewrite !length_app. cbn [String.length think_open think_close]. lia.
Qed.

Lemma remove_thinking_block_witness :
  remove_thinking
    ("<think>rows first" +:+ PyStr.nl +:+ "<think>then columns</think>done")
  = "done".
Proof.
  apply (remove_thinking_block
           ("rows first" +:+ PyStr.nl +:+ "<think>then columns") "done").
  reflexivity.
Defined.

(** ** A printed grid parses back to itself *)

Section GridFacts.
Import PyStr Re Parser.

Lemma rmatch_star {R} r s cap (k : string -> option string -> option R) :
  rmatch (Star r) s cap k = star_run r k (String.length s) s cap.
Proof. reflexivity. Qed.

Lemma star_run_cls {R} p (k : string -> option string -> option R) a :
  forall fuel b cap x,
    (String.length (a +:+ b) <= fuel)%nat ->
    all_chars p a = true ->
    stops p b = true ->
    k b cap = Some x ->
    star_run (Cls p) k fuel (a +:+ b) cap = Some x.
Proof.
  induction a as [|c a IH]; intros fuel b cap x Hf Ha Hb Hk.
  - rewrite append_nil. destruct fuel as [|fuel]; [exact Hk|].
    cbn [star_run rmatch]. destruct b as [|c b]; [exact Hk|].
    cbn [stops] in Hb. apply negb_true_iff in Hb. now rewrite Hb.
  - rewrite append_cons in *. cbn [String.length] in Hf.
    destruct fuel as [|fuel]; [lia|].
    cbn [all_chars] in Ha. apply andb_prop in Ha as [Hc Ha].
    cbn [star_run rmatch]. rewrite Hc.
    assert (E : (String.length (a +:+ b) <? String.length (String c (a +:+ b)))%nat
                = true) by (apply Nat.ltb_lt; cbn [String.length]; lia).
    rewrite E, (IH fuel b cap x); auto. lia.
Qed.

Lemma rmatch_star_cls {R} p (k : string -> option string -> option R) a b cap x :
  all_chars p a = true ->
  stops p b = true ->
  k b cap = Some x ->
  rmatch (Star (Cls p)) (a +:+ b) cap k = Some x.
Proof. intros. rewrite rmatch_star. now apply star_run_cls. Qed.

Lemma all_chars_app p a b :
  all_chars p (a +:+ b) = all_chars p a && all_chars p b.
Proof.
  induction a as [|c a IH]; [reflexivity|].
  rewrite append_cons. cbn [all_chars]. now rewrite IH, andb_assoc.
Qed.

Lemma colour_cases z :
  colour z = true ->
  z = 0 \/ z = 1 \/ z = 2 \/ z = 3 \/ z = 4 \/ z = 5 \/ z = 6 \/ z = 7
  \/ z = 8 \/ z = 9.
Proof. unfold colour. intros H. apply andb_prop in H as [H1 H2]. lia. Qed.

Ltac colour_case H :=
  apply colour_cases in H;
  destruct H as [->|[->|[->|[->|[->|[->|[->|[->|[->| ->]]]]]]]]].

Lemma append_nil_r a : a +:+ EmptyString = a.
Proof. induction a as [|c a IH]; [reflexivity|]. now rewrite append_cons, IH. Qed.

Lemma rmatch_chr {R} c s cap (k : string -> option string -> option R) :
  rmatch (Chr c) (String c s) cap k = k s cap.
Proof. cbn [rmatch]. now rewrite Ascii.eqb_refl. Qed.

Lemma rmatch_chr_ne {R} c x s cap (k : string -> option string -> option R) :
  Ascii.eqb x c = false -> rmatch (Chr c) (String x s) cap k = None.
Proof. intros H. cbn [rmatch]. now rewrite H. Qed.

Lemma row_inner_cons z zs :
  row_inner (z :: zs) = digit_text z +:+ more_digits zs.
Proof.
  revert z. induction zs as [|y ys IH]; intros z.
  - cbn [more_digits]. now rewrite append_nil_r.
  - change (row_inner (z :: y :: ys))
      with (digit_text z +:+ ", " +:+ row_inner (y :: ys)).
    now rewrite IH.
Qed.

Lemma grid_inner_cons row rows :
  grid_inner (row :: rows) = row_text row +:+ more_rows rows.
Proof.
  revert row. induction rows as [|r rs IH]; intros row.
  - cbn [more_rows]. now rewrite append_nil_r.
  - change (grid_inner (row :: r :: rs))
      with (row_text row +:+ ", " +:+ grid_inner (r :: rs)).
    now rewrite IH.
Qed.

Lemma row_text_app row rest :
  row_text row +:+ rest = String "[" (row_inner row +:+ String "]" rest).
Proof. unfold row_text. now rewrite !append_assoc. Qed.

Lemma digit_chars z :
  colour z = true ->
  all_chars (not_in "[]") (digit_text z) = true /\
  all_chars (not_in "]") (digit_text z) = true.
Proof. intros H. colour_case H; split; reflexivity. Qed.

Lemma more_digits_chars p zs :
  all_chars p ", " = true ->
  (forall z, colour z = true -> all_chars p (digit_text z) = true) ->
  forallb colour zs = true ->
  all_chars p (more_digits zs) = true.
Proof.
  intros Hs Hd. induction zs as [|z zs IH]; intros H; [reflexivity|].
  cbn [forallb] in H. apply andb_prop in H as [Hz Hzs].
  cbn [more_digits]. rewrite !all_chars_app, Hs, (Hd z Hz), (IH Hzs). reflexivity.
Qed.

Lemma row_inner_chars p row :
  all_chars p ", " = true ->
  (forall z, colour z = true -> all_chars p (digit_text z) = true) ->
  forallb colour row = true ->
  all_chars p (row_inner row) = true.
Proof.
  intros Hs Hd H. destruct row as [|z zs]; [reflexivity|].
  cbn [forallb] in H. apply andb_prop in H as [Hz Hzs].
  rewrite row_inner_cons, all_chars_app, (Hd z Hz).
  now rewrite more_digits_chars.
Qed.

Lemma rmatch_cat {R} r1 r2 s cap (k : string -> option string -> option R) :
  rmatch (Cat r1 r2) s cap k
  = rmatch r1 s cap (fun s' cap' => rmatch r2 s' cap' k).
Proof. reflexivity. Qed.

Lemma rmatch_group {R} r s cap (k : string -> option string -> option R) :
  rmatch (Group r) s cap k
  = rmatch r s cap
      (fun s' _ => k s' (Some (take (String.length s - String.length s') s))).
Proof. reflexivity. Qed.

Lemma rmatch_spaces_none {R} s cap (k : string -> option string -> option R) x :
  stops isspace s = true ->
  k s cap = Some x ->
  rmatch (Star (Cls isspace)) s cap k = Some x.
Proof.
  intros Hs Hk. rewrite <- (append_nil s).
  now apply (rmatch_star_cls isspace).
Qed.

Lemma rmatch_row {R} row rest cap (k : string -> option string -> option R) x :
  forallb colour row = true ->
  k rest cap = Some x ->
  rmatch re_row (row_text row +:+ rest) cap k = Some x.
Proof.
  intros Hrow Hk. rewrite row_text_app. unfold re_row.
  rewrite rmatch_cat, rmatch_chr, rmatch_cat.
  apply (rmatch_star_cls (not_in "[]")).
  - apply row_inner_chars; [reflexivity| |exact Hrow].
    intros z Hz. now apply digit_chars.
  - reflexivity.
  - now rewrite rmatch_chr.
Qed.

Lemma star_run_rows {R} (k : string -> option string -> option R) rows :
  forall fuel post cap x,
    (String.length (more_rows rows +:+ String "]" post) <= fuel)%nat ->
    forallb (forallb colour) rows = true ->
    k (String "]" post) cap = Some x ->
    star_run re_more k fuel (more_rows rows +:+ String "]" post) cap = Some x.
Proof.
  induction rows as [|row rows IH]; intros fuel post cap x Hf Hrows Hk.
  - cbn [more_rows]. rewrite append_nil.
    destruct fuel as [|fuel]; [exact Hk|].
    cbn [star_run]. unfold re_more at 1.
    now rewrite rmatch_cat, rmatch_chr_ne, Hk by reflexivity.
  - cbn [forallb] in Hrows. apply andb_prop in Hrows as [Hrow Hrows].
    cbn [more_rows] in *. rewrite !append_assoc in *.
    rewrite !append_cons, append_nil in *. cbn [String.length] in Hf.
    destruct fuel as [|fuel]; [lia|].
    cbn [star_run]. unfold re_more at 1.
    rewrite rmatch_cat, rmatch_chr, rmatch_cat.
    set (rest := more_rows rows +:+ String "]" post) in *.
    rewrite length_app in Hf.
    erewrite (rmatch_star_cls isspace _ " " (row_text row +:+ rest)); [reflexivity|..].
    + reflexivity.
    + rewrite row_text_app. reflexivity.
    + apply rmatch_row; [exact Hrow|].
      assert (El : (String.length rest
                    <? String.length
                         (String "," (String " " (row_text row +:+ rest))))%nat
                   = true).
      { apply Nat.ltb_lt. cbn [String.length]. rewrite length_app. lia. }
      rewrite El. apply IH; [|exact Hrows|exact Hk].
      fold rest. lia.
Qed.

Lemma rmatch_rows {R} row rows post cap
    (k : string -> option string -> option R) x :
  forallb colour row = true ->
  forallb (forallb colour) rows = true ->
  k (String "]" post) cap = Some x ->
  rmatch re_rows (grid_inner (row :: rows) +:+ String "]" post) cap k = Some x.
Proof.
  intros Hrow Hrows Hk. rewrite grid_inner_cons, append_assoc.
  unfold re_rows. rewrite rmatch_cat.
  apply rmatch_row; [exact Hrow|].
  rewrite rmatch_cat, rmatch_star.
  apply star_run_rows; [lia|exact Hrows|].
  now apply rmatch_spaces_none.
Qed.

Lemma match_grid row rows post :
  forallb colour row = true ->
  forallb (forallb colour) rows = true ->
  match_here re_grid (grid_text (row :: rows) +:+ post)
  = Some (post, grid_inner (row :: rows)).
Proof.
  intros Hrow Hrows. unfold match_here, grid_text.
  rewrite !append_assoc, append_cons, append_nil.
  change ("]" +:+ post) with (String "]" post).
  change re_grid
    with (Cat (Chr "[") (Cat (Star (Cls isspace)) (Cat (Group re_rows) (Chr "]")))).
  rewrite rmatch_cat, rmatch_chr, rmatch_cat.
  apply rmatch_spaces_none.
  - rewrite grid_inner_cons, append_assoc, row_text_app. reflexivity.
  - rewrite rmatch_cat, rmatch_group.
    apply rmatch_rows; [exact Hrow|exact Hrows|].
    rewrite rmatch_chr. cbn [default]. f_equal. f_equal.
    apply (take_app (grid_inner (row :: rows)) (String "]" post)).
Qed.

Lemma match_here_no_open r c s :
  Ascii.eqb c "[" = false -> match_here (Cat (Chr "[") r) (String c s) = None.
Proof. intros H. unfold match_here. now rewrite rmatch_cat, rmatch_chr_ne. Qed.

Lemma no_open_cons c s :
  contains "[" (String c s) = false ->
  Ascii.eqb c "[" = false /\ contains "[" s = false.
Proof.
  rewrite contains_cons. intros H. apply orb_false_iff in H as [Hs Hc].
  split; [|exact Hc]. cbn [startswith] in Hs.
  rewrite Ascii.eqb_sym. now destruct (Ascii.eqb "[" c).
Qed.

Lemma findall_no_open r s :
  contains "[" s = false -> findall_from (Cat (Chr "[") r) 0 s = [].
Proof.
  induction s as [|c s IH]; intros H; [reflexivity|].
  apply no_open_cons in H as [Hc Hs].
  cbn [findall_from]. now rewrite (match_here_no_open r c s Hc), (IH Hs).
Qed.

Lemma findall_pre r pre s :
  contains "[" pre = false ->
  findall_from (Cat (Chr "[") r) 0 (pre +:+ s)
  = findall_from (Cat (Chr "[") r) 0 s.
Proof.
  induction pre as [|c pre IH]; intros H; [reflexivity|].
  apply no_open_cons in H as [Hc Hs]. rewrite append_cons.
  cbn [findall_from].
  now rewrite (match_here_no_open r c (pre +:+ s) Hc), (IH Hs).
Qed.

Lemma findall_skip r a : forall b,
  findall_from r (String.length a) (a +:+ b) = findall_from r 0 b.
Proof.
  induction a as [|c a IH]; intros b; [reflexivity|].
  rewrite append_cons. cbn [String.length findall_from]. apply IH.
Qed.

(** A match found at the head of the text, when the pattern starts with
    an opening bracket: the scan resumes behind the match. *)
Lemma findall_here r body rest g :
  match_here r (String "[" (body +:+ rest)) = Some (rest, g) ->
  findall_from r 0 (String "[" (body +:+ rest)) = g :: findall_from r 0 rest.
Proof.
  intros H. cbn [findall_from]. rewrite H, length_app.
  replace (String.length body + String.length rest - String.length rest)%nat
    with (String.length body) by lia.
  now rewrite findall_skip.
Qed.

Lemma findall_grid pre row rows post :
  forallb colour row = true ->
  forallb (forallb colour) rows = true ->
  contains "[" pre = false ->
  contains "[" post = false ->
  findall re_grid (pre +:+ grid_text (row :: rows) +:+ post)
  = [grid_inner (row :: rows)].
Proof.
  intros Hrow Hrows Hpre Hpost. unfold findall.
  pose proof (match_grid row rows post Hrow Hrows) as Hm.
  change re_grid
    with (Cat (Chr "[") (Cat (Star (Cls isspace)) (Cat (Group re_rows) (Chr "]"))))
    in *.
  rewrite (findall_pre _ pre _ Hpre).
  assert (E : grid_text (row :: rows) +:+ post
              = String "[" ((grid_inner (row :: rows) +:+ "]") +:+ post)).
  { unfold grid_text. now rewrite !append_assoc. }
  rewrite E in *. rewrite (findall_here _ _ _ _ Hm).
  now rewrite (findall_no_open _ post Hpost).
Qed.

Lemma match_inner row rest :
  forallb colour row = true ->
  match_here re_inner (String "[" ((row_inner row +:+ "]") +:+ rest))
  = Some (rest, row_inner row).
Proof.
  intros Hrow. unfold match_here, re_inner.
  rewrite append_assoc. change ("]" +:+ rest) with (String "]" rest).
  rewrite rmatch_cat, rmatch_chr, rmatch_cat, rmatch_group.
  apply (rmatch_star_cls (not_in "]")).
  - apply row_inner_chars; [reflexivity| |exact Hrow].
    intros z Hz. now apply digit_chars.
  - reflexivity.
  - rewrite rmatch_chr. cbn [default]. f_equal. f_equal.
    apply (take_app (row_inner row) (String "]" rest)).
Qed.

Lemma findall_inner_row row rest :
  forallb colour row = true ->
  findall_from re_inner 0 (row_text row +:+ rest)
  = row_inner row :: findall_from re_inner 0 rest.
Proof.
  intros Hrow.
  assert (E : row_text row +:+ rest
              = String "[" ((row_inner row +:+ "]") +:+ rest)).
  { unfold row_text. now rewrite !append_assoc. }
  rewrite E. apply findall_here. now apply match_inner.
Qed.

Lemma findall_more_rows rows :
  forallb (forallb colour) rows = true ->
  findall_from re_inner 0 (more_rows rows) = map row_inner rows.
Proof.
  induction rows as [|row rows IH]; intros H; [reflexivity|].
  cbn [forallb] in H. apply andb_prop in H as [Hrow Hrows].
  cbn [more_rows map].
  change re_inner
    with (Cat (Chr "[") (Cat (Group (Star (Cls (not_in "]")))) (Chr "]"))).
  rewrite (findall_pre _ ", " _ eq_refl).
  change (Cat (Chr "[") (Cat (Group (Star (Cls (not_in "]")))) (Chr "]")))
    with re_inner.
  now rewrite (findall_inner_row row _ Hrow), (IH Hrows).
Qed.

Lemma findall_inner_grid row rows :
  forallb colour row = true ->
  forallb (forallb colour) rows = true ->
  findall re_inner (grid_inner (row :: rows)) = map row_inner (row :: rows).
Proof.
  intros Hrow Hrows. unfold findall. rewrite grid_inner_cons.
  now rewrite (findall_inner_row row _ Hrow), (findall_more_rows rows Hrows).
Qed.

Lemma digit_text_char z :
  colour z = true ->
  exists d, digit_text z = String d EmptyString /\ Ascii.eqb "," d = false.
Proof. intros H. colour_case H; eexists; split; reflexivity. Qed.

Lemma split_more_digits zs :
  forallb colour zs = true ->
  split_from "," 0 (more_digits zs)
  = EmptyString :: map (fun z => " " +:+ digit_text z) zs.
Proof.
  induction zs as [|z zs IH]; intros H; [reflexivity|].
  cbn [forallb] in H. apply andb_prop in H as [Hz Hzs].
  destruct (digit_text_char z Hz) as (d & Ed & Hd).
  cbn [more_digits map]. rewrite Ed, !append_cons, !append_nil.
  cbn [split_from startswith String.length Nat.sub].
  rewrite Ascii.eqb_refl. change (Ascii.eqb "," " ") with false.
  rewrite Hd, (IH Hzs). reflexivity.
Qed.

Lemma split_row_inner z zs :
  forallb colour (z :: zs) = true ->
  split "," (row_inner (z :: zs))
  = digit_text z :: map (fun z => " " +:+ digit_text z) zs.
Proof.
  intros H. cbn [forallb] in H. apply andb_prop in H as [Hz Hzs].
  destruct (digit_text_char z Hz) as (d & Ed & Hd).
  unfold split. rewrite row_inner_cons, Ed, append_cons, append_nil.
  cbn [split_from startswith]. now rewrite Hd, (split_more_digits zs Hzs).
Qed.

Lemma token_digit z :
  colour z = true ->
  token_ok (digit_text z) = true /\
  token_ok (" " +:+ digit_text z) = true /\
  (if blank (digit_text z) then None else int (strip (digit_text z))) = Some z /\
  (if blank (" " +:+ digit_text z) then None
   else int (strip (" " +:+ digit_text z))) = Some z.
Proof. intros H. colour_case H; vm_compute; auto. Qed.

Lemma row_inner_ok row :
  forallb colour row = true ->
  row_ok (row_inner row) = true /\ row_values (row_inner row) = row.
Proof.
  intros H. destruct row as [|z zs]; [split; reflexivity|].
  unfold row_ok, row_values. rewrite (split_row_inner z zs H).
  cbn [forallb] in H. apply andb_prop in H as [Hz Hzs].
  destruct (token_digit z Hz) as (Ht & _ & Hv & _).
  cbn [forallb omap list_omap map]. rewrite Ht, Hv. cbn [andb].
  induction zs as [|y ys IH]; [split; reflexivity|].
  cbn [forallb] in Hzs. apply andb_prop in Hzs as [Hy Hys].
  destruct (token_digit y Hy) as (_ & Hty & _ & Hvy).
  destruct (IH Hys) as [IH1 IH2].
  cbn [forallb omap list_omap map]. rewrite Hty, Hvy. cbn [andb].
  split; [exact IH1|]. injection IH2 as IH2. now rewrite IH2.
Qed.

Lemma grid_inner_ok grid :
  forallb (forallb colour) grid = true ->
  forallb row_ok (map row_inner grid) = true /\
  map row_values (map row_inner grid) = grid.
Proof.
  induction grid as [|row grid IH]; intros H; [split; reflexivity|].
  cbn [forallb] in H. apply andb_prop in H as [Hrow Hgrid].
  destruct (row_inner_ok row Hrow) as [H1 H2].
  destruct (IH Hgrid) as [IH1 IH2].
  cbn [map forallb]. now rewrite H1, H2, IH1, IH2.
Qed.

End GridFacts.

(** X23.  A grid of colours printed the way Python prints a list of
    lists, with any text around it that holds no opening bracket, is
    parsed back to that one grid. *)
Theorem parse_2d_arrays_round_trip (pre post : string) (grid : list (list Z)) :
  grid <> [] ->
  forallb (forallb colour) grid = true ->
  PyStr.contains "[" pre = false ->
  PyStr.contains "[" post = false ->
  Parser.parse_2d_arrays_from_string (pre +:+ grid_text grid +:+ post)
  = Ret [grid].
Proof.
  intros Hne Hc Hpre Hpost. destruct grid as [|row rows]; [congruence|].
  pose proof Hc as Hc'. cbn [forallb] in Hc'.
  apply andb_prop in Hc' as [Hrow Hrows].
  unfold Parser.parse_2d_arrays_from_string.
  rewrite (findall_grid pre row rows post Hrow Hrows Hpre Hpost).
  rewrite matches_loop_spec. cbn [forallb map app].
  unfold match_ok, grid_of.
  rewrite (findall_inner_grid row rows Hrow Hrows).
  destruct (grid_inner_ok (row :: rows) Hc) as [H1 H2].
  now rewrite H1, H2.
Qed.

Lemma parse_2d_arrays_round_trip_witness :
  Parser.parse_2d_arrays_from_string
    ("Output: " +:+ grid_text [[1; 0; 2]; []; [9]] +:+ " (done)")
  = Ret [[[1; 0; 2]; []; [9]]].
Proof.
  apply (parse_2d_arrays_round_trip "Output: " " (done)" [[1; 0; 2]; []; [9]]);
    [discriminate|reflexivity|reflexivity|reflexivity].
Defined.

(** ** Several fences *)

(** The marker is looked for in the chunks, not in the blocks: prose
    behind a later block that names the marker selects that block,
    although the block that defines [transform] is the first one. *)
Example parse_python_backticks_marker_in_prose :
  Parser.parse_python_backticks marker_in_prose_text = Ret "y = 2".
Proof. vm_compute. reflexivity. Qed.

(** Two blocks that both define [transform]: the second one is
    returned. *)
Example parse_python_backticks_two_marked_blocks :
  Parser.parse_python_backticks two_blocks_text
  = Ret ("def transform(g):" +:+ PyStr.nl +:+ "    return g").
Proof. vm_compute. reflexivity. Qed.

(** X24.  With several fences the text is cut at the fences, and the
    chunks (each one the text from a fence to the next fence or to the
    end, the prose behind the closing backticks included) are searched
    for the marker [def transform(] from the last one backwards.  The
    last chunk that holds the marker anywhere is the one that is
    parsed: when it opens with a block closed by a newline and three
    backticks that occur nowhere later in the chunk, the call returns
    the body of that block with every tab expanded, whatever the other
    chunks hold and wherever in the chunk the marker stands. *)
Theorem parse_python_backticks_last_marked_chunk (s body tail : string)
    (later earlier : list string) :
  (1 < PyStr.count Parser.fence s)%nat ->
  rev (PyStr.split Parser.fence s)
  = later ++ (PyStr.nl +:+ body +:+ PyStr.nl +:+ "```" +:+ tail) :: earlier ->
  (forall c, In c later -> PyStr.contains Parser.marker c = false) ->
  PyStr.contains Parser.marker
    (PyStr.nl +:+ body +:+ PyStr.nl +:+ "```" +:+ tail) = true ->
  PyStr.contains (PyStr.nl +:+ "```") tail = false ->
  Parser.parse_python_backticks s = Ret (Parser.clean_code body).
Proof.
  intros Hc Hrev Hlater Hm Htail.
  rewrite (parse_python_backticks_selects s later _ earlier Hc Hrev Hlater Hm).
  unfold extract_block.
  now rewrite (search_here _ _ _ _ (match_closed_block body tail Htail)).
Qed.

Lemma parse_python_backticks_last_marked_chunk_witness :
  Parser.parse_python_backticks marker_in_prose_text
  = Ret (Parser.clean_code "y = 2").
Proof.
  apply (parse_python_backticks_last_marked_chunk marker_in_prose_text
           "y = 2"
           (PyStr.nl +:+ "The second block has no def transform( in it.")
           []
           [PyStr.nl +:+ "def transform(g):" +:+ PyStr.nl +:+ "    return g"
            +:+ PyStr.nl +:+ "```" +:+ PyStr.nl;
            EmptyString]).
  - vm_compute. lia.
  - vm_compute. reflexivity.
  - intros c [].
  - reflexivity.
  - reflexivity.
Defined.

(** ** A missing credential *)

(** X25.  A credential that is not in the environment stops the call
    at once: for every model whose branch starts by reading a key, the
    orchestrator raises [KeyError] before it reads or edits the
    conversation and before any request. *)
Theorem missing_credential_raises (ext : external) (messages : list loc)
    (model : Model) (key : string) (n_times : Z) (w : world) :
  0 < n_times ->
  key_read_first model = Some key ->
  environ ext !! key = None ->
  get_next_messages ext messages model n_times w = (Raise (bare KeyError), w).
Proof.
  intros Hn Hk He. unfold get_next_messages.
  destruct (Z.leb_spec n_times 0) as [?|_]; [lia|]. cbv zeta.
  destruct model; vm_compute in Hk; try discriminate Hk;
    injection Hk as <-; decide_models;
    unfold anthropic_branch, openai_branch, deepseek_branch, xai_branch,
      openrouter_branch, env_key;
    repeat match goal with
           | |- context [bool_decide ?P] =>
               let b := eval vm_compute in (bool_decide P) in
               change (bool_decide P) with b
           end;
    cbv iota; unfold bind at 1; cbn [ret]; unfold bind at 1;
    rewrite He; reflexivity.
Qed.

Lemma missing_credential_raises_witness :
  get_next_messages ext_no_keys mixed_conversation gpt_4o 2 mixed_world
  = (Raise (bare KeyError), mixed_world).
Proof.
  apply (missing_credential_raises ext_no_keys mixed_conversation gpt_4o
           "OPENAI_API_KEY" 2 mixed_world); [lia|reflexivity|reflexivity].
Defined.

(** ** [text_only_messages] applied twice *)

Lemma text_view_strings w ls :
  (forall l, l ∈ ls -> exists r s, msgs w !! l = Some (Msg r (CStr s))) ->
  conversation_ok w ls = true /\
  map Some (text_view has_text_part w ls) = read_msgs w ls.
Proof.
  induction ls as [|l ls IH]; intros H; [split; reflexivity|].
  destruct (H l) as (r & s & El); [left|].
  destruct IH as [IH1 IH2]; [intros l' Hl'; apply H; now right|].
  unfold conversation_ok, text_view, read_msgs in *.
  cbn [forallb omap list_omap map]. unfold message_ok at 1. rewrite El.
  cbn [msg_content has_text_part texts_of PyStr.join role map].
  split; [exact IH1|]. cbn [map]. now rewrite IH2.
Qed.

(** X26.  What [text_only_messages] returns is already text only: a
    second pass over its result makes new copies with the same roles
    and the same contents, in the same order, and never fails. *)
Theorem text_only_messages_twice (w w' : world) (messages ls : list loc) :
  text_only_messages messages w = (Ret ls, w') ->
  exists ls2 w'',
    text_only_messages ls w' = (Ret ls2, w'') /\
    read_msgs w'' ls2 = read_msgs w' ls /\
    (forall l, l ∈ ls2 -> msgs w' !! l = None) /\
    store_kept w' w''.
Proof.
  intros H. unfold text_only_messages in H.
  apply text_only_loop_new in H as [_ Hnew].
  assert (Hs : forall l, l ∈ ls -> exists r s, msgs w' !! l = Some (Msg r (CStr s))).
  { intros l Hl. destruct (Hnew l Hl) as [Hin|[_ Hs]]; [inversion Hin|exact Hs]. }
  destruct (text_view_strings w' ls Hs) as [Hok Hv].
  destruct (text_only_loop_ok w' ls [] w') as (ls2 & w'' & Hrun & Hg & _ & Hr & Hn).
  - split_and!; auto.
  - exact Hok.
  - intros l Hl. inversion Hl.
  - exists ls2, w''. destruct Hg as (Hp & Ht & Hm).
    split_and!; auto.
    + now rewrite Hr, Hv.
    + split; [exact Hm|]. intros l p. now rewrite Hp.
Qed.

Lemma text_only_messages_twice_witness :
  exists ls2 w'',
    text_only_messages
      (match (text_only_messages mixed_conversation mixed_world).1 with
       | Ret ls => ls | Raise _ => [] end)
      (text_only_messages mixed_conversation mixed_world).2 = (Ret ls2, w'') /\
    read_msgs w'' ls2
    = [Some (Msg "system" (CStr "be brief"));
       Some (Msg "user" (CStr ("look" +:+ PyStr.nl +:+ "at this")));
       Some (Msg "assistant" (CStr "fine"))].
Proof.
  destruct (text_only_messages_twice mixed_world
              (text_only_messages mixed_conversation mixed_world).2
              mixed_conversation
              (match (text_only_messages mixed_conversation mixed_world).1 with
               | Ret ls => ls | Raise _ => [] end))
    as (ls2 & w'' & Hrun & Hr & _).
  - vm_compute. reflexivity.
  - exists ls2, w''. split; [exact Hrun|]. rewrite Hr. vm_compute. reflexivity.
Defined.

(** ** What the Anthropic translation leaves of the images *)

Lemma reshape_image_types l w u w' :
  reshape_image l w = (Ret u, w') ->
  msgs w' = msgs w /\ not_image_url w' l /\
  forall x, not_image_url w x -> not_image_url w' x.
Proof.
  unfold reshape_image, bind, get_part, lift, set_part, ret, part_get.
  destruct (parts w !! l) as [p|] eqn:Ep; [|discriminate].
  destruct (p !! "type") as [ty|] eqn:Ety; [|discriminate].
  destruct (val_is "image_url" ty) eqn:Ev.
  - cbn. rewrite lookup_insert_eq.
    destruct (image_url_of (<["type":=VStr "image"]> p)) as [url|e]; cbn;
      [|discriminate].
    rewrite lookup_insert_eq. intros [= _ <-]. cbn.
    assert (Hl : forall q,
              <[l := delete "image_url"
                       (<["source" := VDict [("data", strip_data_prefix url);
                                             ("media_type", "image/png");
                                             ("type", "base64")]]>
                          (<["type" := VStr "image"]> p))]>
                (<[l := <["source" := VDict [("data", strip_data_prefix url);
                                             ("media_type", "image/png");
                                             ("type", "base64")]]>
                          (<["type" := VStr "image"]> p)]>
                   (<[l := <["type" := VStr "image"]> p]> (parts w))) !! l = Some q ->
              q !! "type" <> Some (VStr "image_url")).
    { intros q. rewrite lookup_insert_eq. intros [= <-].
      rewrite lookup_delete_ne, lookup_insert_ne, lookup_insert_eq by discriminate.
      discriminate. }
    split_and!; [reflexivity|exact Hl|].
    intros x Hx q. destruct (decide (x = l)) as [->|Hne]; [apply Hl|].
    cbn. rewrite !lookup_insert_ne by auto. apply Hx.
  - intros [= _ <-]. split_and!; [reflexivity| |auto].
    intros q Hq. rewrite Ep in Hq. injection Hq as <-. rewrite Ety.
    intros [= ->]. discriminate Ev.
Qed.

Lemma cap_cache_control_types l c w c' w' :
  cap_cache_control l c w = (Ret c', w') ->
  msgs w' = msgs w /\ forall x, not_image_url w x -> not_image_url w' x.
Proof.
  unfold cap_cache_control, bind, get_part, set_part, ret.
  destruct (parts w !! l) as [p|] eqn:Ep; [|discriminate].
  destruct (p !! "cache_control") as [v|]; [|intros [= _ <-]; auto].
  destruct (3 <=? c + 1); intros [= _ <-]; [|auto].
  split; [reflexivity|]. intros x Hx q. cbn.
  destruct (decide (x = l)) as [->|Hne].
  - rewrite lookup_insert_eq. intros [= <-].
    rewrite lookup_delete_ne by discriminate. now apply Hx.
  - rewrite lookup_insert_ne by auto. apply Hx.
Qed.

Lemma translate_parts_types ps : forall c w c' w',
  translate_parts ps c w = (Ret c', w') ->
  msgs w' = msgs w /\
  (forall x, not_image_url w x -> not_image_url w' x) /\
  (forall x, x ∈ ps -> not_image_url w' x).
Proof.
  induction ps as [|l ps IH]; intros c w c' w' H.
  - injection H as _ <-. split_and!; auto. intros x Hx. inversion Hx.
  - cbn [translate_parts] in H.
    apply bind_ret_inv in H as (u & w1 & H1 & H).
    apply reshape_image_types in H1 as (Hm1 & Hl1 & Hmono1).
    apply bind_ret_inv in H as (c1 & w2 & H2 & H).
    apply cap_cache_control_types in H2 as (Hm2 & Hmono2).
    apply IH in H as (Hm & Hmono & Hps).
    split_and!; [congruence|auto|].
    intros x Hx. apply elem_of_cons in Hx as [->|Hx]; auto.
Qed.

Lemma translate_messages_types messages : forall c w c' w',
  translate_messages messages c w = (Ret c', w') ->
  msgs w' = msgs w /\
  (forall x, not_image_url w x -> not_image_url w' x) /\
  (forall x, x ∈ conv_parts w messages -> not_image_url w' x).
Proof.
  induction messages as [|l ms IH]; intros c w c' w' H.
  - injection H as _ <-. split_and!; auto. intros x Hx. inversion Hx.
  - cbn [translate_messages] in H.
    apply bind_ret_inv in H as (m & w1 & H1 & H).
    pose proof (reads_run _ _ _ _ (reads_get_msg l) H1) as ->.
    unfold get_msg in H1. destruct (msgs w !! l) as [m'|] eqn:El; [|discriminate].
    injection H1 as ->.
    apply bind_ret_inv in H as (c1 & w2 & H2 & H).
    assert (Hstep : msgs w2 = msgs w /\
                    (forall x, not_image_url w x -> not_image_url w2 x) /\
                    (forall x, x ∈ content_parts w l -> not_image_url w2 x)).
    { unfold content_parts. rewrite El. destruct m as [r [s|ps]]; cbn in *.
      - injection H2 as _ <-. split_and!; auto. intros x Hx. inversion Hx.
      - eapply translate_parts_types; eauto. }
    destruct Hstep as (Hm2 & Hmono2 & Hl2).
    apply IH in H as (Hm & Hmono & Hms).
    split_and!; [congruence|auto|].
    intros x Hx. unfold conv_parts in Hx. cbn [map concat] in Hx.
    apply elem_of_app in Hx as [Hx|Hx]; [auto|].
    apply Hms. now rewrite (conv_parts_same _ _ _ Hm2).
Qed.

Lemma mark_last_types messages w u w' :
  mark_last messages w = (Ret u, w') ->
  (forall x, x ∈ conv_parts w messages -> not_image_url w x) ->
  forall x, x ∈ conv_parts w' messages -> not_image_url w' x.
Proof.
  unfold mark_last.
  destruct (last messages) as [lm|] eqn:El; [|discriminate]. intros H Hall.
  apply bind_ret_inv in H as (m & w1 & H1 & H).
  pose proof (reads_run _ _ _ _ (reads_get_msg lm) H1) as ->.
  unfold get_msg in H1. destruct (msgs w !! lm) as [m'|] eqn:Em; [|discriminate].
  injection H1 as ->.
  apply bind_ret_inv in H as (ps & w2 & H2 & H).
  destruct (msg_content m) as [s|ps0] eqn:Ec.
  - unfold bind, alloc_part, set_msg, ret in H2. cbn in H2.
    injection H2 as <- <-. cbn [last] in H.
    set (pl := fresh (dom (parts w))) in *.
    unfold bind, get_part, set_part in H. cbn in H.
    rewrite lookup_insert_eq in H. injection H as _ <-.
    intros x Hx q. cbn. destruct (decide (x = pl)) as [->|Hne].
    + rewrite lookup_insert_eq. intros [= <-].
      rewrite lookup_insert_ne, lookup_insert_eq by discriminate. discriminate.
    + rewrite !lookup_insert_ne by auto. apply Hall.
      apply elem_of_conv_parts in Hx as (l & Hl & Hx).
      apply elem_of_conv_parts. exists l. split; [exact Hl|].
      unfold content_parts in *. cbn in Hx.
      destruct (decide (l = lm)) as [->|Hl'].
      * rewrite lookup_insert_eq in Hx.
        apply list_elem_of_singleton in Hx. contradiction.
      * now rewrite lookup_insert_ne in Hx by auto.
  - injection H2 as <- <-.
    destruct (last ps0) as [pl|] eqn:Ep; [|discriminate].
    unfold bind, get_part, set_part in H.
    destruct (parts w !! pl) as [p|] eqn:Epl; [|discriminate].
    injection H as _ <-.
    intros x Hx q. cbn. destruct (decide (x = pl)) as [->|Hne].
    + rewrite lookup_insert_eq. intros [= <-].
      rewrite lookup_insert_ne by discriminate. now apply (Hall pl Hx).
    + rewrite lookup_insert_ne by auto. now apply Hall.
Qed.

(** X27.  When the translation of the Anthropic branch succeeds, no
    content part of the messages that are sent is of type [image_url]
    any more, also when several messages share a part: each image was
    reshaped once, and neither the counting of the cache hints nor the
    marking of the last part touches the type. *)
Theorem anthropic_translate_no_image_url (messages : list loc) (w w' : world)
    (sm : content * list loc) :
  anthropic_translate messages w = (Ret sm, w') ->
  forall l p,
    l ∈ conv_parts w' sm.2 ->
    parts w' !! l = Some p ->
    p !! "type" <> Some (VStr "image_url").
Proof.
  intros H. unfold anthropic_translate in H.
  apply bind_ret_inv in H as (sm0 & w1 & H1 & H).
  pose proof (reads_run _ _ _ _ (reads_split_system messages) H1) as ->.
  apply bind_ret_inv in H as (c & w2 & H2 & H).
  apply bind_ret_inv in H as (u & w3 & H3 & H).
  injection H as <- <-.
  apply translate_messages_types in H2 as (Hm & _ & Hall).
  intros l p Hl. apply (mark_last_types _ _ _ _ H3); [|exact Hl].
  intros x Hx. apply Hall. now rewrite <- (conv_parts_same _ _ _ Hm).
Qed.

Lemma anthropic_translate_no_image_url_witness :
  exists p,
    parts (anthropic_translate mixed_conversation mixed_world).2 !! 2%nat = Some p /\
    p !! "type" <> Some (VStr "image_url").
Proof.
  destruct (parts (anthropic_translate mixed_conversation mixed_world).2 !! 2%nat)
    as [p|] eqn:E; [|vm_compute in E; discriminate E].
  exists p. split; [reflexivity|].
  apply (anthropic_translate_no_image_url mixed_conversation mixed_world
           (anthropic_translate mixed_conversation mixed_world).2
           (CList [0%nat], [1; 2; 3]%nat) eq_refl 2%nat p); [|exact E].
  apply elem_of_conv_parts. exists 1%nat. split.
  - apply list_elem_of_In. cbn. auto.
  - apply list_elem_of_In. vm_compute. auto.
Defined.
